(** * HealthcareDB: the access-control ledger of the healthcare record contract

    A shallow embedding of the canonical (richer) [HealthcareDB] Solidity
    contract: roles, pause switch, patient records, per-record access-grant
    lists with their boolean cache, and the derived index arrays.  The older
    contract variant's cache-free [hasAccess] is embedded next to it, for the
    comparison of the two access checks.

    Conventions of the embedding:
    - [address], [bytes32] and [uint256] values are integers ([Z]); the
      contract performs no arithmetic on them besides loop counters bounded
      by an array length, so no wrap-around can occur;
    - a Solidity [mapping] is a finite map read with the zero value of its
      value type as default ([gmap] together with [default zero (m !! k)]);
    - a storage array is a [list], [push] appends at the end;
    - a transaction either reverts (state and events rolled back) or commits:
      every state-changing function returns a [Result];
    - modifiers run in the order in which they are written on the function;
    - [nonReentrant] never fires, because no function performs an external
      call; it is left out;
    - the functions inherited from the OpenZeppelin base contracts are
      embedded as far as this contract calls them ([hasRole], [_grantRole],
      [onlyRole], [_pause], [_unpause], [whenNotPaused]) and as far as
      they are external entry points of the deployed contract ([grantRole],
      [revokeRole], [renounceRole]); the event log holds the events this
      contract declares. *)

From stdpp Require Import gmap strings list fin_maps.

#[local] Set Warnings "-clear-no-such-hyp".

Open Scope Z_scope.

(** ** Data model *)

Abbreviation address := Z.
Abbreviation bytes32 := Z.
Abbreviation uint256 := Z.

(** A role identifier: the three constants the contract names, or any
    other [bytes32] value passed to the inherited role administration. *)
Inductive Role :=
| DEFAULT_ADMIN_ROLE
| ADMIN_ROLE
| ORGANIZATION_ROLE
| OtherRole (id : bytes32).

#[global] Instance Role_eq_dec : EqDecision Role.
Proof. solve_decision. Defined.

Definition Role_to_sum (r : Role) : nat + Z :=
  match r with
  | DEFAULT_ADMIN_ROLE => inl 0%nat
  | ADMIN_ROLE => inl 1%nat
  | ORGANIZATION_ROLE => inl 2%nat
  | OtherRole id => inr id
  end.

Definition Role_of_sum (x : nat + Z) : Role :=
  match x with
  | inl O => DEFAULT_ADMIN_ROLE
  | inl (S O) => ADMIN_ROLE
  | inl _ => ORGANIZATION_ROLE
  | inr id => OtherRole id
  end.

#[global] Instance Role_countable : Countable Role.
Proof. apply (inj_countable' Role_to_sum Role_of_sum). by intros []. Defined.

Definition MAX_STRING_LENGTH : uint256 := 256.

Record PatientRecord := {
  recordId : bytes32;
  patientAddress : address;
  createdBy : address;
  timestamp : uint256;
  lastUpdated : uint256;
  encryptedDataHash : string;
  dataLocation : string;
  isActive : bool
}.

Record AccessGrant := {
  organization : address;
  grantedAt : uint256;
  revokedAt : uint256;
  isRevoked : bool
}.

(** The value a [mapping(bytes32 => PatientRecord)] holds at a key that was
    never written. *)
Definition zeroRecord : PatientRecord :=
  {| recordId := 0; patientAddress := 0; createdBy := 0; timestamp := 0;
     lastUpdated := 0; encryptedDataHash := ""; dataLocation := "";
     isActive := false |}.

Inductive Event :=
| RecordCreated (rid : bytes32) (patient creator : address) (ts : uint256)
    (dataHash location : string)
| AccessGranted (rid : bytes32) (org grantedBy : address) (ts : uint256)
| AccessRevoked (rid : bytes32) (org revokedBy : address) (ts : uint256)
| RecordUpdated (rid : bytes32) (updatedBy : address) (ts : uint256)
    (newDataHash newLocation : string)
| OrganizationRegistered (org registeredBy : address)
| RecordDeactivated (rid : bytes32) (deactivatedBy : address) (ts : uint256).

Record State := {
  _roles : gset (Role * address);
  _paused : bool;
  _records : gmap bytes32 PatientRecord;
  _recordAccess : gmap bytes32 (list AccessGrant);
  _patientRecords : gmap address (list bytes32);
  _organizationRecords : gmap address (list bytes32);
  _hasAccessCache : gmap (bytes32 * address) bool;
  _allRecordIds : list bytes32;
  _registeredOrganizations : list address;
  _events : list Event
}.

(** The transaction context a call runs in. *)
Record Env := {
  msg_sender : address;
  block_timestamp : uint256;
  block_prevrandao : uint256;
  block_number : uint256
}.

(** Why a transaction reverted: the custom errors of the inherited access
    control and pause contracts, or the reason string of a failed
    [require] / [revert]. *)
Inductive Revert :=
| AccessControlUnauthorizedAccount (account : address) (neededRole : Role)
| AccessControlBadConfirmation
| EnforcedPause
| ExpectedPause
| Require (reason : string).

Inductive Result (A : Type) :=
| Ok (a : A)
| Reverted (r : Revert).
Arguments Ok {A} a.
Arguments Reverted {A} r.

#[global] Instance Result_ret : MRet Result := λ A a, Ok a.
#[global] Instance Result_bind : MBind Result := λ A B k m,
  match m with Ok a => k a | Reverted r => Reverted r end.

Definition require (cond : bool) (reason : string) : Result unit :=
  if cond then Ok tt else Reverted (Require reason).

(** ** Storage reads, with Solidity's zero defaults *)

Definition recordOf (s : State) (rid : bytes32) : PatientRecord :=
  default zeroRecord (_records s !! rid).

Definition accessOf (s : State) (rid : bytes32) : list AccessGrant :=
  default [] (_recordAccess s !! rid).

Definition patientIndex (s : State) (p : address) : list bytes32 :=
  default [] (_patientRecords s !! p).

Definition organizationIndex (s : State) (o : address) : list bytes32 :=
  default [] (_organizationRecords s !! o).

Definition cacheOf (s : State) (rid : bytes32) (o : address) : bool :=
  default false (_hasAccessCache s !! (rid, o)).

(** ** Inherited access control and pause switch *)

Definition hasRole (s : State) (role : Role) (account : address) : bool :=
  bool_decide ((role, account) ∈ _roles s).

Definition _grantRole (role : Role) (account : address) (s : State) : State :=
  {| _roles := {[ (role, account) ]} ∪ _roles s;
     _paused := _paused s;
     _records := _records s;
     _recordAccess := _recordAccess s;
     _patientRecords := _patientRecords s;
     _organizationRecords := _organizationRecords s;
     _hasAccessCache := _hasAccessCache s;
     _allRecordIds := _allRecordIds s;
     _registeredOrganizations := _registeredOrganizations s;
     _events := _events s |}.

Definition onlyRole (role : Role) (e : Env) (s : State) : Result unit :=
  if hasRole s role (msg_sender e) then Ok tt
  else Reverted (AccessControlUnauthorizedAccount (msg_sender e) role).

Definition _revokeRole (role : Role) (account : address) (s : State) : State :=
  {| _roles := _roles s ∖ {[ (role, account) ]};
     _paused := _paused s;
     _records := _records s;
     _recordAccess := _recordAccess s;
     _patientRecords := _patientRecords s;
     _organizationRecords := _organizationRecords s;
     _hasAccessCache := _hasAccessCache s;
     _allRecordIds := _allRecordIds s;
     _registeredOrganizations := _registeredOrganizations s;
     _events := _events s |}.

(** The external role administration the contract inherits.  The contract
    never sets a role's admin role, so the admin role of every role is
    [DEFAULT_ADMIN_ROLE], which the constructor grants to the deployer. *)
Definition getRoleAdmin (role : Role) : Role := DEFAULT_ADMIN_ROLE.

Definition grantRole (e : Env) (role : Role) (account : address) (s : State)
  : Result State :=
  onlyRole (getRoleAdmin role) e s;;
  Ok (_grantRole role account s).

Definition revokeRole (e : Env) (role : Role) (account : address) (s : State)
  : Result State :=
  onlyRole (getRoleAdmin role) e s;;
  Ok (_revokeRole role account s).

Definition renounceRole (e : Env) (role : Role) (callerConfirmation : address)
    (s : State) : Result State :=
  if negb (callerConfirmation =? msg_sender e)
  then Reverted AccessControlBadConfirmation
  else Ok (_revokeRole role callerConfirmation s).

Definition whenNotPaused (s : State) : Result unit :=
  if _paused s then Reverted EnforcedPause else Ok tt.

Definition whenPaused (s : State) : Result unit :=
  if _paused s then Ok tt else Reverted ExpectedPause.

Definition set_paused (b : bool) (s : State) : State :=
  {| _roles := _roles s;
     _paused := b;
     _records := _records s;
     _recordAccess := _recordAccess s;
     _patientRecords := _patientRecords s;
     _organizationRecords := _organizationRecords s;
     _hasAccessCache := _hasAccessCache s;
     _allRecordIds := _allRecordIds s;
     _registeredOrganizations := _registeredOrganizations s;
     _events := _events s |}.

(** ** Modifiers of the contract *)

Definition validAddress (a : address) : Result unit :=
  require (negb (a =? 0)) "HealthcareDB: Invalid address".

Definition validString (str : string) (maxLength : uint256) : Result unit :=
  require (0 <? Z.of_nat (String.length str)) "HealthcareDB: Empty string";;
  require (Z.of_nat (String.length str) <=? maxLength) "HealthcareDB: String too long".

Definition recordExists (s : State) (rid : bytes32) : Result unit :=
  require (isActive (recordOf s rid))
    "HealthcareDB: Record does not exist or is inactive".

(** ** Constructor *)

Definition emptyState : State :=
  {| _roles := ∅; _paused := false; _records := ∅; _recordAccess := ∅;
     _patientRecords := ∅; _organizationRecords := ∅; _hasAccessCache := ∅;
     _allRecordIds := []; _registeredOrganizations := []; _events := [] |}.

Definition constructor (deployer : address) : State :=
  _grantRole ADMIN_ROLE deployer (_grantRole DEFAULT_ADMIN_ROLE deployer emptyState).

(** ** Organization management *)

Definition addOrganization (registrar organization : address) (s : State) : State :=
  let s1 := _grantRole ORGANIZATION_ROLE organization s in
  {| _roles := _roles s1;
     _paused := _paused s1;
     _records := _records s1;
     _recordAccess := _recordAccess s1;
     _patientRecords := _patientRecords s1;
     _organizationRecords := _organizationRecords s1;
     _hasAccessCache := _hasAccessCache s1;
     _allRecordIds := _allRecordIds s1;
     _registeredOrganizations := _registeredOrganizations s1 ++ [organization];
     _events := _events s1 ++ [OrganizationRegistered organization registrar] |}.

Definition registerOrganization (e : Env) (organization : address) (s : State)
  : Result State :=
  onlyRole ADMIN_ROLE e s;;
  validAddress organization;;
  whenNotPaused s;;
  require (negb (hasRole s ORGANIZATION_ROLE organization))
    "HealthcareDB: Organization already registered";;
  Ok (addOrganization (msg_sender e) organization s).

(** The body of the registration loop, for one array element. *)
Definition batchStep (e : Env) (s : State) (organization : address) : State :=
  if negb (organization =? 0) && negb (hasRole s ORGANIZATION_ROLE organization)
  then addOrganization (msg_sender e) organization s
  else s.

Definition batchRegisterOrganizations (e : Env) (organizations : list address)
    (s : State) : Result State :=
  onlyRole ADMIN_ROLE e s;;
  whenNotPaused s;;
  require (0 <? Z.of_nat (length organizations)) "HealthcareDB: Empty array";;
  require (Z.of_nat (length organizations) <=? 50)
    "HealthcareDB: Too many organizations";;
  Ok (foldl (batchStep e) s organizations).

(** ** Access checks *)

(** The test both access loops apply to one list entry. *)
Definition grantsNow (o : address) (g : AccessGrant) : bool :=
  (organization g =? o) && negb (isRevoked g).

(** The loop [for i ... if (entry matches) return true; ... return false]. *)
Fixpoint scanAccess (o : address) (l : list AccessGrant) : bool :=
  match l with
  | [] => false
  | g :: l' => if grantsNow o g then true else scanAccess o l'
  end.

Definition _hasAccess (s : State) (rid : bytes32) (o : address) : bool :=
  if negb (isActive (recordOf s rid)) then false
  else if negb (cacheOf s rid o) then false
  else scanAccess o (accessOf s rid).

Definition hasAccess (s : State) (rid : bytes32) (o : address) : bool :=
  _hasAccess s rid o.

(** The access check of the older contract variant: no cache, only the
    record's activity and the scan of the grant list. *)
Definition hasAccess_uncached (s : State) (rid : bytes32) (o : address) : bool :=
  if negb (isActive (recordOf s rid)) then false
  else scanAccess o (accessOf s rid).

(** ** Record management and the access-grant ledger *)

Definition newGrant (o : address) (now : uint256) : AccessGrant :=
  {| organization := o; grantedAt := now; revokedAt := 0; isRevoked := false |}.

Definition revoked (g : AccessGrant) (now : uint256) : AccessGrant :=
  {| organization := organization g; grantedAt := grantedAt g;
     revokedAt := now; isRevoked := true |}.

(** The revocation loop: the first entry of the organization that is not
    revoked is marked and the loop returns; [None] when the loop runs off the
    end of the array (the function then reverts). *)
Fixpoint revokeFirst (o : address) (now : uint256) (l : list AccessGrant)
  : option (list AccessGrant) :=
  match l with
  | [] => None
  | g :: l' =>
      if grantsNow o g then Some (revoked g now :: l')
      else (g ::.) <$> revokeFirst o now l'
  end.

(** [keccak256(abi.encodePacked(...))] of the values packed by
    [createRecord].  The hash is a primitive of the execution platform, so
    the contract is embedded over an arbitrary hash function; all packed
    values have a fixed width, so the packed bytes and the list of values
    determine each other and the hash is taken on the list. *)
Class Keccak256 := keccak256 : list Z → bytes32.

Section Contract.

Context `{Keccak256}.

Definition newRecordId (e : Env) (patient : address) (s : State) : bytes32 :=
  keccak256 [patient; msg_sender e; block_timestamp e; block_prevrandao e;
             block_number e; Z.of_nat (length (_allRecordIds s))].

Definition createRecord (e : Env) (patient : address) (dataHash location : string)
    (s : State) : Result (bytes32 * State) :=
  onlyRole ORGANIZATION_ROLE e s;;
  whenNotPaused s;;
  validAddress patient;;
  validString dataHash MAX_STRING_LENGTH;;
  validString location MAX_STRING_LENGTH;;
  let rid := newRecordId e patient s in
  require (negb (isActive (recordOf s rid))) "HealthcareDB: Record ID collision";;
  Ok (rid,
      {| _roles := _roles s;
         _paused := _paused s;
         _records :=
           <[rid := {| recordId := rid; patientAddress := patient;
                       createdBy := msg_sender e;
                       timestamp := block_timestamp e;
                       lastUpdated := block_timestamp e;
                       encryptedDataHash := dataHash;
                       dataLocation := location;
                       isActive := true |}]> (_records s);
         _recordAccess :=
           <[rid := accessOf s rid ++ [newGrant (msg_sender e) (block_timestamp e)]]>
             (_recordAccess s);
         _patientRecords :=
           <[patient := patientIndex s patient ++ [rid]]> (_patientRecords s);
         _organizationRecords :=
           <[msg_sender e := organizationIndex s (msg_sender e) ++ [rid]]>
             (_organizationRecords s);
         _hasAccessCache := <[(rid, msg_sender e) := true]> (_hasAccessCache s);
         _allRecordIds := _allRecordIds s ++ [rid];
         _registeredOrganizations := _registeredOrganizations s;
         _events := _events s ++
           [RecordCreated rid patient (msg_sender e) (block_timestamp e)
              dataHash location] |}).

Definition grantAccess (e : Env) (rid : bytes32) (org : address) (s : State)
  : Result State :=
  onlyRole ORGANIZATION_ROLE e s;;
  whenNotPaused s;;
  recordExists s rid;;
  validAddress org;;
  require (hasRole s ORGANIZATION_ROLE org) "HealthcareDB: Invalid organization";;
  require (_hasAccess s rid (msg_sender e))
    "HealthcareDB: You don't have access to this record";;
  require (negb (_hasAccess s rid org)) "HealthcareDB: Access already granted";;
  Ok {| _roles := _roles s;
        _paused := _paused s;
        _records := _records s;
        _recordAccess :=
          <[rid := accessOf s rid ++ [newGrant org (block_timestamp e)]]>
            (_recordAccess s);
        _patientRecords := _patientRecords s;
        _organizationRecords :=
          <[org := organizationIndex s org ++ [rid]]> (_organizationRecords s);
        _hasAccessCache := <[(rid, org) := true]> (_hasAccessCache s);
        _allRecordIds := _allRecordIds s;
        _registeredOrganizations := _registeredOrganizations s;
        _events := _events s ++
          [AccessGranted rid org (msg_sender e) (block_timestamp e)] |}.

Definition revokeAccess (e : Env) (rid : bytes32) (org : address) (s : State)
  : Result State :=
  onlyRole ORGANIZATION_ROLE e s;;
  whenNotPaused s;;
  recordExists s rid;;
  validAddress org;;
  require (_hasAccess s rid (msg_sender e))
    "HealthcareDB: You don't have access to this record";;
  require (negb (org =? msg_sender e)) "HealthcareDB: Cannot revoke own access";;
  require (_hasAccess s rid org) "HealthcareDB: Organization does not have access";;
  match revokeFirst org (block_timestamp e) (accessOf s rid) with
  | Some l =>
      Ok {| _roles := _roles s;
            _paused := _paused s;
            _records := _records s;
            _recordAccess := <[rid := l]> (_recordAccess s);
            _patientRecords := _patientRecords s;
            _organizationRecords := _organizationRecords s;
            _hasAccessCache := <[(rid, org) := false]> (_hasAccessCache s);
            _allRecordIds := _allRecordIds s;
            _registeredOrganizations := _registeredOrganizations s;
            _events := _events s ++
              [AccessRevoked rid org (msg_sender e) (block_timestamp e)] |}
  | None => Reverted (Require "HealthcareDB: Access not found")
  end.

Definition updateRecord (e : Env) (rid : bytes32) (dataHash location : string)
    (s : State) : Result State :=
  onlyRole ORGANIZATION_ROLE e s;;
  whenNotPaused s;;
  recordExists s rid;;
  validString dataHash MAX_STRING_LENGTH;;
  validString location MAX_STRING_LENGTH;;
  require (_hasAccess s rid (msg_sender e))
    "HealthcareDB: You don't have access to this record";;
  let r := recordOf s rid in
  Ok {| _roles := _roles s;
        _paused := _paused s;
        _records :=
          <[rid := {| recordId := recordId r; patientAddress := patientAddress r;
                      createdBy := createdBy r; timestamp := timestamp r;
                      lastUpdated := block_timestamp e;
                      encryptedDataHash := dataHash;
                      dataLocation := location;
                      isActive := isActive r |}]> (_records s);
        _recordAccess := _recordAccess s;
        _patientRecords := _patientRecords s;
        _organizationRecords := _organizationRecords s;
        _hasAccessCache := _hasAccessCache s;
        _allRecordIds := _allRecordIds s;
        _registeredOrganizations := _registeredOrganizations s;
        _events := _events s ++
          [RecordUpdated rid (msg_sender e) (block_timestamp e) dataHash location] |}.

Definition deactivateRecord (e : Env) (rid : bytes32) (s : State) : Result State :=
  whenNotPaused s;;
  recordExists s rid;;
  require ((createdBy (recordOf s rid) =? msg_sender e)
           || hasRole s ADMIN_ROLE (msg_sender e))
    "HealthcareDB: Only creator or admin can deactivate";;
  let r := recordOf s rid in
  Ok {| _roles := _roles s;
        _paused := _paused s;
        _records :=
          <[rid := {| recordId := recordId r; patientAddress := patientAddress r;
                      createdBy := createdBy r; timestamp := timestamp r;
                      lastUpdated := lastUpdated r;
                      encryptedDataHash := encryptedDataHash r;
                      dataLocation := dataLocation r;
                      isActive := false |}]> (_records s);
        _recordAccess := _recordAccess s;
        _patientRecords := _patientRecords s;
        _organizationRecords := _organizationRecords s;
        _hasAccessCache := _hasAccessCache s;
        _allRecordIds := _allRecordIds s;
        _registeredOrganizations := _registeredOrganizations s;
        _events := _events s ++
          [RecordDeactivated rid (msg_sender e) (block_timestamp e)] |}.

(** ** Admin functions *)

Definition pause (e : Env) (s : State) : Result State :=
  onlyRole ADMIN_ROLE e s;;
  whenNotPaused s;;
  Ok (set_paused true s).

Definition unpause (e : Env) (s : State) : Result State :=
  onlyRole ADMIN_ROLE e s;;
  whenPaused s;;
  Ok (set_paused false s).

(** ** View functions *)

Definition getRecord (s : State) (rid : bytes32) : PatientRecord :=
  recordOf s rid.

(** First loop of [getRecordAccess]: [activeCount]. *)
Definition countActive (l : list AccessGrant) : nat :=
  foldl (λ activeCount g,
           if negb (isRevoked g) then S activeCount else activeCount) O l.

(** Second loop: fills the freshly allocated (zeroed) array from index 0. *)
Definition fillActive (l : list AccessGrant) (organizations : list address)
  : list address * nat :=
  foldl (λ '(organizations, index) g,
           if negb (isRevoked g)
           then (<[index := organization g]> organizations, S index)
           else (organizations, index))
        (organizations, O) l.

Definition getRecordAccess (s : State) (rid : bytes32) : list address :=
  let activeCount := countActive (accessOf s rid) in
  fst (fillActive (accessOf s rid) (replicate activeCount 0)).

Definition getPatientRecords (s : State) (patient : address) : list bytes32 :=
  patientIndex s patient.

Definition getOrganizationRecords (s : State) (org : address) : list bytes32 :=
  organizationIndex s org.

Definition getPatientRecordCount (s : State) (patient : address) : uint256 :=
  Z.of_nat (length (patientIndex s patient)).

Definition getTotalRecordCount (s : State) : uint256 :=
  Z.of_nat (length (_allRecordIds s)).

Definition getOrganizationCount (s : State) : uint256 :=
  Z.of_nat (length (_registeredOrganizations s)).

Definition getAllOrganizations (s : State) : list address :=
  _registeredOrganizations s.

(** ** Transactions and executions *)

(** The state-changing external entry points of the deployed contract: the
    nine functions this contract defines and the three it inherits from
    [AccessControl]. *)
Inductive Call :=
| RegisterOrganization (org : address)
| BatchRegisterOrganizations (orgs : list address)
| CreateRecord (patient : address) (dataHash location : string)
| GrantAccess (rid : bytes32) (org : address)
| RevokeAccess (rid : bytes32) (org : address)
| UpdateRecord (rid : bytes32) (dataHash location : string)
| DeactivateRecord (rid : bytes32)
| Pause
| Unpause
| GrantRole (role : Role) (account : address)
| RevokeRole (role : Role) (account : address)
| RenounceRole (role : Role) (callerConfirmation : address).

(** One external call: the returned record id (for [createRecord]) and the
    committed state, or the revert. *)
Definition exec (e : Env) (c : Call) (s : State) : Result (option bytes32 * State) :=
  match c with
  | RegisterOrganization org => s' ← registerOrganization e org s; Ok (None, s')
  | BatchRegisterOrganizations orgs =>
      s' ← batchRegisterOrganizations e orgs s; Ok (None, s')
  | CreateRecord patient dataHash location =>
      '(rid, s') ← createRecord e patient dataHash location s; Ok (Some rid, s')
  | GrantAccess rid org => s' ← grantAccess e rid org s; Ok (None, s')
  | RevokeAccess rid org => s' ← revokeAccess e rid org s; Ok (None, s')
  | UpdateRecord rid dataHash location =>
      s' ← updateRecord e rid dataHash location s; Ok (None, s')
  | DeactivateRecord rid => s' ← deactivateRecord e rid s; Ok (None, s')
  | Pause => s' ← pause e s; Ok (None, s')
  | Unpause => s' ← unpause e s; Ok (None, s')
  | GrantRole role account => s' ← grantRole e role account s; Ok (None, s')
  | RevokeRole role account => s' ← revokeRole e role account s; Ok (None, s')
  | RenounceRole role callerConfirmation =>
      s' ← renounceRole e role callerConfirmation s; Ok (None, s')
  end.

(** The state after a call: a reverted call leaves the state as it was. *)
Definition step (s : State) (tx : Env * Call) : State :=
  match exec tx.1 tx.2 s with
  | Ok (_, s') => s'
  | Reverted _ => s
  end.

Definition run (s : State) (trace : list (Env * Call)) : State :=
  foldl step s trace.

(** The record ids returned by the successful [createRecord] calls of a
    trace, in call order. *)
Fixpoint createdIds (s : State) (trace : list (Env * Call)) : list bytes32 :=
  match trace with
  | [] => []
  | tx :: trace' =>
      match exec tx.1 tx.2 s with
      | Ok (Some rid, s') => rid :: createdIds s' trace'
      | Ok (None, s') => createdIds s' trace'
      | Reverted _ => createdIds s trace'
      end
  end.

Inductive reachable : State → Prop :=
| reachable_deploy (deployer : address) : reachable (constructor deployer)
| reachable_call (s : State) (tx : Env * Call) :
    reachable s → reachable (step s tx).

(** ** Properties of grant lists and the ledger invariant *)

(** The most recent entry of an organization in a grant list. *)
Definition latestGrant (o : address) (l : list AccessGrant) : option AccessGrant :=
  last (filter (λ g, organization g = o) l).

(** Number of entries of an organization that are not revoked. *)
Definition activeGrants (o : address) (l : list AccessGrant) : nat :=
  length (filter (λ g, organization g = o ∧ isRevoked g = false) l).

(** The organizations of the entries that are not revoked, in list order. *)
Definition activeOrganizations (l : list AccessGrant) : list address :=
  organization <$> filter (λ g, isRevoked g = false) l.

(** An entry that is not revoked is followed by no entry of its own
    organization. *)
Fixpoint latestOnly (l : list AccessGrant) : Prop :=
  match l with
  | [] => True
  | g :: l' =>
      (isRevoked g = false → ∀ g', g' ∈ l' → organization g' ≠ organization g)
      ∧ latestOnly l'
  end.

Record Ledger (s : State) : Prop := {
  ledger_ids : ∀ (i : nat) rid, _allRecordIds s !! i = Some rid →
    ∃ pre, rid = keccak256 (pre ++ [Z.of_nat i]);
  ledger_known : ∀ rid, rid ∉ _allRecordIds s →
    _records s !! rid = None ∧ accessOf s rid = []
    ∧ ∀ o, cacheOf s rid o = false;
  ledger_latest : ∀ rid, latestOnly (accessOf s rid);
  ledger_cache : ∀ rid o, cacheOf s rid o = scanAccess o (accessOf s rid)
}.

(** Every stored record is listed under its patient and in the global id
    list, whatever its activity flag. *)
Definition Indexed (s : State) : Prop :=
  ∀ rid r, _records s !! rid = Some r →
    rid ∈ patientIndex s (patientAddress r) ∧ rid ∈ _allRecordIds s.

(** The state-changing functions guarded by [whenNotPaused]. *)
Definition isWrite (c : Call) : bool :=
  match c with
  | RegisterOrganization _ | BatchRegisterOrganizations _ | CreateRecord _ _ _
  | GrantAccess _ _ | RevokeAccess _ _ | UpdateRecord _ _ _
  | DeactivateRecord _ => true
  | Pause | Unpause | GrantRole _ _ | RevokeRole _ _ | RenounceRole _ _ => false
  end.

(** The inherited role administration calls. *)
Definition isRoleAdministration (c : Call) : bool :=
  match c with
  | GrantRole _ _ | RevokeRole _ _ | RenounceRole _ _ => true
  | _ => false
  end.

(** The modifiers written before [whenNotPaused] on the function a call
    enters: the revert they raise, if any. *)
Definition beforePauseGate (e : Env) (c : Call) (s : State) : Result unit :=
  match c with
  | RegisterOrganization org => onlyRole ADMIN_ROLE e s;; validAddress org
  | BatchRegisterOrganizations _ => onlyRole ADMIN_ROLE e s
  | CreateRecord _ _ _ | GrantAccess _ _ | RevokeAccess _ _ | UpdateRecord _ _ _ =>
      onlyRole ORGANIZATION_ROLE e s
  | DeactivateRecord _ => Ok tt
  | Pause | Unpause => onlyRole ADMIN_ROLE e s
  | GrantRole role _ | RevokeRole role _ => onlyRole (getRoleAdmin role) e s
  | RenounceRole _ _ => Ok tt
  end.

End Contract.

(** The hypothesis under which record ids are studied: the hash has no
    collisions. *)
Class CollisionFree `{Keccak256} : Prop :=
  keccak256_inj : ∀ x y, keccak256 x = keccak256 y → x = y.

(** ** Well-formedness of the stored data *)

(** The bounds [validString] enforces with [MAX_STRING_LENGTH]. *)
Definition boundedString (str : string) : Prop :=
  0 < Z.of_nat (String.length str) ≤ MAX_STRING_LENGTH.

(** What every committed call keeps true of the records and the grant
    lists, whatever the hash function. *)
Record Stored (s : State) : Prop := {
  stored_records : ∀ rid r, _records s !! rid = Some r →
    recordId r = rid ∧ patientAddress r ≠ 0
    ∧ boundedString (encryptedDataHash r) ∧ boundedString (dataLocation r)
    ∧ rid ∈ organizationIndex s (createdBy r);
  stored_access : ∀ rid g, g ∈ accessOf s rid →
    rid ∈ organizationIndex s (organization g)
}.

(** What the functions this contract defines keep true of the registry and
    the organization role; the inherited [grantRole], [revokeRole] and
    [renounceRole] change the role without the registry and break each
    part. *)
Record Sound (s : State) : Prop := {
  sound_registry_NoDup : NoDup (_registeredOrganizations s);
  sound_registry : ∀ a,
    a ∈ _registeredOrganizations s ↔ hasRole s ORGANIZATION_ROLE a = true;
  sound_nonzero : ∀ a, hasRole s ORGANIZATION_ROLE a = true → a ≠ 0
}.

(** The record ids of the [RecordCreated] events of a log, and the
    organizations of its [OrganizationRegistered] events, in log order. *)
Definition createdInLog (log : list Event) : list bytes32 :=
  omap (λ ev, match ev with
              | RecordCreated rid _ _ _ _ _ => Some rid
              | _ => None
              end) log.

Definition registeredInLog (log : list Event) : list address :=
  omap (λ ev, match ev with
              | OrganizationRegistered org _ => Some org
              | _ => None
              end) log.

(** The part of a grant list that is never rewritten: who was granted
    access, and when. *)
Definition grantHistory (l : list AccessGrant) : list (address * uint256) :=
  (λ g, (organization g, grantedAt g)) <$> l.

(** [s'] extends [s]: the log, every index array and the history of every
    grant list of [s] are kept as a prefix. *)
Definition extends (s s' : State) : Prop :=
  _events s `prefix_of` _events s'
  ∧ _allRecordIds s `prefix_of` _allRecordIds s'
  ∧ _registeredOrganizations s `prefix_of` _registeredOrganizations s'
  ∧ (∀ p, patientIndex s p `prefix_of` patientIndex s' p)
  ∧ (∀ o, organizationIndex s o `prefix_of` organizationIndex s' o)
  ∧ (∀ rid, grantHistory (accessOf s rid) `prefix_of` grantHistory (accessOf s' rid)).

(** The index arrays describe the record store exactly: the id list has no
    duplicates and holds the keys of the stored records; a patient's list has
    no duplicates and holds records of that patient only; an organization's
    list holds records whose grant list names the organization. *)
Record Exact (s : State) : Prop := {
  exact_ids_NoDup : NoDup (_allRecordIds s);
  exact_ids : ∀ rid, rid ∈ _allRecordIds s ↔ is_Some (_records s !! rid);
  exact_patient_NoDup : ∀ p, NoDup (patientIndex s p);
  exact_patient : ∀ p rid, rid ∈ patientIndex s p →
    ∃ r, _records s !! rid = Some r ∧ patientAddress r = p;
  exact_organization : ∀ o rid, rid ∈ organizationIndex s o →
    ∃ g, g ∈ accessOf s rid ∧ organization g = o
}.

(** ** The older contract variant *)

(** The first version of the contract: no pause switch, no access cache, no
    registry list, no string bounds, and a record id hashed from the patient,
    the sender and the block's time and randomness only. *)
Module Legacy.

Record PatientRecord := {
  recordId : bytes32;
  patientAddress : address;
  createdBy : address;
  timestamp : uint256;
  encryptedDataHash : string;
  dataLocation : string;
  isActive : bool
}.

Record AccessGrant := {
  organization : address;
  grantedAt : uint256;
  isRevoked : bool
}.

Definition zeroRecord : PatientRecord :=
  {| recordId := 0; patientAddress := 0; createdBy := 0; timestamp := 0;
     encryptedDataHash := ""; dataLocation := ""; isActive := false |}.

Inductive Event :=
| RecordCreated (rid : bytes32) (patient creator : address) (ts : uint256)
| AccessGranted (rid : bytes32) (org grantedBy : address)
| AccessRevoked (rid : bytes32) (org revokedBy : address)
| RecordUpdated (rid : bytes32) (updatedBy : address) (ts : uint256).

Record State := {
  _roles : gset (Role * address);
  records : gmap bytes32 PatientRecord;
  recordAccess : gmap bytes32 (list AccessGrant);
  patientRecords : gmap address (list bytes32);
  organizationRecords : gmap address (list bytes32);
  allRecordIds : list bytes32;
  events : list Event
}.

Definition recordOf (s : State) (rid : bytes32) : PatientRecord :=
  default zeroRecord (records s !! rid).

Definition accessOf (s : State) (rid : bytes32) : list AccessGrant :=
  default [] (recordAccess s !! rid).

Definition hasRole (s : State) (role : Role) (account : address) : bool :=
  bool_decide ((role, account) ∈ _roles s).

Definition onlyRole (role : Role) (e : Env) (s : State) : Result unit :=
  if hasRole s role (msg_sender e) then Ok tt
  else Reverted (AccessControlUnauthorizedAccount (msg_sender e) role).

Definition _grantRole (role : Role) (account : address) (s : State) : State :=
  {| _roles := {[ (role, account) ]} ∪ _roles s;
     records := records s; recordAccess := recordAccess s;
     patientRecords := patientRecords s;
     organizationRecords := organizationRecords s;
     allRecordIds := allRecordIds s; events := events s |}.

Definition emptyState : State :=
  {| _roles := ∅; records := ∅; recordAccess := ∅; patientRecords := ∅;
     organizationRecords := ∅; allRecordIds := []; events := [] |}.

Definition constructor (deployer : address) : State :=
  _grantRole ADMIN_ROLE deployer (_grantRole DEFAULT_ADMIN_ROLE deployer emptyState).

Definition registerOrganization (e : Env) (organization : address) (s : State)
  : Result State :=
  onlyRole ADMIN_ROLE e s;;
  Ok (_grantRole ORGANIZATION_ROLE organization s).

(** The test of the access loops on one entry. *)
Definition grantsNow (o : address) (g : AccessGrant) : bool :=
  (organization g =? o) && negb (isRevoked g).

Fixpoint scanAccess (o : address) (l : list AccessGrant) : bool :=
  match l with
  | [] => false
  | g :: l' => if grantsNow o g then true else scanAccess o l'
  end.

Definition hasAccess (s : State) (rid : bytes32) (o : address) : bool :=
  if negb (isActive (recordOf s rid)) then false
  else scanAccess o (accessOf s rid).

Section Contract.

Context `{Keccak256}.

Definition newRecordId (e : Env) (patient : address) : bytes32 :=
  keccak256 [patient; msg_sender e; block_timestamp e; block_prevrandao e].

Definition createRecord (e : Env) (patient : address) (dataHash location : string)
    (s : State) : Result (bytes32 * State) :=
  onlyRole ORGANIZATION_ROLE e s;;
  require (negb (patient =? 0)) "Invalid patient address";;
  require (0 <? Z.of_nat (String.length dataHash)) "Data hash required";;
  let rid := newRecordId e patient in
  Ok (rid,
      {| _roles := _roles s;
         records :=
           <[rid := {| recordId := rid; patientAddress := patient;
                       createdBy := msg_sender e;
                       timestamp := block_timestamp e;
                       encryptedDataHash := dataHash;
                       dataLocation := location;
                       isActive := true |}]> (records s);
         recordAccess :=
           <[rid := accessOf s rid ++
                    [{| organization := msg_sender e;
                        grantedAt := block_timestamp e;
                        isRevoked := false |}]]> (recordAccess s);
         patientRecords :=
           <[patient := default [] (patientRecords s !! patient) ++ [rid]]>
             (patientRecords s);
         organizationRecords :=
           <[msg_sender e :=
               default [] (organizationRecords s !! msg_sender e) ++ [rid]]>
             (organizationRecords s);
         allRecordIds := allRecordIds s ++ [rid];
         events := events s ++
           [RecordCreated rid patient (msg_sender e) (block_timestamp e)] |}).

End Contract.

(** The [alreadyGranted] loop tests what the access loop tests. *)
Definition grantAccess (e : Env) (rid : bytes32) (org : address) (s : State)
  : Result State :=
  onlyRole ORGANIZATION_ROLE e s;;
  require (isActive (recordOf s rid)) "Record does not exist or is inactive";;
  require (hasRole s ORGANIZATION_ROLE org) "Invalid organization";;
  require (hasAccess s rid (msg_sender e)) "You don't have access to this record";;
  let alreadyGranted := scanAccess org (accessOf s rid) in
  require (negb alreadyGranted) "Access already granted";;
  Ok {| _roles := _roles s;
        records := records s;
        recordAccess :=
          <[rid := accessOf s rid ++
                   [{| organization := org; grantedAt := block_timestamp e;
                       isRevoked := false |}]]> (recordAccess s);
        patientRecords := patientRecords s;
        organizationRecords :=
          <[org := default [] (organizationRecords s !! org) ++ [rid]]>
            (organizationRecords s);
        allRecordIds := allRecordIds s;
        events := events s ++ [AccessGranted rid org (msg_sender e)] |}.

(** The revocation loop: the first entry of the organization, revoked or
    not, is marked and the loop breaks; [None] when no entry names the
    organization. *)
Fixpoint revokeFirstEntry (o : address) (l : list AccessGrant)
  : option (list AccessGrant) :=
  match l with
  | [] => None
  | g :: l' =>
      if organization g =? o
      then Some ({| organization := organization g; grantedAt := grantedAt g;
                    isRevoked := true |} :: l')
      else (g ::.) <$> revokeFirstEntry o l'
  end.

Definition revokeAccess (e : Env) (rid : bytes32) (org : address) (s : State)
  : Result State :=
  onlyRole ORGANIZATION_ROLE e s;;
  require (isActive (recordOf s rid)) "Record does not exist or is inactive";;
  require (hasAccess s rid (msg_sender e)) "You don't have access to this record";;
  match revokeFirstEntry org (accessOf s rid) with
  | Some l =>
      Ok {| _roles := _roles s;
            records := records s;
            recordAccess := <[rid := l]> (recordAccess s);
            patientRecords := patientRecords s;
            organizationRecords := organizationRecords s;
            allRecordIds := allRecordIds s;
            events := events s ++ [AccessRevoked rid org (msg_sender e)] |}
  | None => Ok s
  end.

Definition updateRecord (e : Env) (rid : bytes32) (dataHash location : string)
    (s : State) : Result State :=
  onlyRole ORGANIZATION_ROLE e s;;
  require (isActive (recordOf s rid)) "Record does not exist or is inactive";;
  require (hasAccess s rid (msg_sender e)) "You don't have access to this record";;
  let r := recordOf s rid in
  Ok {| _roles := _roles s;
        records :=
          <[rid := {| recordId := recordId r; patientAddress := patientAddress r;
                      createdBy := createdBy r; timestamp := timestamp r;
                      encryptedDataHash := dataHash;
                      dataLocation := location;
                      isActive := isActive r |}]> (records s);
        recordAccess := recordAccess s;
        patientRecords := patientRecords s;
        organizationRecords := organizationRecords s;
        allRecordIds := allRecordIds s;
        events := events s ++
          [RecordUpdated rid (msg_sender e) (block_timestamp e)] |}.

(** [getRecordAccess]: the same two loops as in the later contract. *)
Definition getRecordAccess (s : State) (rid : bytes32) : list address :=
  let l := accessOf s rid in
  let activeCount :=
    foldl (λ n g, if negb (isRevoked g) then S n else n) O l in
  fst (foldl (λ '(organizations, index) g,
                if negb (isRevoked g)
                then (<[index := organization g]> organizations, S index)
                else (organizations, index))
             (replicate activeCount 0, O) l).

Definition getPatientRecordCount (s : State) (patient : address) : uint256 :=
  Z.of_nat (length (default [] (patientRecords s !! patient))).

Definition getTotalRecordCount (s : State) : uint256 :=
  Z.of_nat (length (allRecordIds s)).

End Legacy.

(** ** The front end's validation and display helpers *)

(** The string helpers of the contract configuration module.  A JavaScript
    string is the list of its UTF-16 code units; [length], [slice] and [trim]
    work on code units. *)
Module ContractUtils.

Abbreviation jsString := (list N).

#[local] Open Scope N_scope.

(** The code units [trim] strips: the white space and line terminator
    characters of the language. *)
Definition isWhiteSpace (c : N) : bool :=
  ((9 <=? c) && (c <=? 13)) || (c =? 32) || (c =? 160) || (c =? 5760)
  || ((8192 <=? c) && (c <=? 8202)) || (c =? 8232) || (c =? 8233)
  || (c =? 8239) || (c =? 8287) || (c =? 12288) || (c =? 65279).

Fixpoint dropWhiteSpace (s : jsString) : jsString :=
  match s with
  | [] => []
  | c :: s' => if isWhiteSpace c then dropWhiteSpace s' else s
  end.

Definition trim (s : jsString) : jsString :=
  reverse (dropWhiteSpace (reverse (dropWhiteSpace s))).

(** The character class [[a-fA-F0-9]]. *)
Definition isHexDigit (c : N) : bool :=
  ((97 <=? c) && (c <=? 102)) || ((65 <=? c) && (c <=? 70))
  || ((48 <=? c) && (c <=? 57)).

(** [/^0x[a-fA-F0-9]{64}$/.test(s)]: the anchors make the pattern cover
    the whole string. *)
Definition hexPattern_test (s : jsString) : bool :=
  match s with
  | c0 :: cx :: digits =>
      (c0 =? 48) && (cx =? 120) && (length digits =? 64)%nat
      && forallb isHexDigit digits
  | _ => false
  end.

(** A string is falsy exactly when it is empty. *)
Definition falsy (s : jsString) : bool := (length s =? 0)%nat.

Definition validateRecordId (recordId : jsString) : bool :=
  if falsy recordId || (length (trim recordId) =? 0)%nat then false
  else hexPattern_test recordId.

(** [s.slice(start, end)], [end] defaulting to the length: negative indices
    count from the end, and both are clamped to the string. *)
Definition slice (s : jsString) (start : Z) (end_ : option Z) : jsString :=
  let len := Z.of_nat (length s) in
  let clamp (i : Z) := if (i <? 0)%Z then Z.max (len + i) 0 else Z.min i len in
  let from := clamp start in
  let to := match end_ with Some i => clamp i | None => len end in
  take (Z.to_nat (to - from)) (drop (Z.to_nat from) s).

(** The three code units of ["..."]. *)
Definition dots : jsString := [46; 46; 46].

Definition formatAddress (address : jsString) : jsString :=
  if falsy address || (length address <? 10)%nat then address
  else slice address 0 (Some 6%Z) ++ dots ++ slice address (-4) None.

Definition formatRecordId (recordId : jsString) : jsString :=
  if falsy recordId || (length recordId <? 10)%nat then recordId
  else slice recordId 0 (Some 10%Z) ++ dots ++ slice recordId (-8) None.

End ContractUtils.

(** ** A concrete instance, to run the contract on explicit transactions *)

(** An injective stand-in for the platform hash. *)
Definition injectiveHash : Keccak256 := λ l, Z.pos (encode l).

(** A hash that always collides, to see what the collision guard of
    [createRecord] covers. *)
Definition constantHash : Keccak256 := λ _, 0.

Definition admin0 : address := 1.
Definition orgA : address := 2.
Definition orgB : address := 3.
Definition orgC : address := 4.
Definition outsider : address := 5.
Definition patientP : address := 7.

Definition envOf (sender : address) (now : uint256) : Env :=
  {| msg_sender := sender; block_timestamp := now;
     block_prevrandao := 0; block_number := now |}.

Definition tx (sender : address) (now : uint256) (c : Call) : Env * Call :=
  (envOf sender now, c).

(** Admin registers both organizations. *)
Definition registerTrace : list (Env * Call) :=
  [ tx admin0 10 (RegisterOrganization orgA);
    tx admin0 11 (RegisterOrganization orgB) ].

(** Then [orgA] creates a record for [patientP]. *)
Definition setupTrace : list (Env * Call) :=
  registerTrace ++ [ tx orgA 12 (CreateRecord patientP "H1" "ipfs://L1") ].

(** The same creation submitted twice with the same block data. *)
Definition collidingTrace : list (Env * Call) :=
  setupTrace ++ [ tx orgA 12 (CreateRecord patientP "H1" "ipfs://L1") ].

Definition registeredState : State :=
  @run injectiveHash (constructor admin0) registerTrace.

Definition rid0 : bytes32 :=
  Eval vm_compute in (@newRecordId injectiveHash (envOf orgA 12) patientP registeredState).

Definition setupState : State := @run injectiveHash (constructor admin0) setupTrace.

Definition sharedState : State :=
  @run injectiveHash setupState [ tx orgA 13 (GrantAccess rid0 orgB) ].

Definition updatedState : State :=
  @run injectiveHash sharedState [ tx orgB 16 (UpdateRecord rid0 "H2" "ipfs://L2") ].

Definition deactivatedState : State :=
  @run injectiveHash setupState [ tx orgA 14 (DeactivateRecord rid0) ].

Definition pausedState : State :=
  @run injectiveHash sharedState [ tx admin0 15 Pause ].

(** [orgA] creates a record, deactivates it and creates a record again. *)
Definition recreateTrace : list (Env * Call) :=
  [ tx admin0 10 (RegisterOrganization orgA);
    tx orgA 12 (CreateRecord patientP "H1" "ipfs://L1");
    tx orgA 13 (DeactivateRecord 0);
    tx orgA 14 (CreateRecord patientP "H3" "ipfs://L3") ].

Definition revokedState : State :=
  @run injectiveHash sharedState [ tx orgA 20 (RevokeAccess rid0 orgB) ].

(** A third organization is registered and given access to the shared
    record, and then gives up its organization role. *)
Definition renounceTrace : list (Env * Call) :=
  [ tx admin0 14 (RegisterOrganization orgC);
    tx orgA 15 (GrantAccess rid0 orgC);
    tx orgC 16 (RenounceRole ORGANIZATION_ROLE orgC) ].

Definition renouncedState : State := @run injectiveHash sharedState renounceTrace.

Definition renouncedRevoked : State :=
  @run injectiveHash renouncedState [ tx orgA 20 (RevokeAccess rid0 orgB) ].

Definition registeredA : State :=
  @run injectiveHash (constructor admin0) [ tx admin0 10 (RegisterOrganization orgA) ].

(** A batch with a zero address and a repeated address. *)
Definition batchOrgs : list address := [orgA; 0; orgB; orgA].

Definition batchState : State :=
  @run injectiveHash (constructor admin0)
    [ tx admin0 10 (BatchRegisterOrganizations batchOrgs) ].

(** Calls made on the shared record after the setup. *)
Definition laterTrace : list (Env * Call) :=
  [ tx orgA 13 (GrantAccess rid0 orgB);
    tx orgB 16 (UpdateRecord rid0 "H2" "ipfs://L2");
    tx orgA 17 (DeactivateRecord rid0) ].

(** The same scenario on the older contract. *)
Definition committed {A} (fallback : A) (r : Result A) : A :=
  match r with Ok a => a | Reverted _ => fallback end.

Definition legacyOrgs : Legacy.State :=
  let s0 := Legacy.constructor admin0 in
  let s1 := committed s0 (Legacy.registerOrganization (envOf admin0 10) orgA s0) in
  committed s1 (Legacy.registerOrganization (envOf admin0 11) orgB s1).

Definition legacyRid : bytes32 :=
  Eval vm_compute in (@Legacy.newRecordId injectiveHash (envOf orgA 12) patientP).

Definition legacyCreated : Legacy.State :=
  snd (committed (legacyRid, legacyOrgs)
         (@Legacy.createRecord injectiveHash (envOf orgA 12) patientP "H1" "ipfs://L1"
            legacyOrgs)).

Definition legacyCreatedTwice : Legacy.State :=
  snd (committed (legacyRid, legacyCreated)
         (@Legacy.createRecord injectiveHash (envOf orgA 12) patientP "H9" "ipfs://L9"
            legacyCreated)).

Definition legacyShared : Legacy.State :=
  committed legacyCreated
    (Legacy.grantAccess (envOf orgA 13) legacyRid orgB legacyCreated).

Definition legacyRevoked : Legacy.State :=
  committed legacyShared
    (Legacy.revokeAccess (envOf orgA 14) legacyRid orgB legacyShared).

Definition legacyRegranted : Legacy.State :=
  committed legacyRevoked
    (Legacy.grantAccess (envOf orgA 15) legacyRid orgB legacyRevoked).

Definition legacyRevokedAgain : Legacy.State :=
  committed legacyRegranted
    (Legacy.revokeAccess (envOf orgA 16) legacyRid orgB legacyRegranted).

(** * Proofs *)

(** ** Grant lists *)

Lemma grantsNow_spec o g :
  grantsNow o g = true ↔ organization g = o ∧ isRevoked g = false.
Proof.
  unfold grantsNow. rewrite andb_true_iff, Z.eqb_eq, negb_true_iff. tauto.
Qed.

Lemma scanAccess_spec o l :
  scanAccess o l = true ↔ ∃ g, g ∈ l ∧ organization g = o ∧ isRevoked g = false.
Proof.
  induction l as [|g l IH]; simpl.
  - split; [done | intros (g & Hg & _); by apply elem_of_nil in Hg].
  - destruct (grantsNow o g) eqn:Hg.
    + apply grantsNow_spec in Hg. split; [| done].
      intros _. exists g. split; [left | done].
    + rewrite IH. split.
      * intros (g' & Hin & Hg'). exists g'. split; [by right | done].
      * intros (g' & Hin & Hg'). apply elem_of_cons in Hin as [-> | Hin].
        -- apply grantsNow_spec in Hg'. congruence.
        -- by exists g'.
Qed.

Lemma scanAccess_app o l1 l2 :
  scanAccess o (l1 ++ l2) = scanAccess o l1 || scanAccess o l2.
Proof.
  induction l1 as [|g l1 IH]; simpl; [done |].
  by destruct (grantsNow o g).
Qed.

Lemma scanAccess_new o o' now :
  scanAccess o [newGrant o' now] = bool_decide (o' = o).
Proof.
  simpl. unfold grantsNow. simpl. rewrite andb_true_r.
  case_bool_decide as Ho; destruct (Z.eqb_spec o' o); done.
Qed.

Lemma latestOnly_push l o now :
  latestOnly l → scanAccess o l = false → latestOnly (l ++ [newGrant o now]).
Proof.
  induction l as [|g l IH]; simpl.
  - intros _ _. split; [| done]. intros _ g' Hg'. by apply elem_of_nil in Hg'.
  - intros [Hg Hl] Hscan. destruct (grantsNow o g) eqn:Hnow; [done |].
    split; [| by apply IH].
    intros Hrev g' Hin. apply elem_of_app in Hin as [Hin | Hin]; [by apply Hg |].
    apply list_elem_of_singleton in Hin as ->. simpl. intros Heq.
    assert (grantsNow o g = true); [| congruence].
    apply grantsNow_spec. by split.
Qed.

Lemma revokeFirst_is_Some o now l :
  scanAccess o l = true → is_Some (revokeFirst o now l).
Proof.
  induction l as [|g l IH]; simpl; [done |].
  destruct (grantsNow o g); [by eexists |].
  intros Hscan. destruct (IH Hscan) as [l' ->]. by eexists.
Qed.

Lemma revokeFirst_organizations o now l l' :
  revokeFirst o now l = Some l' → organization <$> l' = organization <$> l.
Proof.
  revert l'. induction l as [|g l IH]; simpl; intros l'; [done |].
  destruct (grantsNow o g).
  - by intros [= <-].
  - destruct (revokeFirst o now l) as [l0|]; simpl; [| done].
    intros [= <-]. simpl. f_equal. by apply IH.
Qed.

Lemma revokeFirst_scan_other o now l l' o' :
  revokeFirst o now l = Some l' → o' ≠ o → scanAccess o' l' = scanAccess o' l.
Proof.
  revert l'. induction l as [|g l IH]; simpl; intros l'; [done |].
  destruct (grantsNow o g) eqn:Hnow.
  - intros [= <-] Hne. simpl. apply grantsNow_spec in Hnow as [Horg _].
    unfold grantsNow. simpl. rewrite Horg.
    destruct (Z.eqb_spec o o'); [congruence | done].
  - destruct (revokeFirst o now l) as [l0|]; simpl; [| done].
    intros [= <-] Hne. simpl. by rewrite (IH l0).
Qed.

Lemma scanAccess_none o l :
  (∀ g, g ∈ l → organization g ≠ o) → scanAccess o l = false.
Proof.
  intros Hl. apply not_true_is_false. rewrite scanAccess_spec.
  intros (g & Hin & Horg & _). by apply (Hl g).
Qed.

Lemma revokeFirst_scan o now l l' :
  latestOnly l → revokeFirst o now l = Some l' → scanAccess o l' = false.
Proof.
  revert l'. induction l as [|g l IH]; simpl; intros l'; [done |].
  intros [Hg Hl]. destruct (grantsNow o g) eqn:Hnow.
  - intros [= <-]. simpl. unfold grantsNow at 1. simpl. rewrite andb_false_r.
    apply grantsNow_spec in Hnow as [Horg Hrev].
    apply scanAccess_none. intros g' Hin. rewrite <- Horg. by apply Hg.
  - destruct (revokeFirst o now l) as [l0|]; simpl; [| done].
    intros [= <-]. simpl. rewrite Hnow. by apply IH.
Qed.

Lemma revokeFirst_latestOnly o now l l' :
  latestOnly l → revokeFirst o now l = Some l' → latestOnly l'.
Proof.
  revert l'. induction l as [|g l IH]; simpl; intros l'; [done |].
  intros [Hg Hl]. destruct (grantsNow o g) eqn:Hnow.
  - intros [= <-]. simpl. split; [done | done].
  - destruct (revokeFirst o now l) as [l0|] eqn:Hrec; simpl; [| done].
    intros [= <-]. simpl. split; [| by apply IH].
    intros Hrev g' Hin.
    apply (list_elem_of_fmap_2 organization) in Hin.
    rewrite (revokeFirst_organizations _ _ _ _ Hrec) in Hin.
    apply list_elem_of_fmap in Hin as (g0 & -> & Hin0). by apply Hg.
Qed.

Lemma latestGrant_cons o g l :
  latestGrant o (g :: l) =
    match latestGrant o l with
    | Some g' => Some g'
    | None => if decide (organization g = o) then Some g else None
    end.
Proof.
  unfold latestGrant. rewrite filter_cons.
  destruct (decide (organization g = o)); [| by destruct (last _)].
  by rewrite last_cons.
Qed.

Lemma latestGrant_None o l :
  latestGrant o l = None ↔ ∀ g, g ∈ l → organization g ≠ o.
Proof.
  unfold latestGrant. rewrite last_None. split.
  - intros Hnil g Hin Horg. by apply (filter_nil_not_elem_of _ _ g Hnil).
  - intros Hl. induction l as [|g l IH]; [done |].
    rewrite filter_cons_False.
    + apply IH. intros g' Hin. apply Hl. by right.
    + apply Hl. by left.
Qed.

Lemma latestGrant_scan o l :
  latestOnly l →
  scanAccess o l = true ↔ ∃ g, latestGrant o l = Some g ∧ isRevoked g = false.
Proof.
  induction l as [|g l IH]; simpl.
  - intros _. split; [done | by intros (g & Hg & _)].
  - intros [Hg Hl]. rewrite latestGrant_cons.
    destruct (grantsNow o g) eqn:Hnow.
    + apply grantsNow_spec in Hnow as [Horg Hrev].
      assert (latestGrant o l = None) as ->.
      { apply latestGrant_None. intros g' Hin. rewrite <- Horg. by apply Hg. }
      rewrite decide_True by done. split; [| done]. intros _. by exists g.
    + rewrite (IH Hl). destruct (latestGrant o l) as [g'|]; [done |].
      split; [by intros (g0 & ? & _) |].
      destruct (decide (organization g = o)) as [Horg|]; [| by intros (g0 & ? & _)].
      intros (g0 & [= <-] & Hrev).
      assert (grantsNow o g = true) by by apply grantsNow_spec. congruence.
Qed.

Lemma activeGrants_latestOnly o l : latestOnly l → (activeGrants o l ≤ 1)%nat.
Proof.
  unfold activeGrants. induction l as [|g l IH]; simpl; [lia |].
  intros [Hg Hl]. rewrite filter_cons. case_decide as Hhead; [| by apply IH].
  destruct Hhead as [Horg Hrev].
  assert (filter (λ g0, organization g0 = o ∧ isRevoked g0 = false) l = []) as ->.
  { apply (proj1 (last_None _)). apply eq_None_not_Some. intros [g' Hlast].
    apply last_Some_elem_of, list_elem_of_filter in Hlast as [[Ho' _] Hin].
    apply (Hg Hrev g' Hin). congruence. }
  simpl. lia.
Qed.

Lemma activeOrganizations_NoDup l : latestOnly l → NoDup (activeOrganizations l).
Proof.
  unfold activeOrganizations. induction l as [|g l IH]; simpl.
  - intros _. constructor.
  - intros [Hg Hl]. rewrite filter_cons. case_decide as Hrev; [| by apply IH].
    rewrite fmap_cons. apply NoDup_cons. split; [| by apply IH].
    intros Hin. apply list_elem_of_fmap in Hin as (g' & Horg & Hin).
    apply list_elem_of_filter in Hin as [_ Hin]. by apply (Hg Hrev g' Hin).
Qed.

Lemma activeOrganizations_latest o l :
  latestOnly l → o ∈ activeOrganizations l →
  ∃ g, latestGrant o l = Some g ∧ isRevoked g = false.
Proof.
  intros Hl Hin. apply latestGrant_scan; [done |]. apply scanAccess_spec.
  apply list_elem_of_fmap in Hin as (g & -> & Hin).
  apply list_elem_of_filter in Hin as [Hrev Hin]. by exists g.
Qed.

Lemma countActive_from n l :
  foldl (λ activeCount g,
           if negb (isRevoked g) then S activeCount else activeCount) n l
  = (n + length (activeOrganizations l))%nat.
Proof.
  unfold activeOrganizations. revert n.
  induction l as [|g l IH]; intros n; simpl; [lia |].
  rewrite IH, filter_cons. case_decide as Hrev.
  - rewrite Hrev, fmap_cons. cbn. lia.
  - apply not_false_is_true in Hrev. by rewrite Hrev.
Qed.

Lemma countActive_length l : countActive l = length (activeOrganizations l).
Proof. unfold countActive. by rewrite countActive_from. Qed.

Lemma fillActive_from l filled (k : nat) :
  (length (activeOrganizations l) ≤ k)%nat →
  foldl (λ '(organizations, index) g,
           if negb (isRevoked g)
           then (<[index := organization g]> organizations, S index)
           else (organizations, index))
        (filled ++ replicate k 0, length filled) l
  = (filled ++ activeOrganizations l
       ++ replicate (k - length (activeOrganizations l)) 0,
     (length filled + length (activeOrganizations l))%nat).
Proof.
  unfold activeOrganizations. revert filled k.
  induction l as [|g l IH]; intros filled k; simpl.
  - intros _. by rewrite Nat.sub_0_r, Nat.add_0_r.
  - rewrite filter_cons. case_decide as Hrev.
    2:{ apply not_false_is_true in Hrev. rewrite Hrev. apply IH. }
    + rewrite Hrev, fmap_cons. cbn. intros Hk.
      destruct k as [|k]; [lia |]. cbn.
      replace (<[length filled:=organization g]> (filled ++ 0 :: replicate k 0))
        with ((filled ++ [organization g]) ++ replicate k 0).
      2:{ rewrite <- (Nat.add_0_r (length filled)) at 1.
          rewrite insert_app_r. simpl. by rewrite <- app_assoc. }
      replace (S (length filled)) with (length (filled ++ [organization g])).
      2:{ rewrite length_app. simpl. lia. }
      rewrite IH by lia. rewrite <- app_assoc. simpl. f_equal.
      rewrite length_app. simpl. lia.
Qed.

Lemma getRecordAccess_active s rid :
  getRecordAccess s rid = activeOrganizations (accessOf s rid).
Proof.
  unfold getRecordAccess, fillActive. rewrite countActive_length.
  pose proof (fillActive_from (accessOf s rid) [] _ (Nat.le_refl _)) as Hfill.
  simpl in Hfill. rewrite Hfill. simpl.
  by rewrite Nat.sub_diag, app_nil_r.
Qed.

(** ** Reading storage after a write *)

Lemma default_insert `{Countable K} {V} (zero : V) (m : gmap K V) k v k' :
  default zero (<[k := v]> m !! k') =
    if decide (k = k') then v else default zero (m !! k').
Proof. rewrite lookup_insert. by case_decide. Qed.

Lemma hasRole_grantRole role account s role' account' :
  hasRole (_grantRole role account s) role' account' =
    bool_decide ((role, account) = (role', account')) || hasRole s role' account'.
Proof.
  unfold hasRole. simpl.
  apply eq_true_iff_eq.
  rewrite orb_true_iff, !bool_decide_eq_true, elem_of_union, elem_of_singleton.
  naive_solver.
Qed.

(** Inversion of a committed transaction: every guard passed, and the new
    state is the one the body builds. *)
Ltac tx_guards H :=
  repeat match type of H with
         | context [if ?c then _ else _] =>
             let Hc := fresh "Hguard" in
             destruct c eqn:Hc; simpl in H; try discriminate H
         end.

Ltac tx_inv H :=
  unfold exec, registerOrganization, batchRegisterOrganizations, createRecord,
    grantAccess, revokeAccess, updateRecord, deactivateRecord, pause, unpause,
    grantRole, revokeRole, renounceRole,
    onlyRole, whenNotPaused, whenPaused, validAddress, validString,
    recordExists, require in H;
  simpl in H; tx_guards H.

Section Proofs.

Context `{Keccak256}.

Lemma recordOf_unknown s rid :
  Ledger s → rid ∉ _allRecordIds s → recordOf s rid = zeroRecord.
Proof.
  intros HL Hrid. unfold recordOf.
  by destruct (ledger_known s HL rid Hrid) as (-> & _).
Qed.

Lemma active_known s rid :
  Ledger s → isActive (recordOf s rid) = true → rid ∈ _allRecordIds s.
Proof.
  intros HL Hact. destruct (decide (rid ∈ _allRecordIds s)) as [|Hn]; [done |].
  by rewrite (recordOf_unknown s rid HL Hn) in Hact.
Qed.

(** A transaction that leaves the grant lists, the cache and the id list
    alone keeps the ledger invariant. *)
Lemma Ledger_frame s s' :
  Ledger s →
  _allRecordIds s' = _allRecordIds s →
  _recordAccess s' = _recordAccess s →
  _hasAccessCache s' = _hasAccessCache s →
  (∀ rid, rid ∉ _allRecordIds s → _records s' !! rid = None) →
  Ledger s'.
Proof.
  intros HL Hids Hacc Hcache Hrec.
  split; unfold accessOf, cacheOf; rewrite ?Hids, ?Hacc, ?Hcache.
  - apply (ledger_ids s HL).
  - intros rid Hrid. destruct (ledger_known s HL rid Hrid) as (_ & ? & ?).
    split; [by apply Hrec | done].
  - apply (ledger_latest s HL).
  - apply (ledger_cache s HL).
Qed.

Lemma Ledger_constructor deployer : Ledger (constructor deployer).
Proof. by split. Qed.

Lemma Ledger_same_records s s' :
  Ledger s →
  _allRecordIds s' = _allRecordIds s → _recordAccess s' = _recordAccess s →
  _hasAccessCache s' = _hasAccessCache s → _records s' = _records s →
  Ledger s'.
Proof.
  intros HL Hids Hacc Hcache Hrec. apply (Ledger_frame s); try done.
  intros rid Hrid. rewrite Hrec. by destruct (ledger_known s HL rid Hrid) as (? & _).
Qed.

Lemma Ledger_addOrganization registrar org s :
  Ledger s → Ledger (addOrganization registrar org s).
Proof. intros HL. by apply (Ledger_same_records s). Qed.

Lemma Ledger_batch e orgs s :
  Ledger s → Ledger (foldl (batchStep e) s orgs).
Proof.
  revert s. induction orgs as [|org orgs IH]; intros s HL; simpl; [done |].
  apply IH. unfold batchStep.
  destruct (Z.eqb_spec org 0); simpl; [done |].
  destruct (hasRole s ORGANIZATION_ROLE org); simpl; [done |].
  by apply Ledger_addOrganization.
Qed.

Lemma Ledger_registerOrganization e org s s' :
  Ledger s → registerOrganization e org s = Ok s' → Ledger s'.
Proof.
  intros HL Hok. tx_inv Hok. injection Hok as <-.
  by apply Ledger_addOrganization.
Qed.

Lemma Ledger_batchRegisterOrganizations e orgs s s' :
  Ledger s → batchRegisterOrganizations e orgs s = Ok s' → Ledger s'.
Proof.
  intros HL Hok. tx_inv Hok. injection Hok as <-. by apply Ledger_batch.
Qed.

Lemma Ledger_updateRecord e rid dataHash location s s' :
  Ledger s → updateRecord e rid dataHash location s = Ok s' → Ledger s'.
Proof.
  intros HL Hok. tx_inv Hok. injection Hok as <-.
  apply (Ledger_frame s); try done.
  intros rid' Hrid'. simpl. rewrite lookup_insert_ne.
  - by destruct (ledger_known s HL rid' Hrid') as (? & _).
  - intros <-. apply Hrid'. by apply active_known.
Qed.

Lemma Ledger_deactivateRecord e rid s s' :
  Ledger s → deactivateRecord e rid s = Ok s' → Ledger s'.
Proof.
  intros HL Hok. tx_inv Hok. injection Hok as <-.
  apply (Ledger_frame s); try done.
  intros rid' Hrid'. simpl. rewrite lookup_insert_ne.
  - by destruct (ledger_known s HL rid' Hrid') as (? & _).
  - intros <-. apply Hrid'. by apply active_known.
Qed.

Lemma Ledger_set_paused b s : Ledger s → Ledger (set_paused b s).
Proof.
  intros HL. by apply (Ledger_same_records s).
Qed.

(** What a passed access check says about the storage. *)
Lemma _hasAccess_true s rid o :
  _hasAccess s rid o = true ↔
  isActive (recordOf s rid) = true ∧ cacheOf s rid o = true
  ∧ scanAccess o (accessOf s rid) = true.
Proof.
  unfold _hasAccess.
  destruct (isActive (recordOf s rid)), (cacheOf s rid o); simpl; naive_solver.
Qed.

Lemma _hasAccess_ledger s rid o :
  Ledger s →
  _hasAccess s rid o = isActive (recordOf s rid) && scanAccess o (accessOf s rid).
Proof.
  intros HL. unfold _hasAccess. rewrite (ledger_cache s HL).
  destruct (isActive (recordOf s rid)), (scanAccess o (accessOf s rid)); done.
Qed.

Lemma Ledger_grantAccess e rid org s s' :
  Ledger s → grantAccess e rid org s = Ok s' → Ledger s'.
Proof.
  intros HL Hok. tx_inv Hok. injection Hok as <-.
  assert (isActive (recordOf s rid) = true) as Hact by done.
  assert (hasRole s ORGANIZATION_ROLE org = true) as Hrole by done.
  assert (_hasAccess s rid org = false) as Hnew by by apply negb_true_iff.
  rewrite (_hasAccess_ledger s rid org HL), Hact in Hnew. simpl in Hnew.
  pose proof (active_known s rid HL Hact) as Hknown.
  split; unfold accessOf, cacheOf; simpl.
  - apply (ledger_ids s HL).
  - intros rid' Hrid'. assert (rid ≠ rid') by congruence.
    rewrite lookup_insert_ne by done.
    split; [by destruct (ledger_known s HL rid' Hrid') as (? & _) |].
    split.
    + by destruct (ledger_known s HL rid' Hrid') as (_ & ? & _).
    + intros o. rewrite lookup_insert_ne by congruence.
      destruct (ledger_known s HL rid' Hrid') as (_ & _ & Hc). apply Hc.
  - intros rid'. rewrite default_insert. case_decide as Hrid.
    + apply latestOnly_push; [apply (ledger_latest s HL) | exact Hnew].
    + apply (ledger_latest s HL).
  - intros rid' o. rewrite !default_insert.
    destruct (decide (rid = rid')) as [<- | Hrid].
    + rewrite scanAccess_app, scanAccess_new.
      case_decide as Hkey.
      * injection Hkey as <-. rewrite bool_decide_eq_true_2 by done.
        by rewrite orb_true_r.
      * rewrite bool_decide_eq_false_2 by congruence.
        rewrite orb_false_r. apply (ledger_cache s HL).
    + rewrite decide_False by congruence. apply (ledger_cache s HL).
Qed.

Lemma Ledger_revokeAccess e rid org s s' :
  Ledger s → revokeAccess e rid org s = Ok s' → Ledger s'.
Proof.
  intros HL Hok. tx_inv Hok.
  destruct (revokeFirst org (block_timestamp e) (accessOf s rid)) as [l'|] eqn:Hrev;
    [| done].
  injection Hok as <-.
  assert (isActive (recordOf s rid) = true) as Hact by done.
  pose proof (active_known s rid HL Hact) as Hknown.
  split; unfold accessOf, cacheOf; simpl.
  - apply (ledger_ids s HL).
  - intros rid' Hrid'. assert (rid ≠ rid') by congruence.
    rewrite lookup_insert_ne by done.
    split; [by destruct (ledger_known s HL rid' Hrid') as (? & _) |].
    split.
    + by destruct (ledger_known s HL rid' Hrid') as (_ & ? & _).
    + intros o. rewrite lookup_insert_ne by congruence.
      destruct (ledger_known s HL rid' Hrid') as (_ & _ & Hc). apply Hc.
  - intros rid'. rewrite default_insert. case_decide as Hrid.
    + apply (revokeFirst_latestOnly _ _ _ _ (ledger_latest s HL rid) Hrev).
    + apply (ledger_latest s HL).
  - intros rid' o. rewrite !default_insert.
    destruct (decide (rid = rid')) as [<- | Hrid].
    + case_decide as Hkey.
      * injection Hkey as <-. symmetry.
        apply (revokeFirst_scan _ _ _ _ (ledger_latest s HL rid) Hrev).
      * rewrite (revokeFirst_scan_other _ _ _ _ o Hrev) by congruence.
        apply (ledger_cache s HL).
    + rewrite decide_False by congruence. apply (ledger_cache s HL).
Qed.

(** *** Record creation, under the collision-freeness of the hash *)

Context `{!CollisionFree}.

Lemma newRecordId_fresh e patient s :
  Ledger s → newRecordId e patient s ∉ _allRecordIds s.
Proof.
  intros HL Hin. apply list_elem_of_lookup in Hin as [i Hi].
  pose proof (lookup_lt_Some _ _ _ Hi) as Hlt.
  destruct (ledger_ids s HL i _ Hi) as [pre Hpre].
  unfold newRecordId in Hpre. apply keccak256_inj in Hpre.
  change [patient; msg_sender e; block_timestamp e; block_prevrandao e;
          block_number e; Z.of_nat (length (_allRecordIds s))]
    with ([patient; msg_sender e; block_timestamp e; block_prevrandao e;
           block_number e] ++ [Z.of_nat (length (_allRecordIds s))]) in Hpre.
  apply app_inj_tail in Hpre as [_ Hlen]. lia.
Qed.

Lemma Ledger_createRecord e patient dataHash location s rid s' :
  Ledger s → createRecord e patient dataHash location s = Ok (rid, s') → Ledger s'.
Proof.
  intros HL Hok. pose proof (newRecordId_fresh e patient s HL) as Hfresh.
  destruct (ledger_known s HL _ Hfresh) as (Hrec & Hacc & Hcache).
  tx_inv Hok. injection Hok as <- <-.
  assert (hasRole s ORGANIZATION_ROLE (msg_sender e) = true) as Hrole by done.
  set (rid := newRecordId e patient s) in *.
  split; unfold accessOf, cacheOf in *; simpl.
  - intros i rid' Hi. apply lookup_snoc_Some in Hi as [[_ Hi] | [-> <-]].
    + by apply (ledger_ids s HL).
    + by exists [patient; msg_sender e; block_timestamp e; block_prevrandao e;
                 block_number e].
  - intros rid' Hrid'. apply not_elem_of_app in Hrid' as [Hold Hne].
    assert (rid ≠ rid') as Hne' by (intros <-; apply Hne; by left).
    rewrite !lookup_insert_ne by done.
    destruct (ledger_known s HL rid' Hold) as (? & ? & Hc).
    split; [done |]. split; [done |].
    intros o. rewrite lookup_insert_ne by congruence. apply Hc.
  - intros rid'. rewrite default_insert. case_decide as Hrid.
    + rewrite Hacc. simpl. split; [| done].
      intros _ g' Hg'. by apply elem_of_nil in Hg'.
    + apply (ledger_latest s HL).
  - intros rid' o. rewrite !default_insert.
    destruct (decide (rid = rid')) as [<- | Hrid].
    + rewrite Hacc. simpl app. rewrite scanAccess_new. case_decide as Hkey.
      * injection Hkey as <-. by rewrite bool_decide_eq_true_2.
      * rewrite bool_decide_eq_false_2 by congruence. apply Hcache.
    + rewrite decide_False by congruence. apply (ledger_cache s HL).
Qed.

Lemma Ledger_exec e c s ret s' :
  Ledger s → exec e c s = Ok (ret, s') → Ledger s'.
Proof.
  intros HL. destruct c; simpl.
  - destruct (registerOrganization e org s) eqn:Hop; simpl; [| done].
    intros [= <- <-]. by eapply Ledger_registerOrganization.
  - destruct (batchRegisterOrganizations e orgs s) eqn:Hop; simpl; [| done].
    intros [= <- <-]. by eapply Ledger_batchRegisterOrganizations.
  - destruct (createRecord e patient dataHash location s) as [[rid s1]|] eqn:Hop;
      simpl; [| done].
    intros [= <- <-]. by eapply Ledger_createRecord.
  - destruct (grantAccess e rid org s) eqn:Hop; simpl; [| done].
    intros [= <- <-]. by eapply Ledger_grantAccess.
  - destruct (revokeAccess e rid org s) eqn:Hop; simpl; [| done].
    intros [= <- <-]. by eapply Ledger_revokeAccess.
  - destruct (updateRecord e rid dataHash location s) eqn:Hop; simpl; [| done].
    intros [= <- <-]. by eapply Ledger_updateRecord.
  - destruct (deactivateRecord e rid s) eqn:Hop; simpl; [| done].
    intros [= <- <-]. by eapply Ledger_deactivateRecord.
  - destruct (pause e s) eqn:Hop; simpl; [| done].
    intros [= <- <-]. tx_inv Hop. injection Hop as <-. by apply Ledger_set_paused.
  - destruct (unpause e s) eqn:Hop; simpl; [| done].
    intros [= <- <-]. tx_inv Hop. injection Hop as <-. by apply Ledger_set_paused.
  - destruct (grantRole e role account s) eqn:Hop; simpl; [| done].
    intros [= <- <-]. tx_inv Hop. injection Hop as <-.
    by apply (Ledger_same_records s).
  - destruct (revokeRole e role account s) eqn:Hop; simpl; [| done].
    intros [= <- <-]. tx_inv Hop. injection Hop as <-.
    by apply (Ledger_same_records s).
  - destruct (renounceRole e role callerConfirmation s) eqn:Hop; simpl; [| done].
    intros [= <- <-]. tx_inv Hop. injection Hop as <-.
    by apply (Ledger_same_records s).
Qed.

Lemma Ledger_step s tx : Ledger s → Ledger (step s tx).
Proof.
  intros HL. unfold step.
  destruct (exec tx.1 tx.2 s) as [[ret s']|] eqn:Hexec; [| done].
  by eapply Ledger_exec.
Qed.

Lemma Ledger_run s trace : Ledger s → Ledger (run s trace).
Proof.
  revert s. induction trace as [|tx trace IH]; intros s HL; simpl; [done |].
  by apply IH, Ledger_step.
Qed.

Lemma Ledger_reachable s : reachable s → Ledger s.
Proof.
  induction 1 as [deployer | s tx _ IH].
  - apply Ledger_constructor.
  - by apply Ledger_step.
Qed.

Lemma reachable_run s trace : reachable s → reachable (run s trace).
Proof.
  revert s. induction trace as [|tx trace IH]; intros s Hs; simpl; [done |].
  by apply IH, reachable_call.
Qed.

(** ** The access check *)

(** C1: in every reachable state, [hasAccess] is false for a record that was
    never stored and for an inactive record; for an active record it is true
    exactly when the most recent grant entry of the organization exists and
    is not revoked. *)
Theorem hasAccess_latest_grant s rid o :
  reachable s →
  (_records s !! rid = None → hasAccess s rid o = false)
  ∧ (isActive (getRecord s rid) = false → hasAccess s rid o = false)
  ∧ (isActive (getRecord s rid) = true →
       hasAccess s rid o = true ↔
       ∃ g, latestGrant o (accessOf s rid) = Some g ∧ isRevoked g = false).
Proof.
  intros Hs. pose proof (Ledger_reachable s Hs) as HL.
  unfold hasAccess, getRecord. rewrite (_hasAccess_ledger s rid o HL).
  split; [| split].
  - intros Hnone. unfold recordOf. by rewrite Hnone.
  - by intros ->.
  - intros ->. simpl. apply latestGrant_scan, (ledger_latest s HL).
Qed.

(** C10: in every reachable state the cached check [_hasAccess] and the
    cache-free check of the older contract return the same boolean, and the
    cache entry of a pair is true exactly when the grant list holds an entry
    of the organization that is not revoked. *)
Theorem cache_agrees_with_grants s :
  reachable s →
  ∀ rid o,
    _hasAccess s rid o = hasAccess_uncached s rid o
    ∧ cacheOf s rid o = scanAccess o (accessOf s rid).
Proof.
  intros Hs rid o. pose proof (Ledger_reachable s Hs) as HL.
  split; [| apply (ledger_cache s HL)].
  rewrite (_hasAccess_ledger s rid o HL). unfold hasAccess_uncached.
  by destruct (isActive (recordOf s rid)).
Qed.

(** C2: in every reachable state each (record, organization) pair has at
    most one grant entry that is not revoked; [getRecordAccess] lists no
    organization twice, and the latest entry of every listed organization is
    not revoked. *)
Theorem single_active_grant s :
  reachable s →
  ∀ rid,
    (∀ o, (activeGrants o (accessOf s rid) ≤ 1)%nat)
    ∧ NoDup (getRecordAccess s rid)
    ∧ (∀ o, o ∈ getRecordAccess s rid →
         ∃ g, latestGrant o (accessOf s rid) = Some g ∧ isRevoked g = false).
Proof.
  intros Hs rid. pose proof (ledger_latest s (Ledger_reachable s Hs) rid) as Hl.
  rewrite getRecordAccess_active. split; [| split].
  - intros o. by apply activeGrants_latestOnly.
  - by apply activeOrganizations_NoDup.
  - intros o. by apply activeOrganizations_latest.
Qed.

End Proofs.

(** ** Record creation and update *)

(** C7: after a successful [createRecord] the creator has access to the
    record that was returned. *)
Theorem createRecord_grants_creator `{Keccak256} e patient dataHash location s rid s' :
  createRecord e patient dataHash location s = Ok (rid, s') →
  hasAccess s' rid (msg_sender e) = true.
Proof.
  intros Hok. tx_inv Hok. injection Hok as <- <-.
  apply _hasAccess_true. unfold recordOf, cacheOf, accessOf. simpl.
  rewrite !lookup_insert_eq. simpl. split; [done |]. split; [done |].
  rewrite scanAccess_app, scanAccess_new, bool_decide_eq_true_2 by done.
  apply orb_true_r.
Qed.

(** C9: a successful [updateRecord] replaces the data hash, the data
    location and the last-update time of the record and nothing else: the
    other fields of the record, every other record, the grant lists, the
    cache and every index are unchanged (one [RecordUpdated] event is
    logged). *)
Theorem updateRecord_frame e rid dataHash location s s' :
  updateRecord e rid dataHash location s = Ok s' →
  encryptedDataHash (getRecord s' rid) = dataHash
  ∧ dataLocation (getRecord s' rid) = location
  ∧ lastUpdated (getRecord s' rid) = block_timestamp e
  ∧ recordId (getRecord s' rid) = recordId (getRecord s rid)
  ∧ patientAddress (getRecord s' rid) = patientAddress (getRecord s rid)
  ∧ createdBy (getRecord s' rid) = createdBy (getRecord s rid)
  ∧ timestamp (getRecord s' rid) = timestamp (getRecord s rid)
  ∧ isActive (getRecord s' rid) = isActive (getRecord s rid)
  ∧ (∀ rid', rid' ≠ rid → _records s' !! rid' = _records s !! rid')
  ∧ _recordAccess s' = _recordAccess s
  ∧ _hasAccessCache s' = _hasAccessCache s
  ∧ _patientRecords s' = _patientRecords s
  ∧ _organizationRecords s' = _organizationRecords s
  ∧ _allRecordIds s' = _allRecordIds s
  ∧ _registeredOrganizations s' = _registeredOrganizations s
  ∧ _roles s' = _roles s
  ∧ _paused s' = _paused s
  ∧ _events s' = _events s ++
      [RecordUpdated rid (msg_sender e) (block_timestamp e) dataHash location].
Proof.
  intros Hok. tx_inv Hok. injection Hok as <-.
  unfold getRecord, recordOf. simpl. rewrite lookup_insert_eq. simpl.
  repeat split; try done.
  intros rid' Hne. by rewrite lookup_insert_ne.
Qed.

(** ** Effects of a committed call on the record store *)

Lemma batch_records e orgs s :
  let s' := foldl (batchStep e) s orgs in
  _records s' = _records s ∧ _allRecordIds s' = _allRecordIds s
  ∧ _patientRecords s' = _patientRecords s ∧ _paused s' = _paused s.
Proof.
  revert s. induction orgs as [|org orgs IH]; intros s; simpl; [done |].
  destruct (IH (batchStep e s org)) as (-> & -> & -> & ->).
  unfold batchStep. by destruct (_ && _).
Qed.

Section Records.

Context `{Keccak256}.

Lemma exec_created e c s rid s' :
  exec e c s = Ok (Some rid, s') → ∃ patient, rid = newRecordId e patient s.
Proof.
  destruct c; simpl; intros Hexec;
    try (destruct (_ : Result State); simpl in Hexec; discriminate Hexec).
  destruct (createRecord e patient dataHash location s) as [[r s1]|] eqn:Hop;
    simpl in Hexec; [| done].
  injection Hexec as <- <-. tx_inv Hop. injection Hop as <- _. by exists patient.
Qed.

Lemma exec_allRecordIds e c s ret s' :
  exec e c s = Ok (ret, s') → _allRecordIds s' = _allRecordIds s ++ option_list ret.
Proof.
  intros Hexec. destruct c; tx_inv Hexec.
  - injection Hexec as <- <-. simpl. by rewrite app_nil_r.
  - injection Hexec as <- <-. simpl. rewrite app_nil_r.
    by destruct (batch_records e orgs s) as (_ & -> & _).
  - by injection Hexec as <- <-.
  - injection Hexec as <- <-. simpl. by rewrite app_nil_r.
  - destruct (revokeFirst _ _ _); simpl in Hexec; [| done].
    injection Hexec as <- <-. simpl. by rewrite app_nil_r.
  - injection Hexec as <- <-. simpl. by rewrite app_nil_r.
  - injection Hexec as <- <-. simpl. by rewrite app_nil_r.
  - injection Hexec as <- <-. simpl. by rewrite app_nil_r.
  - injection Hexec as <- <-. simpl. by rewrite app_nil_r.
  - injection Hexec as <- <-. simpl. by rewrite app_nil_r.
  - injection Hexec as <- <-. simpl. by rewrite app_nil_r.
  - injection Hexec as <- <-. simpl. by rewrite app_nil_r.
Qed.

Lemma active_stored s rid :
  isActive (recordOf s rid) = true → _records s !! rid = Some (recordOf s rid).
Proof. unfold recordOf. by destruct (_records s !! rid). Qed.

Lemma Indexed_exec e c s ret s' :
  Indexed s → exec e c s = Ok (ret, s') → Indexed s'.
Proof.
  intros HI Hexec. destruct c; tx_inv Hexec.
  - injection Hexec as <- <-. exact HI.
  - injection Hexec as <- <-. unfold Indexed, patientIndex.
    by destruct (batch_records e orgs s) as (-> & -> & -> & _).
  - injection Hexec as <- <-. intros rid r. unfold patientIndex. simpl.
    rewrite lookup_insert. case_decide as Hrid.
    + intros [= <-]. simpl. rewrite lookup_insert_eq. simpl.
      split; apply elem_of_app; right; rewrite <- Hrid; by left.
    + intros Hr. destruct (HI rid r Hr) as [Hp Hall].
      split; [| apply elem_of_app; by left].
      rewrite default_insert. case_decide as Hpat; [| done].
      apply elem_of_app. left. by rewrite Hpat.
  - injection Hexec as <- <-. exact HI.
  - destruct (revokeFirst _ _ _); simpl in Hexec; [| done].
    injection Hexec as <- <-. exact HI.
  - injection Hexec as <- <-. intros rid' r. unfold patientIndex. simpl.
    rewrite lookup_insert. case_decide as Hrid; [| apply HI].
    intros [= <-]. simpl. subst rid'.
    apply (HI rid (recordOf s rid)), active_stored. done.
  - injection Hexec as <- <-. intros rid' r. unfold patientIndex. simpl.
    rewrite lookup_insert. case_decide as Hrid; [| apply HI].
    intros [= <-]. simpl. subst rid'.
    apply (HI rid (recordOf s rid)), active_stored. done.
  - injection Hexec as <- <-. exact HI.
  - injection Hexec as <- <-. exact HI.
  - injection Hexec as <- <-. exact HI.
  - injection Hexec as <- <-. exact HI.
  - injection Hexec as <- <-. exact HI.
Qed.

Lemma Indexed_reachable s : reachable s → Indexed s.
Proof.
  induction 1 as [deployer | s tx _ IH].
  - intros rid r. simpl. by rewrite lookup_empty.
  - unfold step. destruct (exec tx.1 tx.2 s) as [[ret s']|] eqn:Hexec; [| done].
    by eapply Indexed_exec.
Qed.

Lemma _hasAccess_inactive s rid o :
  isActive (recordOf s rid) = false → _hasAccess s rid o = false.
Proof. unfold _hasAccess. by intros ->. Qed.

(** C4 (as amended): a record whose activity flag is false is still
    returned by [getRecord], is refused by [hasAccess] for every
    organization, and stays listed by [getPatientRecords] and counted by
    [getPatientRecordCount] and [getTotalRecordCount]. *)
Theorem inactive_record_reads s rid r :
  reachable s → _records s !! rid = Some r → isActive r = false →
  getRecord s rid = r
  ∧ (∀ o, hasAccess s rid o = false)
  ∧ rid ∈ getPatientRecords s (patientAddress r)
  ∧ 1 ≤ getPatientRecordCount s (patientAddress r)
  ∧ rid ∈ _allRecordIds s
  ∧ 1 ≤ getTotalRecordCount s.
Proof.
  intros Hs Hr Hinactive.
  destruct (Indexed_reachable s Hs rid r Hr) as [Hp Hall].
  assert (getRecord s rid = r) as Hget.
  { unfold getRecord, recordOf. by rewrite Hr. }
  split; [done |]. split.
  { intros o. apply _hasAccess_inactive. unfold getRecord in Hget. by rewrite Hget. }
  unfold getPatientRecords, getPatientRecordCount, getTotalRecordCount.
  split; [done |]. split; [| split; [done |]].
  - destruct (patientIndex s (patientAddress r)); [by apply elem_of_nil in Hp |].
    simpl. lia.
  - destruct (_allRecordIds s); [by apply elem_of_nil in Hall |]. simpl. lia.
Qed.

End Records.

(** ** Record ids over the lifetime of the contract *)

Section Lifetime.

Context `{Keccak256, !CollisionFree}.

Lemma createdIds_fresh s trace :
  Ledger s →
  NoDup (createdIds s trace)
  ∧ ∀ rid, rid ∈ createdIds s trace → rid ∉ _allRecordIds s.
Proof.
  revert s. induction trace as [|[e c] trace IH]; intros s HL; simpl.
  - split; [constructor | intros rid Hin; by apply elem_of_nil in Hin].
  - destruct (exec e c s) as [[ret s']|] eqn:Hexec; [| by apply IH].
    pose proof (exec_allRecordIds e c s ret s' Hexec) as Hids.
    destruct (IH s' (Ledger_exec e c s ret s' HL Hexec)) as [Hnodup Hnew].
    destruct ret as [rid|]; simpl in Hids.
    + destruct (exec_created e c s rid s' Hexec) as [patient ->].
      split.
      * apply NoDup_cons. split; [| done].
        intros Hin. apply (Hnew _ Hin). rewrite Hids. apply elem_of_app.
        right. by left.
      * intros rid' [-> | Hin]%elem_of_cons.
        -- by apply newRecordId_fresh.
        -- intros Hold. apply (Hnew _ Hin). rewrite Hids.
           apply elem_of_app. by left.
    + rewrite app_nil_r in Hids. by rewrite <- Hids.
Qed.

(** C5: the record ids returned by the successful [createRecord] calls of
    any execution that starts at deployment are pairwise different, whatever
    the timestamps of the calls and whatever was deactivated in between. *)
Theorem createRecord_ids_unique deployer trace :
  NoDup (createdIds (constructor deployer) trace).
Proof. apply createdIds_fresh, Ledger_constructor. Qed.

(** *** Deactivation is final *)

Lemma inactive_exec e c s ret s' rid :
  Ledger s → rid ∈ _allRecordIds s → isActive (recordOf s rid) = false →
  exec e c s = Ok (ret, s') → isActive (recordOf s' rid) = false.
Proof.
  intros HL Hrid Hinactive Hexec.
  pose proof (newRecordId_fresh e) as Hfresh.
  destruct c; tx_inv Hexec.
  - by injection Hexec as <- <-.
  - injection Hexec as <- <-. unfold recordOf.
    by destruct (batch_records e orgs s) as (-> & _).
  - injection Hexec as <- <-. unfold recordOf. simpl.
    rewrite lookup_insert_ne; [done |].
    intros Heq. apply (Hfresh patient s HL). by rewrite Heq.
  - by injection Hexec as <- <-.
  - destruct (revokeFirst _ _ _); simpl in Hexec; [| done].
    by injection Hexec as <- <-.
  - injection Hexec as <- <-. unfold recordOf. simpl.
    rewrite lookup_insert_ne; [done |]. intros ->. congruence.
  - injection Hexec as <- <-. unfold recordOf. simpl.
    rewrite lookup_insert_ne; [done |]. intros ->. congruence.
  - by injection Hexec as <- <-.
  - by injection Hexec as <- <-.
  - by injection Hexec as <- <-.
  - by injection Hexec as <- <-.
  - by injection Hexec as <- <-.
Qed.

Lemma inactive_run s trace rid :
  Ledger s → rid ∈ _allRecordIds s → isActive (recordOf s rid) = false →
  isActive (recordOf (run s trace) rid) = false.
Proof.
  revert s. induction trace as [|[e c] trace IH]; intros s HL Hrid Hinactive;
    simpl; [done |].
  unfold step. simpl.
  destruct (exec e c s) as [[ret s']|] eqn:Hexec; [| by apply IH].
  apply IH.
  - by eapply Ledger_exec.
  - rewrite (exec_allRecordIds e c s ret s' Hexec). apply elem_of_app. by left.
  - by eapply inactive_exec.
Qed.

Lemma deactivateRecord_inactive e rid s :
  isActive (recordOf s rid) = false →
  deactivateRecord e rid s =
    if _paused s then Reverted EnforcedPause
    else Reverted (Require "HealthcareDB: Record does not exist or is inactive").
Proof.
  intros Hinactive. unfold deactivateRecord, whenNotPaused, recordExists.
  rewrite Hinactive. by destruct (_paused s).
Qed.

(** C6: after a successful [deactivateRecord], a second call on the same
    record is rejected with the not-found reason, and in every later state
    [hasAccess] is false for every organization and [deactivateRecord] never
    succeeds again on the record (it is rejected with the not-found reason
    whenever the contract is not paused). *)
Theorem deactivateRecord_final s e rid s' :
  reachable s → deactivateRecord e rid s = Ok s' →
  (∀ e2, deactivateRecord e2 rid s' =
           Reverted (Require "HealthcareDB: Record does not exist or is inactive"))
  ∧ ∀ trace,
      (∀ o, hasAccess (run s' trace) rid o = false)
      ∧ ∀ e2, deactivateRecord e2 rid (run s' trace) =
          if _paused (run s' trace) then Reverted EnforcedPause
          else Reverted (Require "HealthcareDB: Record does not exist or is inactive").
Proof.
  intros Hs Hok. pose proof (Ledger_reachable s Hs) as HL.
  pose proof (Ledger_deactivateRecord e rid s s' HL Hok) as HL'.
  assert (rid ∈ _allRecordIds s' ∧ isActive (recordOf s' rid) = false
          ∧ _paused s' = false) as (Hrid & Hinactive & Hrunning).
  { tx_inv Hok. injection Hok as <-. unfold recordOf. simpl.
    rewrite lookup_insert_eq. split; [| done]. by apply active_known. }
  split.
  - intros e2. rewrite (deactivateRecord_inactive e2 rid s' Hinactive).
    by rewrite Hrunning.
  - intros trace.
    pose proof (inactive_run s' trace rid HL' Hrid Hinactive) as Hlater.
    split.
    + intros o. by apply _hasAccess_inactive.
    + intros e2. by apply deactivateRecord_inactive.
Qed.

End Lifetime.

(** ** Revoking and granting again *)

Section Regrant.

Context `{Keccak256}.

Lemma revokeAccess_succeeds e rid org s :
  _paused s = false → hasRole s ORGANIZATION_ROLE (msg_sender e) = true →
  org ≠ 0 →
  _hasAccess s rid (msg_sender e) = true → _hasAccess s rid org = true →
  msg_sender e ≠ org →
  ∃ s', revokeAccess e rid org s = Ok s'.
Proof.
  intros Hrunning Hrole Hnz Hcaller Horg Hne.
  pose proof Horg as Hfacts. apply _hasAccess_true in Hfacts as (Hact & _ & Hscan).
  destruct (revokeFirst_is_Some org (block_timestamp e) _ Hscan) as [l' Hl'].
  unfold revokeAccess, onlyRole, whenNotPaused, recordExists, validAddress, require.
  rewrite Hrole, Hrunning, Hact, Hcaller, Horg, Hl'. simpl.
  destruct (Z.eqb_spec org 0); [done |]. simpl.
  destruct (Z.eqb_spec org (msg_sender e)); [congruence |]. simpl.
  by eexists.
Qed.

Lemma revokeAccess_effect e rid org s s' :
  revokeAccess e rid org s = Ok s' →
  _hasAccess s' rid org = false ∧ _paused s' = false.
Proof.
  intros Hok. tx_inv Hok.
  destruct (revokeFirst _ _ _); simpl in Hok; [| done].
  injection Hok as <-.
  split; [| done].
  unfold _hasAccess, cacheOf. simpl. rewrite lookup_insert_eq. simpl.
  by destruct (isActive _).
Qed.

Lemma grantAccess_succeeds e rid org s :
  _paused s = false →
  hasRole s ORGANIZATION_ROLE (msg_sender e) = true →
  hasRole s ORGANIZATION_ROLE org = true → org ≠ 0 →
  _hasAccess s rid (msg_sender e) = true → _hasAccess s rid org = false →
  ∃ s', grantAccess e rid org s = Ok s'.
Proof.
  intros Hrunning Hcrole Hrole Hnz Hcaller Hnone.
  pose proof Hcaller as Hfacts. apply _hasAccess_true in Hfacts as (Hact & _ & _).
  unfold grantAccess, onlyRole, whenNotPaused, recordExists, validAddress, require.
  rewrite Hcrole, Hrunning, Hact, Hrole, Hcaller, Hnone. simpl.
  destruct (Z.eqb_spec org 0); [done |]. simpl.
  by eexists.
Qed.

Lemma grantAccess_effect e rid org s s' :
  grantAccess e rid org s = Ok s' →
  _hasAccess s' rid org = true
  ∧ hasRole s ORGANIZATION_ROLE (msg_sender e) = true
  ∧ hasRole s ORGANIZATION_ROLE org = true.
Proof.
  intros Hok. tx_inv Hok. injection Hok as <-.
  split; [| done].
  apply _hasAccess_true. unfold recordOf, cacheOf, accessOf in *. simpl.
  rewrite !lookup_insert_eq. simpl. split; [done |]. split; [done |].
  rewrite scanAccess_app, scanAccess_new, bool_decide_eq_true_2 by done.
  apply orb_true_r.
Qed.

(** C3 (as amended): in a state where [org] has access to the active record
    [rid] and the caller, another account with access, calls
    [revokeAccess]: the call commits whenever the contract is not paused,
    the caller holds the organization role and [org] is not the zero
    address; once it has committed, [hasAccess] is false for [org], and a
    following [grantAccess] for [org] by a caller with access commits exactly
    when that caller and [org] hold the organization role, and then makes
    [hasAccess] true for [org] again.  No property of reachable states is
    used: the statement holds in every state. *)
Theorem revoke_then_regrant s e rid org :
  isActive (getRecord s rid) = true →
  hasAccess s rid org = true →
  hasAccess s rid (msg_sender e) = true →
  msg_sender e ≠ org →
  (_paused s = false → hasRole s ORGANIZATION_ROLE (msg_sender e) = true →
   org ≠ 0 → ∃ s', revokeAccess e rid org s = Ok s')
  ∧ ∀ s', revokeAccess e rid org s = Ok s' →
      hasAccess s' rid org = false
      ∧ ∀ e2, hasAccess s' rid (msg_sender e2) = true →
          ((∃ s'', grantAccess e2 rid org s' = Ok s'')
           ↔ hasRole s' ORGANIZATION_ROLE (msg_sender e2) = true
             ∧ hasRole s' ORGANIZATION_ROLE org = true)
          ∧ ∀ s'', grantAccess e2 rid org s' = Ok s'' →
              hasAccess s'' rid org = true.
Proof.
  intros _ Horg Hcaller Hne. unfold hasAccess in *. split.
  - intros Hrunning Hrole Hnz. by apply revokeAccess_succeeds.
  - intros s' Hok.
    destruct (revokeAccess_effect e rid org s s' Hok) as (Hnone & Hrunning).
    assert (org ≠ 0) as Hnz.
    { intros ->. by tx_inv Hok. }
    split; [done |]. intros e2 Hcaller2. split; [split |].
    + intros [s'' Hgrant].
      by destruct (grantAccess_effect e2 rid org s' s'' Hgrant) as (_ & ? & ?).
    + intros [Hcrole Hrole]. by apply grantAccess_succeeds.
    + intros s'' Hgrant.
      by destruct (grantAccess_effect e2 rid org s' s'' Hgrant) as (? & _).
Qed.

End Regrant.

(** ** The pause switch *)

Section PauseSwitch.

Context `{Keccak256}.

Lemma paused_write e c s :
  _paused s = true → isWrite c = true →
  exec e c s =
    match beforePauseGate e c s with
    | Ok _ => Reverted EnforcedPause
    | Reverted r => Reverted r
    end.
Proof.
  intros Hpaused Hwrite. destruct c; try discriminate Hwrite;
    unfold exec, beforePauseGate, registerOrganization,
      batchRegisterOrganizations, createRecord, grantAccess, revokeAccess,
      updateRecord, deactivateRecord, onlyRole, whenNotPaused, validAddress,
      require; rewrite Hpaused; simpl;
    repeat match goal with
           | |- context [if ?b then _ else _] => destruct b; simpl
           end; done.
Qed.

Lemma exec_toggle e c s ret s' :
  exec e c s = Ok (ret, s') → _paused s' ≠ _paused s →
  hasRole s ADMIN_ROLE (msg_sender e) = true ∧ (c = Pause ∨ c = Unpause).
Proof.
  intros Hexec Hflip. destruct c; tx_inv Hexec;
    try (destruct (revokeFirst _ _ _); simpl in Hexec; [| done]);
    injection Hexec as <- <-; simpl in Hflip; try done.
  - destruct (batch_records e orgs s) as (_ & _ & _ & Hsame). by rewrite Hsame in Hflip.
  - split; [done | by left].
  - split; [done | by right].
Qed.

(** C8 (as amended): while the contract is paused every write is rejected
    and leaves the state as it was; the rejection is the pause error exactly
    when the checks written before the pause gate pass, and the error of the
    first such check that fails otherwise.  The view functions do not read the
    pause flag, and a call that flips the flag is [pause] or [unpause] sent by
    an account holding the admin role. *)
Theorem paused_rejects_writes s :
  _paused s = true →
  (∀ e c, isWrite c = true →
     step s (e, c) = s
     ∧ exec e c s =
         match beforePauseGate e c s with
         | Ok _ => Reverted EnforcedPause
         | Reverted r => Reverted r
         end)
  ∧ (∀ b rid o patient,
       getRecord (set_paused b s) rid = getRecord s rid
       ∧ hasAccess (set_paused b s) rid o = hasAccess s rid o
       ∧ getRecordAccess (set_paused b s) rid = getRecordAccess s rid
       ∧ getPatientRecords (set_paused b s) patient = getPatientRecords s patient
       ∧ getOrganizationRecords (set_paused b s) o = getOrganizationRecords s o
       ∧ getPatientRecordCount (set_paused b s) patient = getPatientRecordCount s patient
       ∧ getTotalRecordCount (set_paused b s) = getTotalRecordCount s
       ∧ getOrganizationCount (set_paused b s) = getOrganizationCount s
       ∧ getAllOrganizations (set_paused b s) = getAllOrganizations s)
  ∧ (∀ s0 e c ret s', exec e c s0 = Ok (ret, s') → _paused s' ≠ _paused s0 →
       hasRole s0 ADMIN_ROLE (msg_sender e) = true ∧ (c = Pause ∨ c = Unpause)).
Proof.
  intros Hpaused. split; [| split].
  - intros e c Hwrite. pose proof (paused_write e c s Hpaused Hwrite) as Hexec.
    split; [| done]. unfold step. simpl. rewrite Hexec.
    by destruct (beforePauseGate e c s).
  - done.
  - intros s0 e c ret s'. apply exec_toggle.
Qed.

End PauseSwitch.

(** * The contract on explicit transactions *)

#[local] Existing Instance injectiveHash.

Lemma injectiveHash_collision_free : @CollisionFree injectiveHash.
Proof.
  intros x y Heq. unfold keccak256, injectiveHash in Heq.
  injection Heq as Heq. by apply (inj encode).
Qed.

Lemma reachable_registeredState : reachable registeredState.
Proof. apply reachable_run, reachable_deploy. Qed.

Lemma reachable_setupState : reachable setupState.
Proof. apply reachable_run, reachable_deploy. Qed.

Lemma reachable_sharedState : reachable sharedState.
Proof. apply reachable_run, reachable_setupState. Qed.

Lemma reachable_deactivatedState : reachable deactivatedState.
Proof. apply reachable_run, reachable_setupState. Qed.

Lemma reachable_pausedState : reachable pausedState.
Proof. apply reachable_run, reachable_sharedState. Qed.

(** C1 at the state where [orgA] has created [rid0]: the record is active
    and the creator's latest grant decides. *)
Lemma hasAccess_latest_grant_witness :
  reachable setupState
  ∧ (isActive (getRecord setupState rid0) = true →
     hasAccess setupState rid0 orgA = true ↔
     ∃ g, latestGrant orgA (accessOf setupState rid0) = Some g ∧ isRevoked g = false).
Proof.
  split; [apply reachable_setupState |].
  apply (@hasAccess_latest_grant injectiveHash injectiveHash_collision_free
           setupState rid0 orgA reachable_setupState).
Defined.

(** C2 at the state where [orgA] has shared [rid0] with [orgB]. *)
Lemma single_active_grant_witness :
  reachable sharedState
  ∧ getRecordAccess sharedState rid0 = [orgA; orgB]
  ∧ NoDup (getRecordAccess sharedState rid0).
Proof.
  split; [apply reachable_sharedState |]. split; [by vm_compute |].
  apply (@single_active_grant injectiveHash injectiveHash_collision_free
           sharedState reachable_sharedState rid0).
Defined.

(** C3, the claim as first stated fails: [orgC] has access to the record
    but gave up its organization role; after [orgA] has revoked the access of
    the registered organization [orgB], the grant sent by [orgC] is
    rejected. *)
Lemma regrant_needs_caller_role :
  reachable renouncedState
  ∧ isActive (getRecord renouncedState rid0) = true
  ∧ hasAccess renouncedState rid0 orgB = true
  ∧ hasAccess renouncedState rid0 (msg_sender (envOf orgA 20)) = true
  ∧ msg_sender (envOf orgA 20) ≠ orgB
  ∧ revokeAccess (envOf orgA 20) rid0 orgB renouncedState = Ok renouncedRevoked
  ∧ hasAccess renouncedRevoked rid0 orgB = false
  ∧ hasAccess renouncedRevoked rid0 (msg_sender (envOf orgC 21)) = true
  ∧ hasRole renouncedRevoked ORGANIZATION_ROLE orgB = true
  ∧ orgB ∈ getAllOrganizations renouncedRevoked
  ∧ grantAccess (envOf orgC 21) rid0 orgB renouncedRevoked
    = Reverted (AccessControlUnauthorizedAccount orgC ORGANIZATION_ROLE).
Proof.
  split; [apply reachable_run, reachable_sharedState |].
  split; [by vm_compute |]. split; [by vm_compute |]. split; [by vm_compute |].
  split; [by vm_compute |]. split; [by vm_compute |]. split; [by vm_compute |].
  split; [by vm_compute |]. split; [by vm_compute |].
  split; [| by vm_compute].
  replace (getAllOrganizations renouncedRevoked) with [orgA; orgB; orgC]
    by by vm_compute.
  set_solver.
Qed.

(** C3: [orgA] revokes [orgB] and grants it access again. *)
Lemma revoke_then_regrant_witness :
  isActive (getRecord sharedState rid0) = true
  ∧ hasAccess sharedState rid0 orgB = true
  ∧ hasAccess sharedState rid0 (msg_sender (envOf orgA 20)) = true
  ∧ msg_sender (envOf orgA 20) ≠ orgB
  ∧ _paused sharedState = false
  ∧ hasRole sharedState ORGANIZATION_ROLE (msg_sender (envOf orgA 20)) = true
  ∧ orgB ≠ 0
  ∧ (∃ s', revokeAccess (envOf orgA 20) rid0 orgB sharedState = Ok s')
  ∧ ∀ s', revokeAccess (envOf orgA 20) rid0 orgB sharedState = Ok s' →
      hasAccess s' rid0 orgB = false
      ∧ ∀ e2, hasAccess s' rid0 (msg_sender e2) = true →
          ((∃ s'', grantAccess e2 rid0 orgB s' = Ok s'')
           ↔ hasRole s' ORGANIZATION_ROLE (msg_sender e2) = true
             ∧ hasRole s' ORGANIZATION_ROLE orgB = true)
          ∧ ∀ s'', grantAccess e2 rid0 orgB s' = Ok s'' →
              hasAccess s'' rid0 orgB = true.
Proof.
  assert (isActive (getRecord sharedState rid0) = true) as Hact by by vm_compute.
  assert (hasAccess sharedState rid0 orgB = true) as Horg by by vm_compute.
  assert (hasAccess sharedState rid0 (msg_sender (envOf orgA 20)) = true)
    as Hcaller by by vm_compute.
  assert (msg_sender (envOf orgA 20) ≠ orgB) as Hne by by vm_compute.
  assert (_paused sharedState = false) as Hrunning by by vm_compute.
  assert (hasRole sharedState ORGANIZATION_ROLE (msg_sender (envOf orgA 20)) = true)
    as Hrole by by vm_compute.
  assert (orgB ≠ 0) as Hnz by by vm_compute.
  destruct (revoke_then_regrant sharedState (envOf orgA 20) rid0 orgB
              Hact Horg Hcaller Hne) as [Hcommit Hafter].
  repeat (split; [assumption |]).
  split; [by apply Hcommit | exact Hafter].
Defined.

(** C4, the claim as first stated fails: [rid0] was deactivated and is
    still listed for its patient and its creator and counted twice over. *)
Lemma inactive_record_still_listed :
  reachable deactivatedState
  ∧ isActive (getRecord deactivatedState rid0) = false
  ∧ getPatientRecords deactivatedState patientP = [rid0]
  ∧ getPatientRecordCount deactivatedState patientP = 1
  ∧ getOrganizationRecords deactivatedState orgA = [rid0]
  ∧ getTotalRecordCount deactivatedState = 1.
Proof. split; [apply reachable_deactivatedState | by vm_compute]. Qed.

(** C4 as amended, at the same state. *)
Lemma inactive_record_reads_witness :
  reachable deactivatedState
  ∧ _records deactivatedState !! rid0 = Some (recordOf deactivatedState rid0)
  ∧ isActive (recordOf deactivatedState rid0) = false
  ∧ getRecord deactivatedState rid0 = recordOf deactivatedState rid0
  ∧ (∀ o, hasAccess deactivatedState rid0 o = false)
  ∧ rid0 ∈ getPatientRecords deactivatedState
             (patientAddress (recordOf deactivatedState rid0))
  ∧ 1 ≤ getPatientRecordCount deactivatedState
          (patientAddress (recordOf deactivatedState rid0))
  ∧ rid0 ∈ _allRecordIds deactivatedState
  ∧ 1 ≤ getTotalRecordCount deactivatedState.
Proof.
  split; [apply reachable_deactivatedState |].
  split; [by vm_compute |]. split; [by vm_compute |].
  apply (inactive_record_reads deactivatedState rid0
           (recordOf deactivatedState rid0) reachable_deactivatedState).
  - by vm_compute.
  - by vm_compute.
Defined.

(** C5: two creations with identical arguments and block data. *)
Lemma createRecord_ids_unique_witness :
  length (createdIds (constructor admin0) collidingTrace) = 2%nat
  ∧ NoDup (createdIds (constructor admin0) collidingTrace).
Proof.
  split; [by vm_compute |].
  apply (@createRecord_ids_unique injectiveHash injectiveHash_collision_free).
Defined.

(** C6: [orgA] deactivates its record. *)
Lemma deactivateRecord_final_witness :
  reachable setupState
  ∧ deactivateRecord (envOf orgA 14) rid0 setupState = Ok deactivatedState
  ∧ ∀ e2, deactivateRecord e2 rid0 deactivatedState =
      Reverted (Require "HealthcareDB: Record does not exist or is inactive").
Proof.
  split; [apply reachable_setupState |]. split; [by vm_compute |].
  apply (@deactivateRecord_final injectiveHash injectiveHash_collision_free
           setupState (envOf orgA 14) rid0 deactivatedState reachable_setupState).
  by vm_compute.
Defined.

(** C7: the creation of [rid0]. *)
Lemma createRecord_grants_creator_witness :
  createRecord (envOf orgA 12) patientP "H1" "ipfs://L1" registeredState
    = Ok (rid0, setupState)
  ∧ hasAccess setupState rid0 (msg_sender (envOf orgA 12)) = true.
Proof.
  assert (createRecord (envOf orgA 12) patientP "H1" "ipfs://L1" registeredState
          = Ok (rid0, setupState)) as Hok by by vm_compute.
  split; [exact Hok |].
  exact (createRecord_grants_creator (envOf orgA 12) patientP "H1" "ipfs://L1"
           registeredState rid0 setupState Hok).
Defined.

(** C8, the claim as first stated fails: in the paused state a caller
    without the required role is turned away by the role check, and a zero
    address by the address check, before the pause gate is reached. *)
Lemma paused_rejection_is_not_always_pause :
  reachable pausedState
  ∧ _paused pausedState = true
  ∧ exec (envOf outsider 16) (RegisterOrganization 9) pausedState
      = Reverted (AccessControlUnauthorizedAccount outsider ADMIN_ROLE)
  ∧ exec (envOf outsider 16) (CreateRecord patientP "H1" "ipfs://L1") pausedState
      = Reverted (AccessControlUnauthorizedAccount outsider ORGANIZATION_ROLE)
  ∧ exec (envOf admin0 16) (RegisterOrganization 0) pausedState
      = Reverted (Require "HealthcareDB: Invalid address").
Proof. split; [apply reachable_pausedState | by vm_compute]. Qed.

(** C8 as amended, at the same state: an organization's write meets the
    pause gate. *)
Lemma paused_rejects_writes_witness :
  _paused pausedState = true
  ∧ step pausedState (envOf orgA 16, UpdateRecord rid0 "H2" "ipfs://L2") = pausedState
  ∧ exec (envOf orgA 16) (UpdateRecord rid0 "H2" "ipfs://L2") pausedState
      = Reverted EnforcedPause.
Proof.
  assert (_paused pausedState = true) as Hpaused by by vm_compute.
  split; [exact Hpaused |].
  destruct (paused_rejects_writes pausedState Hpaused) as (Hwrites & _ & _).
  destruct (Hwrites (envOf orgA 16) (UpdateRecord rid0 "H2" "ipfs://L2") eq_refl)
    as [Hstep Hexec].
  split; [exact Hstep |]. rewrite Hexec. by vm_compute.
Defined.

(** C9: [orgB] updates the record shared with it. *)
Lemma updateRecord_frame_witness :
  updateRecord (envOf orgB 16) rid0 "H2" "ipfs://L2" sharedState = Ok updatedState
  ∧ encryptedDataHash (getRecord updatedState rid0) = "H2"
  ∧ _recordAccess updatedState = _recordAccess sharedState.
Proof.
  assert (updateRecord (envOf orgB 16) rid0 "H2" "ipfs://L2" sharedState
          = Ok updatedState) as Hok by by vm_compute.
  split; [exact Hok |].
  pose proof (updateRecord_frame (envOf orgB 16) rid0 "H2" "ipfs://L2"
                sharedState updatedState Hok) as Hframe.
  split; [apply Hframe |]. apply Hframe.
Defined.

(** C10 at the state where [orgA] has shared [rid0] with [orgB]. *)
Lemma cache_agrees_with_grants_witness :
  reachable sharedState
  ∧ _hasAccess sharedState rid0 orgB = hasAccess_uncached sharedState rid0 orgB.
Proof.
  split; [apply reachable_sharedState |].
  apply (@cache_agrees_with_grants injectiveHash injectiveHash_collision_free
           sharedState reachable_sharedState rid0 orgB).
Defined.

(** The collision-freeness hypothesis cannot be dropped: the guard of
    [createRecord] tests the activity flag only, so under a colliding hash
    the id of a deactivated record is handed out again and the creator is
    listed twice. *)
Remark collision_guard_skips_inactive :
  @createdIds constantHash (constructor admin0) recreateTrace = [0; 0]
  ∧ getRecordAccess (@run constantHash (constructor admin0) recreateTrace) 0
      = [orgA; orgA].
Proof. by vm_compute. Qed.

(** * Further properties of the canonical contract *)

(** ** The registry of organizations and the stored records *)

Lemma hasRole_addOrganization registrar org s role a :
  hasRole (addOrganization registrar org s) role a =
    bool_decide ((ORGANIZATION_ROLE, org) = (role, a)) || hasRole s role a.
Proof. apply (hasRole_grantRole ORGANIZATION_ROLE org s role a). Qed.

Lemma Sound_addOrganization registrar org s :
  Sound s → org ≠ 0 → hasRole s ORGANIZATION_ROLE org = false →
  Sound (addOrganization registrar org s).
Proof.
  intros HS Hnz Hnew. split.
  - simpl. apply NoDup_app. split; [apply (sound_registry_NoDup s HS) |].
    split; [| apply NoDup_singleton].
    intros a Ha ->%list_elem_of_singleton.
    apply (sound_registry s HS) in Ha. congruence.
  - intros a. rewrite hasRole_addOrganization. simpl.
    rewrite elem_of_app, list_elem_of_singleton, (sound_registry s HS a).
    rewrite orb_true_iff, bool_decide_eq_true. naive_solver.
  - intros a. rewrite hasRole_addOrganization, orb_true_iff, bool_decide_eq_true.
    intros [[= <-] | Ha]; [done | by apply (sound_nonzero s HS)].
Qed.

Lemma Sound_batch e orgs s : Sound s → Sound (foldl (batchStep e) s orgs).
Proof.
  revert s. induction orgs as [|org orgs IH]; intros s HS; simpl; [done |].
  apply IH. unfold batchStep.
  destruct (Z.eqb_spec org 0); simpl; [done |].
  destruct (hasRole s ORGANIZATION_ROLE org) eqn:Hrole; simpl; [done |].
  by apply Sound_addOrganization.
Qed.

(** A call that leaves the roles and the registry alone keeps them in
    step. *)
Lemma Sound_frame s s' :
  Sound s → _roles s' = _roles s →
  _registeredOrganizations s' = _registeredOrganizations s → Sound s'.
Proof.
  intros HS Hroles Hreg. split; unfold hasRole; rewrite ?Hroles, ?Hreg.
  - apply (sound_registry_NoDup s HS).
  - apply (sound_registry s HS).
  - apply (sound_nonzero s HS).
Qed.

Lemma Stored_frame s s' :
  Stored s → _records s' = _records s → _recordAccess s' = _recordAccess s →
  _organizationRecords s' = _organizationRecords s → Stored s'.
Proof.
  intros HS Hrec Hacc Hidx.
  split; unfold organizationIndex, accessOf; rewrite ?Hrec, ?Hacc, ?Hidx.
  - apply (stored_records s HS).
  - apply (stored_access s HS).
Qed.

Lemma batch_storage e orgs s :
  let s' := foldl (batchStep e) s orgs in
  _records s' = _records s ∧ _recordAccess s' = _recordAccess s
  ∧ _organizationRecords s' = _organizationRecords s.
Proof.
  revert s. induction orgs as [|org orgs IH]; intros s; simpl; [done |].
  destruct (IH (batchStep e s org)) as (-> & -> & ->).
  unfold batchStep. by destruct (_ && _).
Qed.

Lemma validString_bounded str :
  (0 <? Z.of_nat (String.length str)) = true →
  (Z.of_nat (String.length str) <=? MAX_STRING_LENGTH) = true →
  boundedString str.
Proof. unfold boundedString. lia. Qed.

Section Soundness.

Context `{Keccak256}.

Lemma Sound_exec e c s ret s' :
  isRoleAdministration c = false →
  Sound s → exec e c s = Ok (ret, s') → Sound s'.
Proof.
  intros Hcall HS Hexec. destruct c; try discriminate Hcall; tx_inv Hexec;
    try (destruct (revokeFirst _ _ _); simpl in Hexec; [| done]);
    injection Hexec as <- <-; try (by apply (Sound_frame s)).
  - apply Sound_addOrganization; [done | | ].
    + intros ->. done.
    + by apply negb_true_iff.
  - by apply Sound_batch.
Qed.

Lemma Sound_constructor deployer : Sound (constructor deployer).
Proof.
  assert (∀ a, hasRole (constructor deployer) ORGANIZATION_ROLE a = false) as Hnone.
  { intros a. unfold constructor. rewrite !hasRole_grantRole.
    rewrite !bool_decide_eq_false_2 by congruence. simpl.
    unfold hasRole. simpl. by rewrite bool_decide_eq_false_2 by set_solver. }
  split; simpl.
  - constructor.
  - intros a. rewrite Hnone. split; [by intros ?%elem_of_nil | done].
  - intros a. by rewrite Hnone.
Qed.

Lemma Sound_run s trace :
  Forall (λ tx, isRoleAdministration tx.2 = false) trace →
  Sound s → Sound (run s trace).
Proof.
  intros Htrace. revert s.
  induction Htrace as [|[e c] trace Hcall _ IH]; intros s HS; simpl; [done |].
  apply IH. unfold step. simpl.
  destruct (exec e c s) as [[ret s']|] eqn:Hexec; [| done].
  by eapply Sound_exec.
Qed.

Lemma batch_registry_nonzero e orgs s :
  0 ∉ _registeredOrganizations s →
  0 ∉ _registeredOrganizations (foldl (batchStep e) s orgs).
Proof.
  revert s. induction orgs as [|org orgs IH]; intros s Hs; simpl; [done |].
  apply IH. unfold batchStep.
  destruct (Z.eqb_spec org 0); simpl; [done |].
  destruct (hasRole s ORGANIZATION_ROLE org); simpl; [done |].
  rewrite elem_of_app, list_elem_of_singleton. naive_solver.
Qed.

Lemma registry_nonzero_exec e c s ret s' :
  0 ∉ _registeredOrganizations s → exec e c s = Ok (ret, s') →
  0 ∉ _registeredOrganizations s'.
Proof.
  intros Hs Hexec. destruct c; tx_inv Hexec;
    try (destruct (revokeFirst _ _ _); simpl in Hexec; [| done]);
    injection Hexec as <- <-; try done.
  - simpl. rewrite elem_of_app, list_elem_of_singleton.
    intros [? | <-]; done.
  - by apply batch_registry_nonzero.
Qed.

Lemma registry_nonzero_run s trace :
  0 ∉ _registeredOrganizations s → 0 ∉ _registeredOrganizations (run s trace).
Proof.
  revert s. induction trace as [|[e c] trace IH]; intros s Hs; simpl; [done |].
  apply IH. unfold step. simpl.
  destruct (exec e c s) as [[ret s']|] eqn:Hexec; [| done].
  by eapply registry_nonzero_exec.
Qed.

Lemma Stored_exec e c s ret s' : Stored s → exec e c s = Ok (ret, s') → Stored s'.
Proof.
  intros HS Hexec. destruct c; tx_inv Hexec.
  - injection Hexec as <- <-. by apply (Stored_frame s).
  - injection Hexec as <- <-.
    destruct (batch_storage e orgs s) as (? & ? & ?). by apply (Stored_frame s).
  - injection Hexec as <- <-.
    assert (patient ≠ 0) as Hpat by (intros ->; done).
    split; unfold organizationIndex, accessOf; simpl.
    + intros rid r. rewrite lookup_insert. case_decide as Hrid.
      * intros [= <-]. simpl. rewrite lookup_insert_eq. simpl.
        split; [done |]. split; [done |].
        split; [by apply validString_bounded |].
        split; [by apply validString_bounded |].
        apply elem_of_app. right. rewrite Hrid. by left.
      * intros Hr. destruct (stored_records s HS rid r Hr) as (? & ? & ? & ? & Hidx).
        split; [done |]. split; [done |].
        split; [done |]. split; [done |].
        rewrite default_insert. case_decide as Ho; [| done].
        apply elem_of_app. left. by rewrite Ho.
    + intros rid g. rewrite !default_insert.
      destruct (decide (newRecordId e patient s = rid)) as [Hrid | Hrid].
      * intros [Hg | ->%list_elem_of_singleton]%elem_of_app; simpl.
        -- pose proof (stored_access s HS _ g Hg) as Hidx.
           case_decide as Ho; [| by rewrite <- Hrid].
           apply elem_of_app. left. rewrite Ho, <- Hrid. done.
        -- rewrite decide_True by done.
           apply elem_of_app. right. rewrite Hrid. by left.
      * intros Hg. pose proof (stored_access s HS _ g Hg) as Hidx.
        case_decide as Ho; [| done]. apply elem_of_app. left. by rewrite Ho.
  - injection Hexec as <- <-.
    split; unfold organizationIndex, accessOf; simpl.
    + intros rid' r Hr.
      destruct (stored_records s HS rid' r Hr) as (? & ? & ? & ? & Hidx).
      split; [done |]. split; [done |].
      split; [done |]. split; [done |].
      rewrite default_insert. case_decide as Ho; [| done].
      apply elem_of_app. left. by rewrite Ho.
    + intros rid' g. rewrite !default_insert.
      destruct (decide (rid = rid')) as [<- | Hrid].
      * intros [Hg | ->%list_elem_of_singleton]%elem_of_app; simpl.
        -- pose proof (stored_access s HS _ g Hg) as Hidx.
           case_decide as Ho; [| done]. apply elem_of_app. left. by rewrite Ho.
        -- rewrite decide_True by done.
           apply elem_of_app. right. by left.
      * intros Hg. pose proof (stored_access s HS _ g Hg) as Hidx.
        case_decide as Ho; [| done]. apply elem_of_app. left. by rewrite Ho.
  - destruct (revokeFirst org (block_timestamp e) (accessOf s rid)) as [l'|] eqn:Hrev;
      simpl in Hexec; [| done].
    injection Hexec as <- <-.
    split; unfold organizationIndex, accessOf; simpl.
    + apply (stored_records s HS).
    + intros rid' g. rewrite default_insert. case_decide as Hrid.
      * intros Hg. apply (list_elem_of_fmap_2 organization) in Hg.
        rewrite (revokeFirst_organizations _ _ _ _ Hrev) in Hg.
        apply list_elem_of_fmap in Hg as (g0 & -> & Hg0). subst rid'.
        apply (stored_access s HS rid g0 Hg0).
      * apply (stored_access s HS rid' g).
  - injection Hexec as <- <-.
    pose proof (active_stored s rid ltac:(done)) as Hstored.
    destruct (stored_records s HS rid _ Hstored) as (? & ? & ? & ? & ?).
    split; simpl; try apply HS.
    intros rid' r. rewrite lookup_insert. case_decide as Hrid.
    + intros [= <-]. simpl. subst rid'.
      split; [done |]. split; [done |].
      split; [by apply validString_bounded |].
      split; [by apply validString_bounded | done].
    + apply (stored_records s HS).
  - injection Hexec as <- <-.
    pose proof (active_stored s rid ltac:(done)) as Hstored.
    destruct (stored_records s HS rid _ Hstored) as (? & ? & ? & ? & ?).
    split; simpl; try apply HS.
    intros rid' r. rewrite lookup_insert. case_decide as Hrid.
    + intros [= <-]. simpl. by subst rid'.
    + apply (stored_records s HS).
  - injection Hexec as <- <-. by apply (Stored_frame s).
  - injection Hexec as <- <-. by apply (Stored_frame s).
  - injection Hexec as <- <-. by apply (Stored_frame s).
  - injection Hexec as <- <-. by apply (Stored_frame s).
  - injection Hexec as <- <-. by apply (Stored_frame s).
Qed.

Lemma Stored_reachable s : reachable s → Stored s.
Proof.
  induction 1 as [deployer | s tx _ IH].
  - split; simpl.
    + intros rid r. by rewrite lookup_empty.
    + intros rid g. by intros ?%elem_of_nil.
  - unfold step. destruct (exec tx.1 tx.2 s) as [[ret s']|] eqn:Hexec; [| done].
    by eapply Stored_exec.
Qed.

End Soundness.

Lemma batch_frame e orgs s :
  let s' := foldl (batchStep e) s orgs in
  _recordAccess s' = _recordAccess s
  ∧ _organizationRecords s' = _organizationRecords s
  ∧ _hasAccessCache s' = _hasAccessCache s
  ∧ _registeredOrganizations s `prefix_of` _registeredOrganizations s'
  ∧ _events s `prefix_of` _events s'
  ∧ ∀ a, hasRole s' ADMIN_ROLE a = hasRole s ADMIN_ROLE a.
Proof.
  revert s. induction orgs as [|org orgs IH]; intros s; simpl; [done |].
  destruct (IH (batchStep e s org)) as (-> & -> & -> & Hreg & Hev & Hadmin).
  unfold batchStep in *.
  destruct (negb (org =? 0) && negb (hasRole s ORGANIZATION_ROLE org)); [| done].
  split; [done |]. split; [done |]. split; [done |].
  split; [| split].
  - etrans; [| exact Hreg]. by apply prefix_app_r.
  - etrans; [| exact Hev]. by apply prefix_app_r.
  - intros a. rewrite Hadmin, hasRole_addOrganization.
    by rewrite bool_decide_eq_false_2 by congruence.
Qed.

Lemma revokeFirst_split o now l l' :
  revokeFirst o now l = Some l' →
  ∃ l1 g l2, l = l1 ++ g :: l2 ∧ l' = l1 ++ revoked g now :: l2
             ∧ grantsNow o g = true ∧ scanAccess o l1 = false.
Proof.
  revert l'. induction l as [|g l IH]; simpl; intros l'; [done |].
  destruct (grantsNow o g) eqn:Hnow.
  - intros [= <-]. by exists [], g, l.
  - destruct (revokeFirst o now l) as [l0|]; simpl; [| done].
    intros [= <-]. destruct (IH l0 eq_refl) as (l1 & g' & l2 & -> & -> & ? & Hscan).
    exists (g :: l1), g', l2. simpl. by rewrite Hnow.
Qed.

Lemma revokeFirst_history o now l l' :
  revokeFirst o now l = Some l' → grantHistory l' = grantHistory l.
Proof.
  intros (l1 & g & l2 & -> & -> & _)%revokeFirst_split.
  unfold grantHistory. by rewrite !fmap_app, !fmap_cons.
Qed.

Section Registry.

Context `{Keccak256}.

(** X1: after any calls made from deployment the list of registered
    organizations never holds the zero address; and as long as the inherited
    [grantRole], [revokeRole] and [renounceRole] were not among the calls,
    the list has no duplicates and holds exactly the accounts with the
    organization role. *)
Theorem registry_matches_roles deployer trace :
  let s := run (constructor deployer) trace in
  (0 ∉ getAllOrganizations s)
  ∧ (Forall (λ tx, isRoleAdministration tx.2 = false) trace →
     NoDup (getAllOrganizations s)
     ∧ ∀ a, a ∈ getAllOrganizations s ↔ hasRole s ORGANIZATION_ROLE a = true).
Proof.
  intros s. split.
  - apply registry_nonzero_run. simpl. by intros ?%elem_of_nil.
  - intros Htrace.
    pose proof (Sound_run _ trace Htrace (Sound_constructor deployer)) as HS.
    fold s in HS.
    split; [apply (sound_registry_NoDup s HS) | apply (sound_registry s HS)].
Qed.

(** X2: in every reachable state a stored record carries its own key as
    [recordId], a non-zero patient, a data hash and a data location of 1 to
    256 bytes, and is listed in the record index of its creator. *)
Theorem stored_record_well_formed s rid r :
  reachable s → _records s !! rid = Some r →
  recordId r = rid ∧ patientAddress r ≠ 0
  ∧ boundedString (encryptedDataHash r) ∧ boundedString (dataLocation r)
  ∧ rid ∈ getOrganizationRecords s (createdBy r).
Proof. intros Hs. apply (stored_records s (Stored_reachable s Hs)). Qed.

(** X3: in every reachable state an account that has access to a record
    finds the record in [getOrganizationRecords]. *)
Theorem access_implies_listed s rid o :
  reachable s → hasAccess s rid o = true →
  rid ∈ getOrganizationRecords s o.
Proof.
  intros Hs Hacc.
  apply _hasAccess_true in Hacc as (_ & _ & Hscan).
  apply scanAccess_spec in Hscan as (g & Hg & <- & _).
  by apply (stored_access s (Stored_reachable s Hs)).
Qed.

Lemma exec_admin e c s ret s' a :
  isRoleAdministration c = false →
  exec e c s = Ok (ret, s') → hasRole s' ADMIN_ROLE a = hasRole s ADMIN_ROLE a.
Proof.
  intros Hcall Hexec. destruct c; try discriminate Hcall; tx_inv Hexec;
    try (destruct (revokeFirst _ _ _); simpl in Hexec; [| done]);
    injection Hexec as <- <-; try done.
  - rewrite hasRole_addOrganization. by rewrite bool_decide_eq_false_2 by congruence.
  - by destruct (batch_frame e orgs s) as (_ & _ & _ & _ & _ & ->).
Qed.

Lemma run_admin s trace a :
  Forall (λ tx, isRoleAdministration tx.2 = false) trace →
  hasRole (run s trace) ADMIN_ROLE a = hasRole s ADMIN_ROLE a.
Proof.
  intros Htrace. revert s.
  induction Htrace as [|[e c] trace Hcall _ IH]; intros s; simpl; [done |].
  rewrite IH. unfold step. simpl.
  destruct (exec e c s) as [[ret s']|] eqn:Hexec; [| done].
  by eapply exec_admin.
Qed.

Lemma constructor_admin deployer a :
  hasRole (constructor deployer) ADMIN_ROLE a = true ↔ a = deployer.
Proof.
  unfold constructor. rewrite !hasRole_grantRole.
  rewrite (bool_decide_eq_false_2 ((DEFAULT_ADMIN_ROLE, _) = _)) by congruence.
  unfold hasRole at 1. simpl. rewrite (bool_decide_eq_false_2 (_ ∈ ∅)) by set_solver.
  rewrite orb_false_r, bool_decide_eq_true. naive_solver.
Qed.

(** X4: none of the functions this contract defines grants or removes
    the admin role: across calls other than the inherited [grantRole],
    [revokeRole] and [renounceRole] the holders of the admin role stay the
    same, so after such calls from deployment the deployer holds it and
    nobody else does. *)
Theorem admin_is_deployer deployer trace a :
  Forall (λ tx, isRoleAdministration tx.2 = false) trace →
  (∀ s, hasRole (run s trace) ADMIN_ROLE a = hasRole s ADMIN_ROLE a)
  ∧ (hasRole (run (constructor deployer) trace) ADMIN_ROLE a = true
     ↔ a = deployer).
Proof.
  intros Htrace. split; [intros s; by apply run_admin |].
  rewrite run_admin by done. apply constructor_admin.
Qed.

Lemma batch_log e orgs s :
  createdInLog (_events s) = _allRecordIds s →
  registeredInLog (_events s) = _registeredOrganizations s →
  createdInLog (_events (foldl (batchStep e) s orgs))
    = _allRecordIds (foldl (batchStep e) s orgs)
  ∧ registeredInLog (_events (foldl (batchStep e) s orgs))
    = _registeredOrganizations (foldl (batchStep e) s orgs).
Proof.
  revert s. induction orgs as [|org orgs IH]; intros s Hc Hr; simpl; [done |].
  apply IH; unfold batchStep;
    destruct (negb (org =? 0) && negb (hasRole s ORGANIZATION_ROLE org));
    try done; unfold createdInLog, registeredInLog in *; simpl;
    rewrite omap_app, ?Hc, ?Hr; simpl; by rewrite ?app_nil_r.
Qed.

(** X5: in every reachable state the event log and the index arrays agree:
    the [RecordCreated] events list the ids of [_allRecordIds] in order, and
    the [OrganizationRegistered] events list the registered organizations in
    order. *)
Theorem log_matches_indices s :
  reachable s →
  createdInLog (_events s) = _allRecordIds s
  ∧ registeredInLog (_events s) = getAllOrganizations s.
Proof.
  unfold getAllOrganizations.
  induction 1 as [deployer | s [e c] _ [IHc IHr]]; [done |].
  unfold step. simpl. destruct (exec e c s) as [[ret s']|] eqn:Hexec; [| done].
  destruct c; tx_inv Hexec;
    try (destruct (revokeFirst _ _ _); simpl in Hexec; [| done]);
    injection Hexec as <- <-; try (by apply batch_log);
    unfold createdInLog, registeredInLog in *; simpl;
    rewrite ?omap_app, ?IHc, ?IHr; simpl; by rewrite ?app_nil_r.
Qed.

(** X6: the id list after any execution from deployment is the list of ids
    returned by its successful [createRecord] calls, so
    [getTotalRecordCount] counts exactly the successful creations. *)
Theorem total_count_counts_creations deployer trace :
  _allRecordIds (run (constructor deployer) trace)
    = createdIds (constructor deployer) trace
  ∧ getTotalRecordCount (run (constructor deployer) trace)
    = Z.of_nat (length (createdIds (constructor deployer) trace)).
Proof.
  assert (∀ s, _allRecordIds (run s trace) = _allRecordIds s ++ createdIds s trace)
    as Hrun.
  { induction trace as [|[e c] trace IH]; intros s; simpl.
    - by rewrite app_nil_r.
    - rewrite IH. unfold step. simpl.
      destruct (exec e c s) as [[ret s']|] eqn:Hexec; [| done].
      rewrite (exec_allRecordIds e c s ret s' Hexec).
      destruct ret; simpl; by rewrite <- app_assoc. }
  unfold getTotalRecordCount. by rewrite Hrun.
Qed.

End Registry.

(** ** Nothing is ever removed *)

Lemma extends_refl s : extends s s.
Proof. by repeat split. Qed.

Lemma extends_trans s1 s2 s3 : extends s1 s2 → extends s2 s3 → extends s1 s3.
Proof.
  intros (? & ? & ? & Hp & Ho & Hh) (? & ? & ? & Hp' & Ho' & Hh').
  split; [by etrans |]. split; [by etrans |]. split; [by etrans |].
  split; [intros p; etrans; [apply Hp | apply Hp'] |].
  split; [intros o; etrans; [apply Ho | apply Ho'] |].
  intros rid. etrans; [apply Hh | apply Hh'].
Qed.

Lemma prefix_default_insert `{Countable K} {A} (m : gmap K (list A)) k x k' :
  default [] (m !! k') `prefix_of`
    default [] (<[k := default [] (m !! k) ++ [x]]> m !! k').
Proof.
  rewrite default_insert. case_decide as Hk; [| done].
  subst k'. by apply prefix_app_r.
Qed.

Lemma grantHistory_prefix l1 l2 :
  l1 `prefix_of` l2 → grantHistory l1 `prefix_of` grantHistory l2.
Proof. intros [k ->]. unfold grantHistory. rewrite fmap_app. by apply prefix_app_r. Qed.

Section AppendOnly.

Context `{Keccak256}.

Lemma extends_exec e c s ret s' : exec e c s = Ok (ret, s') → extends s s'.
Proof.
  intros Hexec. destruct c; tx_inv Hexec.
  - injection Hexec as <- <-. unfold extends. simpl.
    repeat split; try done; by apply prefix_app_r.
  - injection Hexec as <- <-.
    destruct (batch_records e orgs s) as (_ & Hids & Hpat & _).
    destruct (batch_frame e orgs s) as (Hacc & Horg & _ & Hreg & Hev & _).
    unfold extends, patientIndex, organizationIndex, accessOf.
    rewrite Hids, Hpat, Hacc, Horg. by repeat split.
  - injection Hexec as <- <-.
    unfold extends, patientIndex, organizationIndex, accessOf. simpl.
    split; [by apply prefix_app_r |]. split; [by apply prefix_app_r |].
    split; [done |]. split; [intros p; apply prefix_default_insert |].
    split; [intros o; apply prefix_default_insert |].
    intros rid. apply grantHistory_prefix, prefix_default_insert.
  - injection Hexec as <- <-.
    unfold extends, patientIndex, organizationIndex, accessOf. simpl.
    split; [by apply prefix_app_r |]. split; [done |]. split; [done |].
    split; [done |]. split; [intros o; apply prefix_default_insert |].
    intros rid'. apply grantHistory_prefix, prefix_default_insert.
  - destruct (revokeFirst org (block_timestamp e) (accessOf s rid)) as [l'|] eqn:Hrev;
      simpl in Hexec; [| done].
    injection Hexec as <- <-.
    unfold extends, patientIndex, organizationIndex. simpl.
    split; [by apply prefix_app_r |]. do 4 (split; [done |]).
    intros rid'. unfold accessOf at 2. simpl. rewrite default_insert.
    case_decide as Hrid; [| done]. subst rid'.
    by rewrite (revokeFirst_history _ _ _ _ Hrev).
  - injection Hexec as <- <-. unfold extends. simpl.
    repeat split; try done; by apply prefix_app_r.
  - injection Hexec as <- <-. unfold extends. simpl.
    repeat split; try done; by apply prefix_app_r.
  - injection Hexec as <- <-. by repeat split.
  - injection Hexec as <- <-. by repeat split.
  - injection Hexec as <- <-. by repeat split.
  - injection Hexec as <- <-. by repeat split.
  - injection Hexec as <- <-. by repeat split.
Qed.

(** X7: no call ever removes or rewrites history: across any sequence of
    calls the event log, the id list, the registry, every patient and
    organization index and the (organization, grantedAt) history of every
    grant list only grow at the end. *)
Theorem state_is_append_only s trace : extends s (run s trace).
Proof.
  revert s. induction trace as [|[e c] trace IH]; intros s; simpl.
  - apply extends_refl.
  - eapply extends_trans; [| apply IH]. unfold step. simpl.
    destruct (exec e c s) as [[ret s']|] eqn:Hexec; [| apply extends_refl].
    by eapply extends_exec.
Qed.

End AppendOnly.

(** ** Granting and revoking, in any state *)

Lemma hasAccess_cache_frame s s' rid o :
  recordOf s' rid = recordOf s rid →
  cacheOf s' rid o = cacheOf s rid o →
  scanAccess o (accessOf s' rid) = scanAccess o (accessOf s rid) →
  hasAccess s' rid o = hasAccess s rid o.
Proof. unfold hasAccess, _hasAccess. by intros -> -> ->. Qed.

(** X8: the final [revert("Access not found")] of [revokeAccess] is dead
    code: once the three [require]s have passed, the loop always finds an
    entry to revoke. *)
Theorem revokeAccess_never_not_found e rid org s :
  revokeAccess e rid org s ≠ Reverted (Require "HealthcareDB: Access not found").
Proof.
  unfold revokeAccess, onlyRole, whenNotPaused, recordExists, validAddress, require.
  destruct (hasRole s ORGANIZATION_ROLE (msg_sender e)); simpl; [| done].
  destruct (_paused s); simpl; [done |].
  destruct (isActive (recordOf s rid)); simpl; [| done].
  destruct (org =? 0); simpl; [done |].
  destruct (_hasAccess s rid (msg_sender e)); simpl; [| done].
  destruct (org =? msg_sender e); simpl; [done |].
  destruct (_hasAccess s rid org) eqn:Horg; simpl; [| done].
  apply _hasAccess_true in Horg as (_ & _ & Hscan).
  by destruct (revokeFirst_is_Some org (block_timestamp e) _ Hscan) as [l' ->].
Qed.

(** X9: a committed [revokeAccess] rewrites exactly one grant entry, the
    first entry of the organization that was not revoked: it is marked
    revoked with the block time and keeps its organization and grant time.
    The access of every other (record, organization) pair, the caller's
    included, the records and the index arrays are unchanged. *)
Theorem revokeAccess_marks_one_entry e rid org s s' :
  revokeAccess e rid org s = Ok s' →
  (∃ l1 g l2,
      accessOf s rid = l1 ++ g :: l2
      ∧ accessOf s' rid = l1 ++ revoked g (block_timestamp e) :: l2
      ∧ organization g = org ∧ isRevoked g = false
      ∧ scanAccess org l1 = false)
  ∧ (∀ rid' o, (rid', o) ≠ (rid, org) → hasAccess s' rid' o = hasAccess s rid' o)
  ∧ hasAccess s' rid (msg_sender e) = true
  ∧ _records s' = _records s
  ∧ _patientRecords s' = _patientRecords s
  ∧ _organizationRecords s' = _organizationRecords s
  ∧ _allRecordIds s' = _allRecordIds s.
Proof.
  intros Hok. tx_inv Hok.
  destruct (revokeFirst org (block_timestamp e) (accessOf s rid)) as [l'|] eqn:Hrev;
    simpl in Hok; [| done].
  injection Hok as <-.
  assert (org ≠ msg_sender e) as Hne.
  { intros ->. by rewrite Z.eqb_refl in *. }
  set (s' := {| _roles := _roles s |}).
  assert (∀ rid' o, (rid', o) ≠ (rid, org) → hasAccess s' rid' o = hasAccess s rid' o)
    as Hframe.
  { intros rid' o Hpair. apply hasAccess_cache_frame; [done | |].
    - unfold cacheOf. simpl. by rewrite lookup_insert_ne.
    - unfold accessOf at 1. simpl. rewrite default_insert.
      case_decide as Hrid; [| done]. subst rid'.
      apply (revokeFirst_scan_other _ _ _ _ o Hrev). congruence. }
  split; [| split; [exact Hframe |]].
  - destruct (revokeFirst_split _ _ _ _ Hrev) as (l1 & g & l2 & Hl & -> & Hg & Hl1).
    apply grantsNow_spec in Hg as [Horg Hrevoked].
    exists l1, g, l2. unfold accessOf at 2. simpl. by rewrite lookup_insert_eq.
  - split; [| done]. rewrite Hframe by congruence. done.
Qed.

(** X10: a committed [grantAccess] gives the organization access and
    changes the access of no other (record, organization) pair; granting the
    same pair again is rejected for every caller, with the already-granted
    reason when the caller is an organization with access. *)
Theorem grantAccess_once e rid org s s' :
  grantAccess e rid org s = Ok s' →
  hasAccess s' rid org = true
  ∧ (∀ rid' o, (rid', o) ≠ (rid, org) → hasAccess s' rid' o = hasAccess s rid' o)
  ∧ ∀ e2, ∃ r,
      grantAccess e2 rid org s' = Reverted r
      ∧ (hasRole s' ORGANIZATION_ROLE (msg_sender e2) = true →
         hasAccess s' rid (msg_sender e2) = true →
         r = Require "HealthcareDB: Access already granted").
Proof.
  intros Hok. tx_inv Hok. injection Hok as <-.
  set (s' := {| _roles := _roles s |}).
  assert (hasAccess s' rid org = true) as Hnow.
  { apply _hasAccess_true. unfold recordOf, cacheOf, accessOf. simpl.
    rewrite !lookup_insert_eq. simpl. split; [done |]. split; [done |].
    rewrite scanAccess_app, scanAccess_new, bool_decide_eq_true_2 by done.
    apply orb_true_r. }
  split; [exact Hnow |]. split.
  - intros rid' o Hpair. apply hasAccess_cache_frame; [done | |].
    + unfold cacheOf. simpl. by rewrite lookup_insert_ne.
    + unfold accessOf at 1. simpl. rewrite default_insert.
      case_decide as Hrid; [| done]. subst rid'.
      rewrite scanAccess_app, scanAccess_new.
      rewrite bool_decide_eq_false_2 by congruence. apply orb_false_r.
  - intros e2. unfold hasAccess in *.
    unfold grantAccess, onlyRole, whenNotPaused, recordExists, validAddress, require.
    rewrite Hnow.
    destruct (hasRole s' ORGANIZATION_ROLE (msg_sender e2)); simpl;
      [| eexists; split; [done | done]].
    change (_paused s') with false. change (recordOf s' rid) with (recordOf s rid).
    change (hasRole s' ORGANIZATION_ROLE org) with (hasRole s ORGANIZATION_ROLE org).
    rewrite Hguard1, Hguard2, Hguard3. simpl.
    destruct (_hasAccess s' rid (msg_sender e2)); simpl;
      eexists; (split; [done |]); [done | by intros _ ?].
Qed.

(** ** Pausing and resuming *)

(** X11: [pause] and [unpause] undo each other exactly, and neither can be
    applied twice in a row: pausing a paused contract and resuming a running
    one revert. *)
Theorem pause_unpause_round_trip e s s1 :
  (pause e s = Ok s1 →
     unpause e s1 = Ok s ∧ pause e s1 = Reverted EnforcedPause)
  ∧ (unpause e s = Ok s1 →
     pause e s1 = Ok s ∧ unpause e s1 = Reverted ExpectedPause).
Proof.
  split; intros Hok; tx_inv Hok; injection Hok as <-;
    unfold pause, unpause, onlyRole, whenNotPaused, whenPaused;
    change (hasRole (set_paused _ s) ADMIN_ROLE (msg_sender e))
      with (hasRole s ADMIN_ROLE (msg_sender e));
    rewrite Hguard0; simpl; (split; [| done]);
    destruct s; simpl in *; by subst.
Qed.

(** ** Registering organizations *)

Lemma batch_roles e orgs s a :
  hasRole (foldl (batchStep e) s orgs) ORGANIZATION_ROLE a = true ↔
  hasRole s ORGANIZATION_ROLE a = true ∨ (a ∈ orgs ∧ a ≠ 0).
Proof.
  revert s. induction orgs as [|org orgs IH]; intros s; simpl.
  - split; [by left | intros [? | [?%elem_of_nil _]]; done].
  - rewrite IH, elem_of_cons. unfold batchStep.
    destruct (Z.eqb_spec org 0) as [-> | Hnz]; simpl; [naive_solver |].
    destruct (hasRole s ORGANIZATION_ROLE org) eqn:Hrole; simpl.
    + split; [naive_solver |]. intros [? | [[-> | ?] ?]]; naive_solver.
    + rewrite hasRole_addOrganization, orb_true_iff, bool_decide_eq_true.
      split; [naive_solver |]. intros [? | [[-> | ?] ?]]; naive_solver.
Qed.

Lemma batch_skips_all e orgs s :
  (∀ org, org ∈ orgs → org = 0 ∨ hasRole s ORGANIZATION_ROLE org = true) →
  foldl (batchStep e) s orgs = s.
Proof.
  induction orgs as [|org orgs IH]; intros Hall; simpl; [done |].
  assert (batchStep e s org = s) as ->.
  { assert (org ∈ org :: orgs) as Hin by by left.
    unfold batchStep. destruct (Hall org Hin) as [-> | Hrole]; [done |].
    rewrite Hrole. simpl. by rewrite andb_false_r. }
  apply IH. intros org' Hin. apply Hall. by right.
Qed.

(** X12: a committed [batchRegisterOrganizations] received 1 to 50
    addresses; afterwards the organization role is held by the accounts that
    held it before and by the non-zero addresses of the array; and running
    the same batch again commits without changing anything. *)
Theorem batchRegister_adds_the_array e orgs s s' :
  batchRegisterOrganizations e orgs s = Ok s' →
  (0 < length orgs ≤ 50)%nat
  ∧ (∀ a, hasRole s' ORGANIZATION_ROLE a = true ↔
          hasRole s ORGANIZATION_ROLE a = true ∨ (a ∈ orgs ∧ a ≠ 0))
  ∧ batchRegisterOrganizations e orgs s' = Ok s'.
Proof.
  intros Hok. tx_inv Hok. injection Hok as <-.
  split; [lia |]. split; [intros a; apply batch_roles |].
  unfold batchRegisterOrganizations, onlyRole, whenNotPaused, require.
  destruct (batch_frame e orgs s) as (_ & _ & _ & _ & _ & ->).
  destruct (batch_records e orgs s) as (_ & _ & _ & ->).
  rewrite Hguard2, Hguard1, Hguard0, Hguard. simpl. f_equal.
  apply batch_skips_all. intros org Hin.
  destruct (decide (org = 0)) as [| Hnz]; [by left | right].
  apply batch_roles. by right.
Qed.

(** X13: a committed [registerOrganization] does what a batch of that one
    address does; registering the same organization again is rejected for
    every caller, with the already-registered reason when the caller is an
    admin. *)
Theorem registerOrganization_once e org s s' :
  registerOrganization e org s = Ok s' →
  batchRegisterOrganizations e [org] s = Ok s'
  ∧ hasRole s' ORGANIZATION_ROLE org = true
  ∧ ∀ e2, ∃ r,
      registerOrganization e2 org s' = Reverted r
      ∧ (hasRole s' ADMIN_ROLE (msg_sender e2) = true →
         r = Require "HealthcareDB: Organization already registered").
Proof.
  intros Hok. tx_inv Hok. injection Hok as <-.
  assert (hasRole (addOrganization (msg_sender e) org s) ORGANIZATION_ROLE org = true)
    as Hrole.
  { rewrite hasRole_addOrganization, bool_decide_eq_true_2 by done. done. }
  split; [| split; [exact Hrole |]].
  - unfold batchRegisterOrganizations, onlyRole, whenNotPaused, require, batchStep.
    rewrite Hguard2, Hguard0. simpl. by rewrite Hguard1, Hguard.
  - intros e2. unfold registerOrganization, onlyRole, validAddress, whenNotPaused, require.
    rewrite Hrole, Hguard1. simpl.
    change (_paused (addOrganization (msg_sender e) org s)) with (_paused s).
    rewrite Hguard0.
    destruct (hasRole _ ADMIN_ROLE (msg_sender e2)); simpl;
      eexists; (split; [reflexivity |]); [done | by intros ?].
Qed.

(** ** An active record always has an organization with access *)

Lemma _hasAccess_same_storage s s' rid o :
  _records s' = _records s → _recordAccess s' = _recordAccess s →
  _hasAccessCache s' = _hasAccessCache s →
  _hasAccess s' rid o = _hasAccess s rid o.
Proof.
  intros Hr Ha Hc. unfold _hasAccess, recordOf, cacheOf, accessOf.
  by rewrite Hr, Ha, Hc.
Qed.

Lemma _hasAccess_other_record s s' rid rid' o :
  rid ≠ rid' →
  _records s' !! rid' = _records s !! rid' →
  _recordAccess s' !! rid' = _recordAccess s !! rid' →
  (∀ o', _hasAccessCache s' !! (rid', o') = _hasAccessCache s !! (rid', o')) →
  _hasAccess s' rid' o = _hasAccess s rid' o.
Proof.
  intros _ Hr Ha Hc. unfold _hasAccess, recordOf, cacheOf, accessOf.
  by rewrite Hr, Ha, Hc.
Qed.

Section Attended.

Context `{Keccak256}.

Lemma attended_exec e c s ret s' :
  (∀ rid, isActive (recordOf s rid) = true → ∃ o, _hasAccess s rid o = true) →
  exec e c s = Ok (ret, s') →
  ∀ rid, isActive (recordOf s' rid) = true → ∃ o, _hasAccess s' rid o = true.
Proof.
  intros Hatt Hexec. destruct c; tx_inv Hexec.
  - injection Hexec as <- <-. exact Hatt.
  - injection Hexec as <- <-. intros rid' Hact.
    destruct (batch_records e orgs s) as (Hr & _).
    destruct (batch_frame e orgs s) as (Ha & _ & Hc & _).
    unfold recordOf in Hact. rewrite Hr in Hact.
    destruct (Hatt rid' Hact) as [o Ho]. exists o.
    by rewrite (_hasAccess_same_storage s _ rid' o Hr Ha Hc).
  - injection Hexec as <- <-. intros rid' Hact.
    destruct (decide (newRecordId e patient s = rid')) as [<- | Hrid].
    + exists (msg_sender e). apply _hasAccess_true.
      unfold recordOf, cacheOf, accessOf. simpl.
      rewrite !lookup_insert_eq. simpl. split; [done |]. split; [done |].
      rewrite scanAccess_app, scanAccess_new, bool_decide_eq_true_2 by done.
      apply orb_true_r.
    + unfold recordOf in Hact. simpl in Hact.
      rewrite lookup_insert_ne in Hact by done.
      destruct (Hatt rid' Hact) as [o Ho]. exists o. rewrite <- Ho.
      apply (_hasAccess_other_record _ _ _ rid' o Hrid); simpl.
      * by rewrite lookup_insert_ne.
      * by rewrite lookup_insert_ne.
      * intros o'. rewrite lookup_insert_ne; [done | congruence].
  - injection Hexec as <- <-. intros rid' Hact.
    destruct (Hatt rid' Hact) as [o Ho]. exists o.
    apply _hasAccess_true in Ho as (_ & Hc & Hscan).
    apply _hasAccess_true. unfold recordOf, cacheOf, accessOf in *. simpl.
    split; [done |]. split.
    + rewrite default_insert. by case_decide.
    + rewrite default_insert. case_decide as Hrid; [| done]. subst rid'.
      rewrite scanAccess_app, Hscan. done.
  - destruct (revokeFirst org (block_timestamp e) (accessOf s rid)) as [l'|] eqn:Hrev;
      simpl in Hexec; [| done].
    injection Hexec as <- <-. intros rid' Hact.
    assert (org ≠ msg_sender e) as Hne.
    { intros ->. by rewrite Z.eqb_refl in *. }
    destruct (decide (rid = rid')) as [<- | Hrid].
    + exists (msg_sender e).
      assert (_hasAccess s rid (msg_sender e) = true) as Hcaller by done.
      apply _hasAccess_true in Hcaller as (_ & Hc & Hscan).
      apply _hasAccess_true. unfold recordOf, cacheOf, accessOf in *. simpl.
      split; [done |]. split.
      * rewrite lookup_insert_ne; [done | congruence].
      * rewrite lookup_insert_eq. simpl.
        by rewrite (revokeFirst_scan_other _ _ _ _ (msg_sender e) Hrev).
    + destruct (Hatt rid' Hact) as [o Ho]. exists o. rewrite <- Ho.
      apply (_hasAccess_other_record _ _ _ rid' o Hrid); simpl.
      * done.
      * by rewrite lookup_insert_ne.
      * intros o'. rewrite lookup_insert_ne; [done | congruence].
  - injection Hexec as <- <-. intros rid' Hact.
    assert (isActive (recordOf s rid') = true) as Hact0.
    { unfold recordOf in *. simpl in Hact. rewrite lookup_insert in Hact.
      case_decide as Hrid; [by subst rid' | done]. }
    destruct (Hatt rid' Hact0) as [o Ho]. exists o.
    apply _hasAccess_true in Ho as (_ & Hc & Hscan).
    apply _hasAccess_true. by repeat split.
  - injection Hexec as <- <-. intros rid' Hact.
    assert (isActive (recordOf s rid') = true) as Hact0.
    { unfold recordOf in *. simpl in Hact. rewrite lookup_insert in Hact.
      case_decide as Hrid; [done | done]. }
    destruct (Hatt rid' Hact0) as [o Ho]. exists o.
    apply _hasAccess_true in Ho as (_ & Hc & Hscan).
    apply _hasAccess_true. by repeat split.
  - injection Hexec as <- <-. exact Hatt.
  - injection Hexec as <- <-. exact Hatt.
  - injection Hexec as <- <-. exact Hatt.
  - injection Hexec as <- <-. exact Hatt.
  - injection Hexec as <- <-. exact Hatt.
Qed.

(** X14: in every reachable state an active record has at least one
    organization with access, so [getRecordAccess] of an active record is
    never empty: the last organization with access cannot be revoked. *)
Theorem active_record_is_attended s rid :
  reachable s → isActive (getRecord s rid) = true →
  (∃ o, hasAccess s rid o = true) ∧ getRecordAccess s rid ≠ [].
Proof.
  intros Hs Hact.
  assert (∃ o, hasAccess s rid o = true) as [o Ho].
  { revert rid Hact. induction Hs as [deployer | s [e c] _ IH]; [done |].
    unfold step. simpl.
    destruct (exec e c s) as [[ret s']|] eqn:Hexec; [| exact IH].
    by eapply attended_exec. }
  split; [by exists o |].
  apply _hasAccess_true in Ho as (_ & _ & Hscan).
  apply scanAccess_spec in Hscan as (g & Hg & Horg & Hrev).
  rewrite getRecordAccess_active. intros Hnil.
  assert (organization g ∈ activeOrganizations (accessOf s rid)) as Hin.
  { apply list_elem_of_fmap. exists g. split; [done |].
    apply list_elem_of_filter. by split. }
  rewrite Hnil in Hin. by apply elem_of_nil in Hin.
Qed.

End Attended.

(** ** The index arrays, under the collision-freeness of the hash *)

Section Indices.

Context `{Keccak256, !CollisionFree}.

Lemma Exact_exec e c s ret s' :
  Ledger s → Exact s → exec e c s = Ok (ret, s') → Exact s'.
Proof.
  intros HL HE Hexec.
  pose proof (newRecordId_fresh e) as Hfresh.
  destruct c; tx_inv Hexec.
  - injection Hexec as <- <-. split; apply HE.
  - injection Hexec as <- <-.
    destruct (batch_records e orgs s) as (Hr & Hids & Hpat & _).
    destruct (batch_frame e orgs s) as (Hacc & Horg & _).
    split; unfold patientIndex, organizationIndex, accessOf;
      rewrite ?Hr, ?Hids, ?Hpat, ?Hacc, ?Horg; apply HE.
  - injection Hexec as <- <-.
    specialize (Hfresh patient s HL).
    destruct (ledger_known s HL _ Hfresh) as (Hnone & _ & _).
    set (rid := newRecordId e patient s) in *.
    split; unfold patientIndex, organizationIndex, accessOf; simpl.
    + apply NoDup_app. split; [apply (exact_ids_NoDup s HE) |].
      split; [| apply NoDup_singleton].
      by intros rid' Hin ->%list_elem_of_singleton.
    + intros rid'. rewrite elem_of_app, list_elem_of_singleton, lookup_insert.
      case_decide as Hrid.
      * split; [done | by right].
      * rewrite (exact_ids s HE rid'). split; [by intros [? | ?] | by left].
    + intros p. rewrite default_insert. case_decide as Hp;
        [| apply (exact_patient_NoDup s HE)].
      apply NoDup_app. split; [apply (exact_patient_NoDup s HE) |].
      split; [| apply NoDup_singleton].
      intros rid' Hin ->%list_elem_of_singleton.
      destruct (exact_patient s HE _ _ Hin) as (r & Hr & _). congruence.
    + intros p rid'. rewrite default_insert, lookup_insert.
      destruct (decide (rid = rid')) as [<- | Hrid].
      * case_decide as Hp; [by eexists |].
        intros Hin. destruct (exact_patient s HE _ _ Hin) as (r & Hr & _). congruence.
      * case_decide as Hp; [| apply (exact_patient s HE)].
        intros [Hin | ->%list_elem_of_singleton]%elem_of_app; [| done].
        subst p. by apply (exact_patient s HE).
    + intros o rid'. rewrite !default_insert.
      destruct (decide (rid = rid')) as [<- | Hrid].
      * case_decide as Ho.
        -- intros _. exists (newGrant (msg_sender e) (block_timestamp e)).
           split; [| exact Ho]. apply elem_of_app. right. by left.
        -- intros Hin. destruct (exact_organization s HE _ _ Hin) as (g & Hg & Horg).
           exists g. split; [| done]. apply elem_of_app. by left.
      * case_decide as Ho; [| apply (exact_organization s HE)].
        intros [Hin | ->%list_elem_of_singleton]%elem_of_app; [| done].
        subst o. by apply (exact_organization s HE).
  - injection Hexec as <- <-.
    split; unfold patientIndex, organizationIndex, accessOf; simpl; try apply HE.
    intros o rid'. rewrite !default_insert.
    destruct (decide (rid = rid')) as [<- | Hrid].
    + case_decide as Ho.
      * intros _. exists (newGrant org (block_timestamp e)).
        split; [| exact Ho]. apply elem_of_app. right. by left.
      * intros Hin. destruct (exact_organization s HE _ _ Hin) as (g & Hg & Horg).
        exists g. split; [| done]. apply elem_of_app. by left.
    + case_decide as Ho; [| apply (exact_organization s HE)].
      intros [Hin | ->%list_elem_of_singleton]%elem_of_app; [| done].
      subst o. by apply (exact_organization s HE).
  - destruct (revokeFirst org (block_timestamp e) (accessOf s rid)) as [l'|] eqn:Hrev;
      simpl in Hexec; [| done].
    injection Hexec as <- <-.
    split; unfold patientIndex, organizationIndex, accessOf; simpl; try apply HE.
    intros o rid' Hin. destruct (exact_organization s HE _ _ Hin) as (g & Hg & Horg).
    rewrite default_insert. case_decide as Hrid; [| by exists g]. subst rid'.
    apply (list_elem_of_fmap_2 organization) in Hg.
    rewrite <- (revokeFirst_organizations _ _ _ _ Hrev) in Hg.
    apply list_elem_of_fmap in Hg as (g' & Hg' & Hin'). exists g'. split; [done |].
    congruence.
  - injection Hexec as <- <-.
    pose proof (active_stored s rid ltac:(done)) as Hstored.
    split; unfold patientIndex, organizationIndex, accessOf; simpl; try apply HE.
    + intros rid'. rewrite lookup_insert. case_decide as Hrid;
        [| apply (exact_ids s HE)].
      subst rid'. rewrite (exact_ids s HE rid), Hstored. by split.
    + intros p rid' Hin. destruct (exact_patient s HE _ _ Hin) as (r & Hr & Hp).
      rewrite lookup_insert. case_decide as Hrid; [| by exists r].
      subst rid'. eexists. split; [done |]. simpl. congruence.
  - injection Hexec as <- <-.
    pose proof (active_stored s rid ltac:(done)) as Hstored.
    split; unfold patientIndex, organizationIndex, accessOf; simpl; try apply HE.
    + intros rid'. rewrite lookup_insert. case_decide as Hrid;
        [| apply (exact_ids s HE)].
      subst rid'. rewrite (exact_ids s HE rid), Hstored. by split.
    + intros p rid' Hin. destruct (exact_patient s HE _ _ Hin) as (r & Hr & Hp).
      rewrite lookup_insert. case_decide as Hrid; [| by exists r].
      subst rid'. eexists. split; [done |]. simpl. congruence.
  - injection Hexec as <- <-. split; apply HE.
  - injection Hexec as <- <-. split; apply HE.
  - injection Hexec as <- <-. split; apply HE.
  - injection Hexec as <- <-. split; apply HE.
  - injection Hexec as <- <-. split; apply HE.
Qed.

Lemma Exact_reachable s : reachable s → Exact s.
Proof.
  induction 1 as [deployer | s [e c] Hs IH].
  - split; simpl.
    + constructor.
    + intros rid. rewrite lookup_empty. split; [by intros ?%elem_of_nil |].
      by intros [? ?].
    + intros p. constructor.
    + intros p rid. by intros ?%elem_of_nil.
    + intros o rid. by intros ?%elem_of_nil.
  - unfold step. simpl. destruct (exec e c s) as [[ret s']|] eqn:Hexec; [| done].
    eapply Exact_exec; [| done | done]. by apply Ledger_reachable.
Qed.

(** X15: in every reachable state the index arrays describe the record
    store exactly: [_allRecordIds] has no duplicates and holds the keys of
    the stored records, [getPatientRecords] has no duplicates and holds
    exactly the stored records of the patient, and [getOrganizationRecords]
    holds exactly the records whose grant list names the organization,
    revoked or not. *)
Theorem indices_are_exact s :
  reachable s →
  NoDup (_allRecordIds s)
  ∧ (∀ rid, rid ∈ _allRecordIds s ↔ is_Some (_records s !! rid))
  ∧ (∀ p, NoDup (getPatientRecords s p))
  ∧ (∀ p rid, rid ∈ getPatientRecords s p ↔
       ∃ r, _records s !! rid = Some r ∧ patientAddress r = p)
  ∧ (∀ o rid, rid ∈ getOrganizationRecords s o ↔
       ∃ g, g ∈ accessOf s rid ∧ organization g = o).
Proof.
  intros Hs. pose proof (Exact_reachable s Hs) as HE.
  split; [apply HE |]. split; [apply HE |]. split; [apply HE |]. split.
  - intros p rid. split; [apply (exact_patient s HE) |].
    intros (r & Hr & <-). by apply (Indexed_reachable s Hs rid r).
  - intros o rid. split; [apply (exact_organization s HE) |].
    intros (g & Hg & <-). by apply (stored_access s (Stored_reachable s Hs)).
Qed.

(** X16: in every reachable state [createRecord] commits exactly when the
    caller holds the organization role, the contract is not paused, the
    patient is not the zero address and both strings have 1 to 256 bytes;
    the record-id collision guard never fires. *)
Theorem createRecord_commits_iff s e patient dataHash location :
  reachable s →
  ((∃ rid s', createRecord e patient dataHash location s = Ok (rid, s')) ↔
     hasRole s ORGANIZATION_ROLE (msg_sender e) = true ∧ _paused s = false
     ∧ patient ≠ 0 ∧ boundedString dataHash ∧ boundedString location)
  ∧ createRecord e patient dataHash location s
      ≠ Reverted (Require "HealthcareDB: Record ID collision").
Proof.
  intros Hs. pose proof (Ledger_reachable s Hs) as HL.
  assert (isActive (recordOf s (newRecordId e patient s)) = false) as Hfree.
  { by rewrite (recordOf_unknown s _ HL (newRecordId_fresh e patient s HL)). }
  split; [split |].
  - intros (rid & s' & Hok). tx_inv Hok.
    split; [done |]. split; [done |].
    split; [intros ->; done |]. split; by apply validString_bounded.
  - intros (Hrole & Hrunning & Hpat & [Hh1 Hh2] & [Hl1 Hl2]).
    unfold createRecord, onlyRole, whenNotPaused, validAddress, validString, require.
    rewrite Hrole, Hrunning, Hfree. simpl.
    destruct (Z.eqb_spec patient 0); [done |]. simpl.
    destruct (Z.ltb_spec 0 (Z.of_nat (String.length dataHash))); [| lia]. simpl.
    destruct (Z.leb_spec (Z.of_nat (String.length dataHash)) MAX_STRING_LENGTH);
      [| lia]. simpl.
    destruct (Z.ltb_spec 0 (Z.of_nat (String.length location))); [| lia]. simpl.
    destruct (Z.leb_spec (Z.of_nat (String.length location)) MAX_STRING_LENGTH);
      [| lia]. simpl.
    by eexists _, _.
  - unfold createRecord, onlyRole, whenNotPaused, validAddress, validString, require.
    rewrite Hfree. simpl.
    repeat match goal with
           | |- context [if ?b then _ else _] => destruct b; simpl
           end; done.
Qed.

Lemma identity_exec e c s ret s' rid r :
  Ledger s → _records s !! rid = Some r → exec e c s = Ok (ret, s') →
  ∃ r', _records s' !! rid = Some r'
        ∧ recordId r' = recordId r ∧ patientAddress r' = patientAddress r
        ∧ createdBy r' = createdBy r ∧ timestamp r' = timestamp r.
Proof.
  intros HL Hr Hexec.
  pose proof (newRecordId_fresh e) as Hfresh.
  destruct c; tx_inv Hexec;
    try (destruct (revokeFirst _ _ _); simpl in Hexec; [| done]);
    injection Hexec as <- <-; simpl; try by exists r.
  - destruct (batch_records e orgs s) as (-> & _). by exists r.
  - destruct (ledger_known s HL _ (Hfresh patient s HL)) as (Hnone & _).
    rewrite lookup_insert_ne; [by exists r | congruence].
  - rewrite lookup_insert. case_decide as Hrid; [| by exists r].
    eexists. split; [done |]. unfold recordOf. by rewrite Hrid, Hr.
  - rewrite lookup_insert. case_decide as Hrid; [| by exists r].
    eexists. split; [done |]. unfold recordOf. by rewrite Hrid, Hr.
Qed.

Lemma identity_run s rid r trace :
  Ledger s → _records s !! rid = Some r →
  ∃ r', _records (run s trace) !! rid = Some r'
        ∧ recordId r' = recordId r ∧ patientAddress r' = patientAddress r
        ∧ createdBy r' = createdBy r ∧ timestamp r' = timestamp r.
Proof.
  revert s r. induction trace as [|[e c] trace IH]; intros s r HL Hr; simpl.
  - by exists r.
  - unfold step. simpl.
    destruct (exec e c s) as [[ret s']|] eqn:Hexec; [| by apply IH].
    destruct (identity_exec e c s ret s' rid r HL Hr Hexec)
      as (r1 & Hr1 & <- & <- & <- & <-).
    apply IH; [by eapply Ledger_exec | done].
Qed.

(** X17: a stored record is never deleted and its identity never changes:
    after any further calls the record is still stored under its id with the
    same [recordId], patient, creator and creation time. *)
Theorem record_identity_is_permanent s rid r trace :
  reachable s → _records s !! rid = Some r →
  ∃ r', _records (run s trace) !! rid = Some r'
        ∧ recordId r' = recordId r ∧ patientAddress r' = patientAddress r
        ∧ createdBy r' = createdBy r ∧ timestamp r' = timestamp r.
Proof. intros Hs. apply identity_run. by apply Ledger_reachable. Qed.

End Indices.

(** ** When a write commits *)

Section Commits.

Context `{Keccak256} `{!CollisionFree}.

(** X18: a record stored in a reachable state keeps its creator's right
    to deactivate it.  After any further calls, [deactivateRecord] commits
    exactly when the contract is not paused, the record is active and the
    caller is the account that created the record or holds the admin role at
    that time; no organization role and no access is asked of the caller.
    The other callers of an active record are rejected with the
    creator-or-admin reason. *)
Theorem deactivateRecord_commits_iff s rid r trace e :
  reachable s → _records s !! rid = Some r →
  let s1 := run s trace in
  ((∃ s2, deactivateRecord e rid s1 = Ok s2) ↔
     _paused s1 = false ∧ isActive (getRecord s1 rid) = true
     ∧ (msg_sender e = createdBy r
        ∨ hasRole s1 ADMIN_ROLE (msg_sender e) = true))
  ∧ (_paused s1 = false → isActive (getRecord s1 rid) = true →
     msg_sender e ≠ createdBy r →
     hasRole s1 ADMIN_ROLE (msg_sender e) = false →
     deactivateRecord e rid s1 =
       Reverted (Require "HealthcareDB: Only creator or admin can deactivate")).
Proof.
  intros Hs Hr s1. unfold getRecord.
  destruct (identity_run s rid r trace (Ledger_reachable s Hs) Hr)
    as (r1 & Hr1 & _ & _ & Hcreator & _).
  fold s1 in Hr1.
  assert (createdBy (recordOf s1 rid) = createdBy r) as Hby.
  { unfold recordOf. by rewrite Hr1. }
  unfold deactivateRecord, whenNotPaused, recordExists, require.
  destruct (_paused s1); simpl;
    [split; [split |]; [by intros [? ?] | by intros [? ?] | done] |].
  destruct (isActive (recordOf s1 rid)); simpl;
    [| split; [split |]; [by intros [? ?] | by intros (_ & ? & _) | done]].
  rewrite Hby.
  destruct (Z.eqb_spec (createdBy r) (msg_sender e)) as [Hc | Hc]; simpl.
  - split; [| by intros _ _ ?]. split; [| by eexists].
    intros _. split; [done |]. split; [done |]. by left.
  - destruct (hasRole s1 ADMIN_ROLE (msg_sender e)) eqn:Hrole; simpl.
    + split; [| done].
      split; [| by eexists]. intros _. split; [done |]. split; [done |].
      by right.
    + split; [| done]. split; [by intros [? ?] |].
      intros (_ & _ & [Heq | Heq]); [congruence | done].
Qed.

(** X19: in any state the three writes guarded by an access check commit
    exactly when the contract is not paused, the caller holds the
    organization role and has access to the record, and: for [updateRecord],
    both strings have 1 to 256 bytes; for [grantAccess], the target is not the
    zero address, holds the organization role and has no access yet; for
    [revokeAccess], the target is not the zero address, has access and is not
    the caller.  Access does not imply the role, which [revokeRole] and
    [renounceRole] take away; the activity of the record follows from the
    caller's access. *)
Theorem guarded_writes_commit_iff s e rid :
  (∀ dataHash location,
     (∃ s', updateRecord e rid dataHash location s = Ok s') ↔
       _paused s = false
       ∧ hasRole s ORGANIZATION_ROLE (msg_sender e) = true
       ∧ hasAccess s rid (msg_sender e) = true
       ∧ boundedString dataHash ∧ boundedString location)
  ∧ (∀ org,
     (∃ s', grantAccess e rid org s = Ok s') ↔
       _paused s = false
       ∧ hasRole s ORGANIZATION_ROLE (msg_sender e) = true
       ∧ hasAccess s rid (msg_sender e) = true
       ∧ org ≠ 0 ∧ hasRole s ORGANIZATION_ROLE org = true
       ∧ hasAccess s rid org = false)
  ∧ (∀ org,
     (∃ s', revokeAccess e rid org s = Ok s') ↔
       _paused s = false
       ∧ hasRole s ORGANIZATION_ROLE (msg_sender e) = true
       ∧ hasAccess s rid (msg_sender e) = true
       ∧ org ≠ 0 ∧ hasAccess s rid org = true ∧ org ≠ msg_sender e).
Proof.
  unfold hasAccess.
  assert (∀ o, _hasAccess s rid o = true → isActive (recordOf s rid) = true)
    as Himplied.
  { intros o Ho. by apply _hasAccess_true in Ho as (Hact & _ & _). }
  split; [| split].
  - intros dataHash location. split.
    + intros [s' Hok]. tx_inv Hok.
      split; [done |]. split; [done |]. split; [done |].
      split; by apply validString_bounded.
    + intros (Hrunning & Hrole & Hcaller & [Hh1 Hh2] & [Hl1 Hl2]).
      pose proof (Himplied _ Hcaller) as Hact.
      unfold updateRecord, onlyRole, whenNotPaused, recordExists, validString, require.
      rewrite Hrole, Hrunning, Hact, Hcaller. simpl.
      destruct (Z.ltb_spec 0 (Z.of_nat (String.length dataHash))); [| lia]. simpl.
      destruct (Z.leb_spec (Z.of_nat (String.length dataHash)) MAX_STRING_LENGTH);
        [| lia]. simpl.
      destruct (Z.ltb_spec 0 (Z.of_nat (String.length location))); [| lia]. simpl.
      destruct (Z.leb_spec (Z.of_nat (String.length location)) MAX_STRING_LENGTH);
        [| lia]. simpl.
      by eexists.
  - intros org. split.
    + intros [s' Hok].
      assert (org ≠ 0) as Hnz by (intros ->; by tx_inv Hok).
      tx_inv Hok.
      split; [done |]. split; [done |]. split; [done |]. split; [done |].
      split; [done | by apply negb_true_iff].
    + intros (Hrunning & Hrole & Hcaller & Hnz & Horg & Hnone).
      destruct (grantAccess_succeeds e rid org s) as [s' Hok]; try done.
      by exists s'.
  - intros org. split.
    + intros [s' Hok].
      assert (org ≠ 0) as Hnz by (intros ->; by tx_inv Hok).
      tx_inv Hok.
      split; [done |]. split; [done |]. split; [done |]. split; [done |].
      split; [done |]. intros ->. by rewrite Z.eqb_refl in *.
    + intros (Hrunning & Hrole & Hcaller & Hnz & Horg & Hne).
      apply revokeAccess_succeeds; done.
Qed.

End Commits.

(** * Properties of the older contract variant *)

Ltac legacy_inv H :=
  unfold Legacy.createRecord, Legacy.grantAccess, Legacy.revokeAccess,
    Legacy.updateRecord, Legacy.registerOrganization, Legacy.onlyRole, require in H;
  simpl in H; tx_guards H.

Lemma legacy_scanAccess_app o l1 l2 :
  Legacy.scanAccess o (l1 ++ l2) = Legacy.scanAccess o l1 || Legacy.scanAccess o l2.
Proof.
  induction l1 as [|g l1 IH]; simpl; [done |].
  by destruct (Legacy.grantsNow o g).
Qed.

Lemma legacy_revokeFirstEntry_is_Some o l :
  (∃ g, g ∈ l ∧ Legacy.organization g = o) → is_Some (Legacy.revokeFirstEntry o l).
Proof.
  induction l as [|g l IH]; simpl.
  - by intros (g & ?%elem_of_nil & _).
  - intros (g' & Hin & Horg). destruct (Z.eqb_spec (Legacy.organization g) o);
      [by eexists |].
    apply elem_of_cons in Hin as [-> | Hin]; [done |].
    destruct IH as [l' ->]; [by exists g' | by eexists].
Qed.

Lemma legacy_revokeFirstEntry_again o l l' :
  Legacy.revokeFirstEntry o l = Some l' → Legacy.revokeFirstEntry o l' = Some l'.
Proof.
  revert l'. induction l as [|g l IH]; simpl; intros l'; [done |].
  destruct (Z.eqb_spec (Legacy.organization g) o) as [Horg | Horg].
  - intros [= <-]. simpl. by rewrite Horg, Z.eqb_refl.
  - destruct (Legacy.revokeFirstEntry o l) as [l0|]; simpl; [| done].
    intros [= <-]. simpl. destruct (Z.eqb_spec (Legacy.organization g) o); [done |].
    by rewrite (IH l0).
Qed.

Lemma legacy_revokeFirstEntry_app o l l' k :
  Legacy.revokeFirstEntry o l = Some l' →
  Legacy.revokeFirstEntry o (l ++ k) = Some (l' ++ k).
Proof.
  revert l'. induction l as [|g l IH]; simpl; intros l'; [done |].
  destruct (Legacy.organization g =? o).
  - by intros [= <-].
  - destruct (Legacy.revokeFirstEntry o l) as [l0|]; simpl; [| done].
    intros [= <-]. by rewrite (IH l0).
Qed.

Lemma legacy_revokeAccess_storage e rid org s s' :
  Legacy.revokeAccess e rid org s = Ok s' →
  Legacy.records s' = Legacy.records s
  ∧ Legacy.accessOf s' rid =
      default (Legacy.accessOf s rid)
        (Legacy.revokeFirstEntry org (Legacy.accessOf s rid)).
Proof.
  intros Hok. legacy_inv Hok.
  destruct (Legacy.revokeFirstEntry org (Legacy.accessOf s rid)) as [l'|];
    injection Hok as <-; [| done].
  split; [done |]. unfold Legacy.accessOf at 1. simpl. by rewrite lookup_insert_eq.
Qed.

Lemma legacy_grantAccess_storage e rid org s s' :
  Legacy.grantAccess e rid org s = Ok s' →
  Legacy.records s' = Legacy.records s
  ∧ Legacy.accessOf s' rid =
      Legacy.accessOf s rid
        ++ [{| Legacy.organization := org; Legacy.grantedAt := block_timestamp e;
               Legacy.isRevoked := false |}]
  ∧ Legacy.isActive (default Legacy.zeroRecord (Legacy.records s !! rid)) = true.
Proof.
  intros Hok. legacy_inv Hok. injection Hok as <-.
  split; [done |]. split; [| done].
  unfold Legacy.accessOf at 1. simpl. by rewrite lookup_insert_eq.
Qed.

Section LegacyFacts.

Context `{Keccak256}.

(** X20: in the older contract the record id does not depend on a counter:
    a second [createRecord] by the same organization for the same patient
    in the same block returns the same id, replaces the stored record, and
    is still counted and granted as a new record. *)
Theorem legacy_same_block_same_id e patient dataHash location dataHash2 location2
    s rid s1 :
  Legacy.createRecord e patient dataHash location s = Ok (rid, s1) →
  dataHash2 ≠ "" →
  ∃ s2,
    Legacy.createRecord e patient dataHash2 location2 s1 = Ok (rid, s2)
    ∧ Legacy.encryptedDataHash (Legacy.recordOf s2 rid) = dataHash2
    ∧ Legacy.dataLocation (Legacy.recordOf s2 rid) = location2
    ∧ Legacy.allRecordIds s2 = Legacy.allRecordIds s ++ [rid; rid]
    ∧ Legacy.getTotalRecordCount s2 = Legacy.getTotalRecordCount s + 2
    ∧ length (Legacy.accessOf s2 rid) = S (S (length (Legacy.accessOf s rid))).
Proof.
  intros Hok Hhash. legacy_inv Hok. injection Hok as <- <-.
  unfold Legacy.createRecord, Legacy.onlyRole, require.
  change (Legacy.hasRole _ ORGANIZATION_ROLE (msg_sender e))
    with (Legacy.hasRole s ORGANIZATION_ROLE (msg_sender e)).
  rewrite Hguard1, Hguard0. simpl.
  assert ((0 <? Z.of_nat (String.length dataHash2)) = true) as ->.
  { destruct dataHash2; [done |]. apply Z.ltb_lt. simpl String.length. lia. }
  simpl. eexists. split; [done |].
  unfold Legacy.recordOf, Legacy.accessOf, Legacy.getTotalRecordCount. simpl.
  rewrite !lookup_insert_eq. simpl. rewrite <- !app_assoc. simpl.
  split; [done |]. split; [done |]. split; [done |].
  rewrite !length_app. simpl. split; lia.
Qed.

Lemma legacy_hasAccess_storage s s' rid o :
  Legacy.records s' = Legacy.records s →
  Legacy.accessOf s' rid = Legacy.accessOf s rid →
  Legacy.hasAccess s' rid o = Legacy.hasAccess s rid o.
Proof.
  intros Hr Ha. unfold Legacy.hasAccess, Legacy.recordOf. by rewrite Hr, Ha.
Qed.

(** X21: in the older contract [revokeAccess] marks the first entry of the
    organization whether or not it is already revoked.  Once an organization
    that had an entry was revoked and granted access again, it has access,
    and a further [revokeAccess] by any caller that holds the organization
    role and has access (the account that granted again is one) commits, but
    changes no entry, and the organization keeps its access. *)
Theorem legacy_regrant_cannot_be_revoked e1 e2 rid org s s1 s2 :
  (∃ g, g ∈ Legacy.accessOf s rid ∧ Legacy.organization g = org) →
  Legacy.revokeAccess e1 rid org s = Ok s1 →
  Legacy.grantAccess e2 rid org s1 = Ok s2 →
  Legacy.hasAccess s2 rid org = true
  ∧ Legacy.hasRole s2 ORGANIZATION_ROLE (msg_sender e2) = true
  ∧ Legacy.hasAccess s2 rid (msg_sender e2) = true
  ∧ ∀ e3,
      Legacy.hasRole s2 ORGANIZATION_ROLE (msg_sender e3) = true →
      Legacy.hasAccess s2 rid (msg_sender e3) = true →
      ∃ s3, Legacy.revokeAccess e3 rid org s2 = Ok s3
            ∧ Legacy.hasAccess s3 rid org = true
            ∧ Legacy.accessOf s3 rid = Legacy.accessOf s2 rid.
Proof.
  intros Hentry Hrev1 Hgrant.
  destruct (legacy_revokeFirstEntry_is_Some org _ Hentry) as [l1 Hl1].
  destruct (legacy_revokeAccess_storage _ _ _ _ _ Hrev1) as [Hr1 Ha1].
  destruct (legacy_grantAccess_storage _ _ _ _ _ Hgrant) as (Hr2 & Ha2 & Hact).
  rewrite Hl1 in Ha1. simpl in Ha1.
  assert (Legacy.hasAccess s2 rid org = true) as Horg.
  { unfold Legacy.hasAccess, Legacy.recordOf. rewrite Hr2, Hact, Ha2. simpl.
    rewrite legacy_scanAccess_app. simpl.
    unfold Legacy.grantsNow. simpl. rewrite Z.eqb_refl. apply orb_true_r. }
  assert (Legacy.hasRole s2 ORGANIZATION_ROLE (msg_sender e2) = true
          ∧ Legacy.hasAccess s2 rid (msg_sender e2) = true) as [Hrole2 Hacc2].
  { assert (Legacy.hasRole s1 ORGANIZATION_ROLE (msg_sender e2) = true
            ∧ Legacy.hasAccess s1 rid (msg_sender e2) = true
            ∧ Legacy._roles s2 = Legacy._roles s1) as (Hrole1 & Hacc1 & Hroles).
    { clear -Hgrant. legacy_inv Hgrant. by injection Hgrant as <-. }
    split; [unfold Legacy.hasRole in *; by rewrite Hroles |].
    unfold Legacy.hasAccess, Legacy.recordOf in *. rewrite Hr2, Hact, Ha2.
    rewrite Hact in Hacc1. simpl in *.
    by rewrite legacy_scanAccess_app, Hacc1. }
  split; [done |]. split; [done |]. split; [done |].
  intros e3 Hrole3 Hacc3.
  assert (Legacy.revokeFirstEntry org (Legacy.accessOf s2 rid)
          = Some (Legacy.accessOf s2 rid)) as Hsame.
  { rewrite Ha2, Ha1. apply legacy_revokeFirstEntry_app.
    by eapply legacy_revokeFirstEntry_again. }
  assert (∃ s3, Legacy.revokeAccess e3 rid org s2 = Ok s3) as [s3 Hrev2].
  { unfold Legacy.revokeAccess, Legacy.onlyRole, require.
    unfold Legacy.recordOf. rewrite Hrole3, Hr2, Hact, Hacc3, Hsame. simpl.
    by eexists. }
  exists s3. split; [done |].
  destruct (legacy_revokeAccess_storage _ _ _ _ _ Hrev2) as [Hr3 Ha3].
  rewrite Hsame in Ha3. simpl in Ha3.
  split; [| done]. by rewrite (legacy_hasAccess_storage s2 s3 rid org).
Qed.

(** X22: in the older contract an organization may revoke itself: when the
    creator of a freshly created record does so, the record stays active
    with an empty access list, and no [grantAccess], [revokeAccess] or
    [updateRecord] on it can commit for any caller. *)
Theorem legacy_creator_can_orphan_record e patient dataHash location s rid s1 :
  Legacy.accessOf s rid = [] →
  Legacy.createRecord e patient dataHash location s = Ok (rid, s1) →
  ∃ s2,
    Legacy.revokeAccess e rid (msg_sender e) s1 = Ok s2
    ∧ Legacy.isActive (Legacy.recordOf s2 rid) = true
    ∧ Legacy.getRecordAccess s2 rid = []
    ∧ (∀ o, Legacy.hasAccess s2 rid o = false)
    ∧ ∀ e' org dataHash' location',
        (∃ r, Legacy.grantAccess e' rid org s2 = Reverted r)
        ∧ (∃ r, Legacy.revokeAccess e' rid org s2 = Reverted r)
        ∧ (∃ r, Legacy.updateRecord e' rid dataHash' location' s2 = Reverted r).
Proof.
  intros Hfresh Hok.
  assert (Legacy.hasRole s1 ORGANIZATION_ROLE (msg_sender e) = true
          ∧ Legacy.isActive (Legacy.recordOf s1 rid) = true
          ∧ Legacy.accessOf s1 rid =
              [{| Legacy.organization := msg_sender e;
                  Legacy.grantedAt := block_timestamp e;
                  Legacy.isRevoked := false |}]) as (Hrole & Hact & Hacc).
  { legacy_inv Hok. injection Hok as <- <-.
    unfold Legacy.recordOf, Legacy.accessOf in *. simpl.
    rewrite !lookup_insert_eq, Hfresh. done. }
  assert (∃ s2, Legacy.revokeAccess e rid (msg_sender e) s1 = Ok s2) as [s2 Hrev].
  { unfold Legacy.revokeAccess, Legacy.onlyRole, require, Legacy.hasAccess.
    rewrite Hrole, Hact, Hacc. simpl. unfold Legacy.grantsNow. simpl.
    rewrite Z.eqb_refl. simpl. by eexists. }
  destruct (legacy_revokeAccess_storage _ _ _ _ _ Hrev) as [Hr2 Ha2].
  rewrite Hacc in Ha2. simpl in Ha2. rewrite Z.eqb_refl in Ha2. simpl in Ha2.
  assert (∀ o, Legacy.hasAccess s2 rid o = false) as Hnone.
  { intros o. unfold Legacy.hasAccess. rewrite Ha2. simpl.
    unfold Legacy.grantsNow. simpl. rewrite andb_false_r.
    by destruct (negb _). }
  exists s2. split; [done |].
  split; [unfold Legacy.recordOf in *; by rewrite Hr2 |].
  split; [unfold Legacy.getRecordAccess; by rewrite Ha2 |].
  split; [done |].
  intros e' org dataHash' location'.
  unfold Legacy.grantAccess, Legacy.revokeAccess, Legacy.updateRecord,
    Legacy.onlyRole, require.
  rewrite (Hnone (msg_sender e')).
  repeat split;
    repeat match goal with
           | |- context [if ?b then _ else _] => destruct b; simpl
           end; by eexists.
Qed.

End LegacyFacts.

(** * Properties of the front end's string helpers *)

Lemma dropWhiteSpace_snoc s c :
  ContractUtils.isWhiteSpace c = false → ContractUtils.dropWhiteSpace (s ++ [c]) ≠ [].
Proof.
  intros Hc. induction s as [|c' s IH]; simpl.
  - by rewrite Hc.
  - by destruct (ContractUtils.isWhiteSpace c').
Qed.

Lemma trim_keeps_visible c s :
  ContractUtils.isWhiteSpace c = false → ContractUtils.trim (c :: s) ≠ [].
Proof.
  intros Hc. unfold ContractUtils.trim. simpl. rewrite Hc.
  rewrite reverse_cons. intros Hnil.
  apply (f_equal reverse) in Hnil. rewrite reverse_involutive in Hnil.
  by apply (dropWhiteSpace_snoc (reverse s) c Hc).
Qed.

Lemma forallb_Forall_true {A} (f : A → bool) l :
  forallb f l = true ↔ Forall (λ x, f x = true) l.
Proof.
  induction l as [|x l IH]; simpl; [by split |].
  rewrite andb_true_iff, IH, Forall_cons. done.
Qed.

(** X23: [validateRecordId] accepts exactly the strings made of ["0x"]
    followed by 64 hexadecimal digits; the emptiness and white space test in
    front of the pattern never changes the answer, and an id padded with
    white space is rejected, not trimmed. *)
Theorem validateRecordId_accepts_exactly recordId :
  ContractUtils.validateRecordId recordId = ContractUtils.hexPattern_test recordId
  ∧ (ContractUtils.validateRecordId recordId = true ↔
       ∃ digits, recordId = 48%N :: 120%N :: digits ∧ length digits = 64%nat
                 ∧ Forall (λ c, ContractUtils.isHexDigit c = true) digits)
  ∧ (ContractUtils.validateRecordId recordId = true →
       ContractUtils.trim recordId = recordId ∧ length recordId = 66%nat).
Proof.
  assert (ContractUtils.hexPattern_test recordId = true ↔
          ∃ digits, recordId = 48%N :: 120%N :: digits ∧ length digits = 64%nat
                    ∧ Forall (λ c, ContractUtils.isHexDigit c = true) digits) as Hpat.
  { destruct recordId as [|c0 [|cx digits]]; simpl;
      [split; [done | by intros (? & ? & _)] .. |].
    rewrite !andb_true_iff, !N.eqb_eq, Nat.eqb_eq, forallb_Forall_true.
    split.
    - intros [[[-> ->] Hlen] Hhex]. by exists digits.
    - by intros (digits' & [= -> -> ->] & Hlen & Hhex). }
  assert (ContractUtils.validateRecordId recordId
          = ContractUtils.hexPattern_test recordId) as Hsame.
  { unfold ContractUtils.validateRecordId, ContractUtils.falsy.
    destruct recordId as [|c s]; [done |]. simpl.
    destruct (ContractUtils.hexPattern_test (c :: s)) eqn:Htest;
      [| by destruct (_ =? _)%nat].
    destruct (proj1 Hpat eq_refl) as (digits & [= -> ->] & _).
    pose proof (trim_keeps_visible 48%N (120%N :: digits) eq_refl) as Hvis.
    destruct (ContractUtils.trim _); [done | done]. }
  split; [exact Hsame |]. split; [by rewrite Hsame |].
  rewrite Hsame, Hpat. intros (digits & -> & Hlen & Hhex). split; [| simpl; lia].
  assert (∀ s : list N, Forall (λ c, ContractUtils.isWhiteSpace c = false) s →
                        s ≠ [] → ContractUtils.trim s = s) as Htrim.
  { intros s Hs Hne. unfold ContractUtils.trim.
    assert (∀ t : list N, Forall (λ c, ContractUtils.isWhiteSpace c = false) t →
                          ContractUtils.dropWhiteSpace t = t) as Hdrop.
    { intros [|c t] Ht; [done |]. simpl. by rewrite (Forall_inv Ht). }
    rewrite (Hdrop s Hs), Hdrop; [apply reverse_involutive |].
    by apply Forall_reverse. }
  apply Htrim; [| done].
  constructor; [done |]. constructor; [done |].
  eapply Forall_impl; [exact Hhex |]. intros c Hc.
  unfold ContractUtils.isHexDigit, ContractUtils.isWhiteSpace in *.
  apply not_true_is_false. intros Hws.
  rewrite ?orb_true_iff, ?andb_true_iff, ?N.leb_le, ?N.eqb_eq in Hc.
  rewrite ?orb_true_iff, ?andb_true_iff, ?N.leb_le, ?N.eqb_eq in Hws. lia.
Qed.

Lemma slice_head (s : list N) (n : nat) :
  (n ≤ length s)%nat → ContractUtils.slice s 0 (Some (Z.of_nat n)) = take n s.
Proof.
  intros Hn. unfold ContractUtils.slice. simpl.
  destruct (Z.ltb_spec (Z.of_nat n) 0); [lia |].
  rewrite (Z.min_l 0), (Z.min_l (Z.of_nat n)) by lia. simpl.
  f_equal. lia.
Qed.

Lemma slice_tail (s : list N) (n : nat) :
  (0 < n ≤ length s)%nat →
  ContractUtils.slice s (- Z.of_nat n) None = drop (length s - n) s.
Proof.
  intros Hn. unfold ContractUtils.slice.
  destruct (Z.ltb_spec (- Z.of_nat n) 0); [| lia].
  rewrite Z.max_l by lia.
  replace (Z.to_nat (Z.of_nat (length s) + - Z.of_nat n)) with (length s - n)%nat by lia.
  apply take_ge. rewrite length_drop. lia.
Qed.

Lemma ellipsis_stable (s : list N) (h t : nat) :
  (h ≤ length s)%nat → (t ≤ length s)%nat →
  let r := take h s ++ ContractUtils.dots ++ drop (length s - t) s in
  length r = (h + 3 + t)%nat
  ∧ take h r = take h s
  ∧ drop (length r - t) r = drop (length s - t) s.
Proof.
  intros Hh Ht r.
  assert (length r = (h + 3 + t)%nat) as Hlen.
  { unfold r. rewrite !length_app, length_take, length_drop. simpl. lia. }
  split; [done |]. split.
  - unfold r. rewrite take_app_le by (rewrite length_take; lia).
    apply take_ge. rewrite length_take. lia.
  - rewrite Hlen. unfold r. rewrite drop_app_ge by (rewrite length_take; lia).
    rewrite length_take. replace (h + 3 + t - t - h `min` length s)%nat with 3%nat by lia.
    done.
Qed.

(** X24: [formatAddress] returns a string shorter than 10 code units
    unchanged; any longer string becomes its first 6 code units, three dots
    and its last 4, always 13 code units long (so strings of 10 to 12 code
    units get longer); formatting twice changes nothing more. *)
Theorem formatAddress_shape (address : list N) :
  ((length address < 10)%nat → ContractUtils.formatAddress address = address)
  ∧ ((10 ≤ length address)%nat →
       ContractUtils.formatAddress address
         = take 6 address ++ ContractUtils.dots ++ drop (length address - 4) address
       ∧ length (ContractUtils.formatAddress address) = 13%nat)
  ∧ ContractUtils.formatAddress (ContractUtils.formatAddress address)
      = ContractUtils.formatAddress address.
Proof.
  assert (∀ s : list N, (10 ≤ length s)%nat →
            ContractUtils.formatAddress s
              = take 6 s ++ ContractUtils.dots ++ drop (length s - 4) s) as Hlong.
  { intros s Hs. unfold ContractUtils.formatAddress, ContractUtils.falsy.
    destruct (Nat.eqb_spec (length s) 0); [lia |].
    destruct (Nat.ltb_spec (length s) 10); [lia |]. simpl.
    change (Some 6%Z) with (Some (Z.of_nat 6)).
    change (-4)%Z with (- Z.of_nat 4)%Z.
    by rewrite (slice_head s 6), (slice_tail s 4) by lia. }
  assert (∀ s : list N, (length s < 10)%nat → ContractUtils.formatAddress s = s)
    as Hshort.
  { intros s Hs. unfold ContractUtils.formatAddress.
    destruct (Nat.ltb_spec (length s) 10); [| lia]. by rewrite orb_true_r. }
  split; [apply Hshort |].
  destruct (Nat.lt_ge_cases (length address) 10) as [Hs | Hl].
  - split; [lia |]. by rewrite !(Hshort address Hs).
  - destruct (ellipsis_stable address 6 4) as (Hlen & Hhead & Htail); [lia | lia |].
    cbv zeta in Hlen, Hhead, Htail. rewrite (Hlong address Hl).
    split; [intros _; split; [done | by rewrite Hlen] |].
    rewrite Hlong by (rewrite Hlen; lia). by rewrite Hhead, Htail.
Qed.

(** X25: [formatRecordId] returns a string shorter than 10 code units
    unchanged; any longer string becomes its first 10 code units, three dots
    and its last 8, always 21 code units long (so strings of 10 to 20 code
    units get longer); formatting twice changes nothing more. *)
Theorem formatRecordId_shape (recordId : list N) :
  ((length recordId < 10)%nat → ContractUtils.formatRecordId recordId = recordId)
  ∧ ((10 ≤ length recordId)%nat →
       ContractUtils.formatRecordId recordId
         = take 10 recordId ++ ContractUtils.dots
             ++ drop (length recordId - 8) recordId
       ∧ length (ContractUtils.formatRecordId recordId) = 21%nat)
  ∧ ContractUtils.formatRecordId (ContractUtils.formatRecordId recordId)
      = ContractUtils.formatRecordId recordId.
Proof.
  assert (∀ s : list N, (10 ≤ length s)%nat →
            ContractUtils.formatRecordId s
              = take 10 s ++ ContractUtils.dots ++ drop (length s - 8) s) as Hlong.
  { intros s Hs. unfold ContractUtils.formatRecordId, ContractUtils.falsy.
    destruct (Nat.eqb_spec (length s) 0); [lia |].
    destruct (Nat.ltb_spec (length s) 10); [lia |]. simpl.
    change (Some 10%Z) with (Some (Z.of_nat 10)).
    change (-8)%Z with (- Z.of_nat 8)%Z.
    by rewrite (slice_head s 10), (slice_tail s 8) by lia. }
  assert (∀ s : list N, (length s < 10)%nat → ContractUtils.formatRecordId s = s)
    as Hshort.
  { intros s Hs. unfold ContractUtils.formatRecordId.
    destruct (Nat.ltb_spec (length s) 10); [| lia]. by rewrite orb_true_r. }
  split; [apply Hshort |].
  destruct (Nat.lt_ge_cases (length recordId) 10) as [Hs | Hl].
  - split; [lia |]. by rewrite !(Hshort recordId Hs).
  - destruct (ellipsis_stable recordId 10 8) as (Hlen & Hhead & Htail); [lia | lia |].
    cbv zeta in Hlen, Hhead, Htail. rewrite (Hlong recordId Hl).
    split; [intros _; split; [done | by rewrite Hlen] |].
    rewrite Hlong by (rewrite Hlen; lia). by rewrite Hhead, Htail.
Qed.

(** * The further properties on explicit transactions *)

Lemma reachable_revokedState : reachable revokedState.
Proof. apply reachable_run, reachable_sharedState. Qed.

Lemma setupTrace_own_calls :
  Forall (λ tx : Env * Call, isRoleAdministration tx.2 = false) setupTrace.
Proof. by repeat constructor. Qed.

Lemma reachable_renouncedState : reachable renouncedState.
Proof. apply reachable_run, reachable_sharedState. Qed.

(** X1 after the two registrations and the creation of [rid0]. *)
Lemma registry_matches_roles_witness :
  Forall (λ tx : Env * Call, isRoleAdministration tx.2 = false) setupTrace
  ∧ getAllOrganizations setupState = [orgA; orgB]
  ∧ (0 ∉ getAllOrganizations setupState)
  ∧ NoDup (getAllOrganizations setupState)
  ∧ (∀ a, a ∈ getAllOrganizations setupState ↔
          hasRole setupState ORGANIZATION_ROLE a = true).
Proof.
  split; [apply setupTrace_own_calls |]. split; [by vm_compute |].
  destruct (@registry_matches_roles injectiveHash admin0 setupTrace)
    as [Hzero Hown].
  split; [exact Hzero |]. exact (Hown setupTrace_own_calls).
Defined.

(** The restriction of X1 cannot be dropped: once the admin has revoked the
    organization role of [orgA] with the inherited [revokeRole], [orgA] is
    still listed, and registering it again lists it twice. *)
Remark registry_after_revokeRole :
  let revokedRole :=
    @run injectiveHash registeredA
      [ tx admin0 11 (RevokeRole ORGANIZATION_ROLE orgA) ] in
  getAllOrganizations revokedRole = [orgA]
  ∧ hasRole revokedRole ORGANIZATION_ROLE orgA = false
  ∧ getAllOrganizations
      (@run injectiveHash revokedRole [ tx admin0 12 (RegisterOrganization orgA) ])
    = [orgA; orgA].
Proof. by vm_compute. Qed.

(** X2 for the record [rid0], after [orgC] gave up its role. *)
Lemma stored_record_well_formed_witness :
  reachable renouncedState
  ∧ _records renouncedState !! rid0 = Some (recordOf renouncedState rid0)
  ∧ recordId (recordOf renouncedState rid0) = rid0
  ∧ patientAddress (recordOf renouncedState rid0) ≠ 0
  ∧ boundedString (encryptedDataHash (recordOf renouncedState rid0))
  ∧ boundedString (dataLocation (recordOf renouncedState rid0))
  ∧ rid0 ∈ getOrganizationRecords renouncedState
             (createdBy (recordOf renouncedState rid0)).
Proof.
  assert (_records renouncedState !! rid0 = Some (recordOf renouncedState rid0))
    as Hr by by vm_compute.
  split; [apply reachable_renouncedState |]. split; [exact Hr |].
  exact (@stored_record_well_formed injectiveHash renouncedState rid0 _
           reachable_renouncedState Hr).
Defined.

(** X3 for [orgC], which was granted access to [rid0] and then gave up its
    organization role. *)
Lemma access_implies_listed_witness :
  reachable renouncedState
  ∧ hasAccess renouncedState rid0 orgC = true
  ∧ hasRole renouncedState ORGANIZATION_ROLE orgC = false
  ∧ rid0 ∈ getOrganizationRecords renouncedState orgC.
Proof.
  assert (hasAccess renouncedState rid0 orgC = true) as Hacc by by vm_compute.
  split; [apply reachable_renouncedState |]. split; [exact Hacc |].
  split; [by vm_compute |].
  exact (@access_implies_listed injectiveHash renouncedState rid0 orgC
           reachable_renouncedState Hacc).
Defined.

(** X4 after the two registrations and the creation of [rid0]. *)
Lemma admin_is_deployer_witness :
  Forall (λ tx : Env * Call, isRoleAdministration tx.2 = false) setupTrace
  ∧ ∀ a, hasRole setupState ADMIN_ROLE a = true ↔ a = admin0.
Proof.
  split; [apply setupTrace_own_calls |]. intros a.
  exact (proj2 (@admin_is_deployer injectiveHash admin0 setupTrace a
                  setupTrace_own_calls)).
Defined.

(** X5 at the state where [rid0] was shared. *)
Lemma log_matches_indices_witness :
  reachable sharedState
  ∧ createdInLog (_events sharedState) = _allRecordIds sharedState
  ∧ registeredInLog (_events sharedState) = getAllOrganizations sharedState.
Proof.
  split; [apply reachable_sharedState |].
  exact (log_matches_indices sharedState reachable_sharedState).
Defined.

(** X9: [orgA] revokes [orgB]. *)
Lemma revokeAccess_marks_one_entry_witness :
  revokeAccess (envOf orgA 20) rid0 orgB sharedState = Ok revokedState
  ∧ hasAccess revokedState rid0 (msg_sender (envOf orgA 20)) = true
  ∧ _records revokedState = _records sharedState.
Proof.
  assert (revokeAccess (envOf orgA 20) rid0 orgB sharedState = Ok revokedState)
    as Hok by by vm_compute.
  split; [exact Hok |].
  pose proof (revokeAccess_marks_one_entry (envOf orgA 20) rid0 orgB sharedState
                revokedState Hok) as (_ & _ & Hcaller & Hrec & _).
  by split.
Defined.

(** X10: [orgA] grants [orgB] access. *)
Lemma grantAccess_once_witness :
  grantAccess (envOf orgA 13) rid0 orgB setupState = Ok sharedState
  ∧ hasAccess sharedState rid0 orgB = true.
Proof.
  assert (grantAccess (envOf orgA 13) rid0 orgB setupState = Ok sharedState)
    as Hok by by vm_compute.
  split; [exact Hok |].
  apply (grantAccess_once (envOf orgA 13) rid0 orgB setupState sharedState Hok).
Defined.

(** X12: a batch with a zero address and a repeated address. *)
Lemma batchRegister_adds_the_array_witness :
  batchRegisterOrganizations (envOf admin0 10) batchOrgs (constructor admin0)
    = Ok batchState
  ∧ getAllOrganizations batchState = [orgA; orgB]
  ∧ batchRegisterOrganizations (envOf admin0 10) batchOrgs batchState = Ok batchState.
Proof.
  assert (batchRegisterOrganizations (envOf admin0 10) batchOrgs (constructor admin0)
          = Ok batchState) as Hok by by vm_compute.
  split; [exact Hok |]. split; [by vm_compute |].
  apply (batchRegister_adds_the_array (envOf admin0 10) batchOrgs
           (constructor admin0) batchState Hok).
Defined.

(** X13: the admin registers [orgA]. *)
Lemma registerOrganization_once_witness :
  registerOrganization (envOf admin0 10) orgA (constructor admin0) = Ok registeredA
  ∧ batchRegisterOrganizations (envOf admin0 10) [orgA] (constructor admin0)
      = Ok registeredA.
Proof.
  assert (registerOrganization (envOf admin0 10) orgA (constructor admin0)
          = Ok registeredA) as Hok by by vm_compute.
  split; [exact Hok |].
  apply (registerOrganization_once (envOf admin0 10) orgA (constructor admin0)
           registeredA Hok).
Defined.

(** X14 after [orgB] was revoked: [orgA] is still there. *)
Lemma active_record_is_attended_witness :
  reachable revokedState
  ∧ isActive (getRecord revokedState rid0) = true
  ∧ getRecordAccess revokedState rid0 ≠ [].
Proof.
  assert (isActive (getRecord revokedState rid0) = true) as Hact by by vm_compute.
  split; [apply reachable_revokedState |]. split; [exact Hact |].
  apply (active_record_is_attended revokedState rid0 reachable_revokedState Hact).
Defined.

(** X15 at the state where [rid0] was shared. *)
Lemma indices_are_exact_witness :
  reachable sharedState
  ∧ getOrganizationRecords sharedState orgB = [rid0]
  ∧ NoDup (_allRecordIds sharedState).
Proof.
  split; [apply reachable_sharedState |]. split; [by vm_compute |].
  apply (@indices_are_exact injectiveHash injectiveHash_collision_free
           sharedState reachable_sharedState).
Defined.

(** X16: [orgA] can create a further record in the shared state. *)
Lemma createRecord_commits_iff_witness :
  reachable sharedState
  ∧ createRecord (envOf orgA 30) patientP "H4" "ipfs://L4" sharedState
      ≠ Reverted (Require "HealthcareDB: Record ID collision").
Proof.
  split; [apply reachable_sharedState |].
  apply (@createRecord_commits_iff injectiveHash injectiveHash_collision_free
           sharedState (envOf orgA 30) patientP "H4" "ipfs://L4" reachable_sharedState).
Defined.

(** X17: [rid0] across a grant, an update and its deactivation. *)
Lemma record_identity_is_permanent_witness :
  reachable setupState
  ∧ _records setupState !! rid0 = Some (recordOf setupState rid0)
  ∧ ∃ r', _records (run setupState laterTrace) !! rid0 = Some r'
          ∧ recordId r' = recordId (recordOf setupState rid0)
          ∧ patientAddress r' = patientAddress (recordOf setupState rid0)
          ∧ createdBy r' = createdBy (recordOf setupState rid0)
          ∧ timestamp r' = timestamp (recordOf setupState rid0).
Proof.
  assert (_records setupState !! rid0 = Some (recordOf setupState rid0)) as Hr
    by by vm_compute.
  split; [apply reachable_setupState |]. split; [exact Hr |].
  exact (@record_identity_is_permanent injectiveHash injectiveHash_collision_free
           setupState rid0 _ laterTrace reachable_setupState Hr).
Defined.

(** X18: [orgA] gives up its organization role and still deactivates the
    record it created. *)
Lemma deactivateRecord_commits_iff_witness :
  reachable setupState
  ∧ _records setupState !! rid0 = Some (recordOf setupState rid0)
  ∧ hasRole (@run injectiveHash setupState
               [tx orgA 13 (RenounceRole ORGANIZATION_ROLE orgA)])
      ORGANIZATION_ROLE orgA = false
  ∧ ∃ s2, deactivateRecord (envOf orgA 14) rid0
            (@run injectiveHash setupState
               [tx orgA 13 (RenounceRole ORGANIZATION_ROLE orgA)]) = Ok s2.
Proof.
  assert (_records setupState !! rid0 = Some (recordOf setupState rid0)) as Hr
    by by vm_compute.
  split; [apply reachable_setupState |]. split; [exact Hr |].
  split; [by vm_compute |].
  apply (@deactivateRecord_commits_iff injectiveHash injectiveHash_collision_free
           setupState rid0 _ [tx orgA 13 (RenounceRole ORGANIZATION_ROLE orgA)]
           (envOf orgA 14) reachable_setupState Hr).
  split; [by vm_compute |]. split; [by vm_compute |]. left. by vm_compute.
Defined.

(** X19: [orgC] has access to [rid0] but gave up its organization role, so
    its update does not commit. *)
Lemma guarded_writes_commit_iff_witness :
  hasAccess renouncedState rid0 orgC = true
  ∧ hasRole renouncedState ORGANIZATION_ROLE orgC = false
  ∧ (¬ ∃ s', updateRecord (envOf orgC 21) rid0 "H2" "ipfs://L2" renouncedState
             = Ok s')
  ∧ ∃ s', updateRecord (envOf orgB 21) rid0 "H2" "ipfs://L2" renouncedState
          = Ok s'.
Proof.
  split; [by vm_compute |]. split; [by vm_compute |]. split.
  - intros Hcommit.
    apply (proj1 (guarded_writes_commit_iff renouncedState (envOf orgC 21) rid0))
      in Hcommit as (_ & Hrole & _).
    by vm_compute in Hrole.
  - apply (proj1 (guarded_writes_commit_iff renouncedState (envOf orgB 21) rid0)).
    split; [by vm_compute |]. split; [by vm_compute |]. split; [by vm_compute |].
    split; by vm_compute.
Defined.

(** X20: two creations in one block on the older contract. *)
Lemma legacy_same_block_same_id_witness :
  Legacy.createRecord (envOf orgA 12) patientP "H1" "ipfs://L1" legacyOrgs
    = Ok (legacyRid, legacyCreated)
  ∧ Legacy.createRecord (envOf orgA 12) patientP "H9" "ipfs://L9" legacyCreated
    = Ok (legacyRid, legacyCreatedTwice)
  ∧ Legacy.getTotalRecordCount legacyCreatedTwice = 2.
Proof.
  assert (Legacy.createRecord (envOf orgA 12) patientP "H1" "ipfs://L1" legacyOrgs
          = Ok (legacyRid, legacyCreated)) as Hok by by vm_compute.
  split; [exact Hok |]. split; [by vm_compute |].
  destruct (legacy_same_block_same_id (envOf orgA 12) patientP "H1" "ipfs://L1"
              "H9" "ipfs://L9" legacyOrgs legacyRid legacyCreated Hok ltac:(done))
    as (s2 & Hok2 & _ & _ & _ & Hcount & _).
  assert (s2 = legacyCreatedTwice) as ->.
  { assert (Legacy.createRecord (envOf orgA 12) patientP "H9" "ipfs://L9" legacyCreated
            = Ok (legacyRid, legacyCreatedTwice)) as Hok3 by by vm_compute.
    congruence. }
  rewrite Hcount. by vm_compute.
Defined.

(** X21: [orgB] is revoked, granted access again, and "revoked" again. *)
Lemma legacy_regrant_cannot_be_revoked_witness :
  (∃ g, g ∈ Legacy.accessOf legacyShared legacyRid ∧ Legacy.organization g = orgB)
  ∧ Legacy.revokeAccess (envOf orgA 14) legacyRid orgB legacyShared = Ok legacyRevoked
  ∧ Legacy.grantAccess (envOf orgA 15) legacyRid orgB legacyRevoked = Ok legacyRegranted
  ∧ Legacy.revokeAccess (envOf orgA 16) legacyRid orgB legacyRegranted
      = Ok legacyRevokedAgain
  ∧ ∃ s3, Legacy.revokeAccess (envOf orgA 16) legacyRid orgB legacyRegranted = Ok s3
          ∧ Legacy.hasAccess s3 legacyRid orgB = true
          ∧ Legacy.accessOf s3 legacyRid = Legacy.accessOf legacyRegranted legacyRid.
Proof.
  assert (∃ g, g ∈ Legacy.accessOf legacyShared legacyRid
               ∧ Legacy.organization g = orgB) as Hentry.
  { exists {| Legacy.organization := orgB; Legacy.grantedAt := 13;
              Legacy.isRevoked := false |}.
    split; [| done]. apply list_elem_of_lookup. exists 1%nat. by vm_compute. }
  assert (Legacy.revokeAccess (envOf orgA 14) legacyRid orgB legacyShared
          = Ok legacyRevoked) as H1 by by vm_compute.
  assert (Legacy.grantAccess (envOf orgA 15) legacyRid orgB legacyRevoked
          = Ok legacyRegranted) as H2 by by vm_compute.
  split; [exact Hentry |]. split; [exact H1 |]. split; [exact H2 |].
  split; [by vm_compute |].
  destruct (legacy_regrant_cannot_be_revoked (envOf orgA 14) (envOf orgA 15)
              legacyRid orgB legacyShared legacyRevoked legacyRegranted
              Hentry H1 H2) as (_ & _ & _ & Hagain).
  apply (Hagain (envOf orgA 16)); by vm_compute.
Defined.

(** X22: [orgA] revokes itself on the record it has just created. *)
Lemma legacy_creator_can_orphan_record_witness :
  Legacy.accessOf legacyOrgs legacyRid = []
  ∧ Legacy.createRecord (envOf orgA 12) patientP "H1" "ipfs://L1" legacyOrgs
      = Ok (legacyRid, legacyCreated)
  ∧ ∃ s2, Legacy.revokeAccess (envOf orgA 12) legacyRid orgA legacyCreated = Ok s2
          ∧ Legacy.isActive (Legacy.recordOf s2 legacyRid) = true
          ∧ Legacy.getRecordAccess s2 legacyRid = [].
Proof.
  assert (Legacy.accessOf legacyOrgs legacyRid = []) as Hfresh by by vm_compute.
  assert (Legacy.createRecord (envOf orgA 12) patientP "H1" "ipfs://L1" legacyOrgs
          = Ok (legacyRid, legacyCreated)) as Hok by by vm_compute.
  split; [exact Hfresh |]. split; [exact Hok |].
  destruct (legacy_creator_can_orphan_record (envOf orgA 12) patientP "H1" "ipfs://L1"
              legacyOrgs legacyRid legacyCreated Hfresh Hok)
    as (s2 & Hrev & Hact & Hlist & _).
  by exists s2.
Defined.

(** * Two more views of the same facts *)

(** X26: [getRecordAccess] returns the organizations of the entries that
    are not revoked, in the order in which they were granted; in a reachable
    state and for an active record these are exactly the organizations for
    which [hasAccess] is true. *)
Theorem getRecordAccess_is_hasAccess `{Keccak256, !CollisionFree} s rid :
  reachable s →
  getRecordAccess s rid = activeOrganizations (accessOf s rid)
  ∧ (isActive (getRecord s rid) = true →
     ∀ o, o ∈ getRecordAccess s rid ↔ hasAccess s rid o = true).
Proof.
  intros Hs. pose proof (Ledger_reachable s Hs) as HL.
  split; [apply getRecordAccess_active |].
  intros Hact o. unfold hasAccess, getRecord in *.
  rewrite getRecordAccess_active, (_hasAccess_ledger s rid o HL), Hact. simpl.
  rewrite scanAccess_spec. unfold activeOrganizations.
  rewrite list_elem_of_fmap. split.
  - intros (g & -> & Hg). apply list_elem_of_filter in Hg as [Hrev Hin]. by exists g.
  - intros (g & Hin & <- & Hrev). exists g. split; [done |].
    apply list_elem_of_filter. by split.
Qed.

(** X27: the older contract's [registerOrganization] checks nothing about
    the address: any address, the zero address included, receives the
    organization role, and registering it again commits and changes
    nothing. *)
Theorem legacy_register_is_unchecked e org s :
  Legacy.hasRole s ADMIN_ROLE (msg_sender e) = true →
  ∃ s', Legacy.registerOrganization e org s = Ok s'
        ∧ Legacy.hasRole s' ORGANIZATION_ROLE org = true
        ∧ Legacy.registerOrganization e org s' = Ok s'.
Proof.
  intros Hadmin. unfold Legacy.registerOrganization, Legacy.onlyRole.
  rewrite Hadmin. simpl. eexists. split; [done |].
  assert (Legacy.hasRole (Legacy._grantRole ORGANIZATION_ROLE org s) ADMIN_ROLE
            (msg_sender e) = true) as ->.
  { unfold Legacy.hasRole in *. simpl. apply bool_decide_eq_true.
    apply bool_decide_eq_true in Hadmin. set_solver. }
  split.
  - unfold Legacy.hasRole. simpl. apply bool_decide_eq_true. set_solver.
  - simpl. f_equal. unfold Legacy._grantRole. simpl. f_equal. set_solver.
Qed.

(** X26 at the state where [rid0] was shared. *)
Lemma getRecordAccess_is_hasAccess_witness :
  reachable sharedState
  ∧ isActive (getRecord sharedState rid0) = true
  ∧ ∀ o, o ∈ getRecordAccess sharedState rid0 ↔ hasAccess sharedState rid0 o = true.
Proof.
  assert (isActive (getRecord sharedState rid0) = true) as Hact by by vm_compute.
  split; [apply reachable_sharedState |]. split; [exact Hact |].
  by apply (@getRecordAccess_is_hasAccess injectiveHash injectiveHash_collision_free
              sharedState rid0 reachable_sharedState).
Defined.

(** X27: the admin of the older contract registers the zero address. *)
Lemma legacy_register_is_unchecked_witness :
  Legacy.hasRole legacyOrgs ADMIN_ROLE (msg_sender (envOf admin0 20)) = true
  ∧ ∃ s', Legacy.registerOrganization (envOf admin0 20) 0 legacyOrgs = Ok s'
          ∧ Legacy.hasRole s' ORGANIZATION_ROLE 0 = true
          ∧ Legacy.registerOrganization (envOf admin0 20) 0 s' = Ok s'.
Proof.
  assert (Legacy.hasRole legacyOrgs ADMIN_ROLE (msg_sender (envOf admin0 20)) = true)
    as Hadmin by by vm_compute.
  split; [exact Hadmin |].
  exact (legacy_register_is_unchecked (envOf admin0 20) 0 legacyOrgs Hadmin).
Defined.
